(** * Red-Black-Predictor: the outcome-prediction ensemble engine

    A shallow embedding of the three predictor scripts of the repository:

    - [Sporty]   : sportypredictor.cjs      (five-slot rounds over R/B/G),
    - [Advanced] : iv-redblack-advanced.cjs (single stream over RED/BLACK/GREEN),
    - [Fixed]    : redblack_predictor_fixed.cjs (index.cjs, incremental counts).

    JavaScript numbers are embedded as exact rationals ([Q]): every
    arithmetic operation of the scripts is read without rounding, and
    equality of numbers is [Qeq].  The idiom [x || d] on a number is
    [truthy_or x d]: it yields [d] exactly when [x] is zero.  Division by
    zero never occurs on the paths the theorems below talk about (Q gives
    0 there, JavaScript an infinity or NaN). *)

From Stdlib Require Import QArith Qminmax Qround Qabs Qpower Lqa Lia.
From Stdlib Require Import String Ascii ZArith Bool Arith List.
From Stdlib Require Import Permutation.
Import ListNotations.

Local Open Scope Q_scope.

(** ** Numbers and three-way tables shared by the scripts *)

(** [x || d] on numbers. *)
Definition truthy_or (x d : Q) : Q := if Qeq_bool x 0 then d else x.

(** [Math.pow(base, age)] for a natural age. *)
Definition pow (base : Q) (age : nat) : Q := base ^ Z.of_nat age.

(** [x > y] on numbers. *)
Definition Qgtb (x y : Q) : bool := negb (Qle_bool x y).

(** [arr.reduce((a,b)=>a+b,0)]. *)
Definition reduce_sum (xs : list Q) : Q := fold_left Qplus xs 0.

(** [arr.slice(-k)]: the last [k] elements (all of them if shorter). *)
Definition slice_last {A} (k : nat) (xs : list A) : list A :=
  skipn (length xs - k) xs.

(** Objects keyed by an alphabet: [Object.values(d)] lists the values in
    key order, and [normalize]/[normalizeDict] divide by their sum. *)
Section Table.
Context {K : Type}.
Variable keys : list K.

Definition table_values (d : K -> Q) : list Q := map d keys.

Definition table_sum (d : K -> Q) : Q := reduce_sum (table_values d).

Definition table_normalize (obj : K -> Q) : K -> Q :=
  let sum := truthy_or (table_sum obj) 1 in
  fun k => obj k / sum.
End Table.

(** [xs.push(x); if (xs.length > cap) xs.shift()]. *)
Definition push_capped {A} (cap : nat) (xs : list A) (x : A) : list A :=
  let ys := xs ++ [x] in
  if (cap <? length ys)%nat then tl ys else ys.

(** ** Whole-word matches in scraped text *)

(** [\w] on ASCII text. *)
Definition is_word (c : ascii) : bool :=
  let n := nat_of_ascii c in
  ((48 <=? n) && (n <=? 57))%nat || ((65 <=? n) && (n <=? 90))%nat
  || (n =? 95)%nat || ((97 <=? n) && (n <=? 122))%nat.

Definition word_side (c : option ascii) : bool :=
  match c with Some c => is_word c | None => false end.

(** [\b] between two neighbouring characters ([None] is an end of the text). *)
Definition boundary (prev next : option ascii) : bool :=
  xorb (word_side prev) (word_side next).

(** The text that follows the literal [w] at the start of [s]. *)
Fixpoint after_literal (w s : list ascii) : option (list ascii) :=
  match w, s with
  | [], _ => Some s
  | a :: w', c :: s' => if Ascii.eqb a c then after_literal w' s' else None
  | _ :: _, [] => None
  end.

(** [\bw\b] matched at the start of [s], where [prev] is the character
    before it. *)
Definition whole_word_here (w : list ascii) (prev : option ascii) (s : list ascii) : bool :=
  match after_literal w s with
  | Some rest =>
      boundary prev (hd_error s) && boundary (hd_error (rev w)) (hd_error rest)
  | None => false
  end.

(** [s.match(/\b(w1|w2|...)\b/)]: the leftmost position where an
    alternative matches, the alternatives tried in order; the value is what
    the captured alternative stands for. *)
Fixpoint search {A} (alts : list (list ascii * A)) (prev : option ascii)
    (s : list ascii) : option A :=
  match find (fun a => whole_word_here (fst a) prev s) alts with
  | Some a => Some (snd a)
  | None =>
      match s with
      | [] => None
      | c :: s' => search alts (Some c) s'
      end
  end.

(** The words of a text, used to state what the searches find: its maximal
    runs of [\w] characters, in order. *)
Fixpoint words_go (s cur : list ascii) : list (list ascii) :=
  match s with
  | [] => match cur with [] => [] | _ :: _ => [rev cur] end
  | c :: s' =>
      if is_word c then words_go s' (c :: cur)
      else match cur with
           | [] => words_go s' []
           | _ :: _ => rev cur :: words_go s' []
           end
  end.

Definition words (s : list ascii) : list (list ascii) := words_go s [].

Definition list_ascii_eqb (a b : list ascii) : bool :=
  String.eqb (string_of_list_ascii a) (string_of_list_ascii b).

(** What the first word that is one of the alternatives stands for. *)
Fixpoint first_listed {A} (alts : list (list ascii * A)) (ws : list (list ascii))
  : option A :=
  match ws with
  | [] => None
  | w :: ws' =>
      match find (fun a => list_ascii_eqb (fst a) w) alts with
      | Some a => Some (snd a)
      | None => first_listed alts ws'
      end
  end.

(** The longest prefix of word characters, and the text after it. *)
Fixpoint word_prefix (s : list ascii) : list ascii :=
  match s with
  | c :: s' => if is_word c then c :: word_prefix s' else []
  | [] => []
  end.

Fixpoint skip_word (s : list ascii) : list ascii :=
  match s with
  | c :: s' => if is_word c then skip_word s' else s
  | [] => []
  end.

(** ** sportypredictor.cjs *)
Module Sporty.

Inductive Outcome := R | B | G.

Definition OUTCOMES : list Outcome := [R; B; G].
Definition GAMES_PER_ROUND : nat := 5.

Definition ALPHA : Q := 0.5.
Definition DECAY : Q := 0.97.
Definition MIX_GLOBAL : Q := 0.25.

Definition STREAK_WINDOW : nat := 3.
Definition STREAK_BONUS : Q := 0.06.

Definition Outcome_eqb (a b : Outcome) : bool :=
  match a, b with
  | R, R | B, B | G, G => true
  | _, _ => false
  end.

(** The token an alphabet member is written as. *)
Definition token (o : Outcome) : string :=
  match o with R => "R" | B => "B" | G => "G" end.

(** [OUTCOMES.includes(t)], returning the member found. *)
Definition includes (t : string) : option Outcome :=
  find (fun o => String.eqb t (token o)) OUTCOMES.

Definition is_member (t : string) : bool :=
  match includes t with Some _ => true | None => false end.

(** A stored round [{ ts, games }]. *)
Record Entry := mkEntry { ts : Z; games : list string }.
Definition History := list Entry.

(** An object keyed by the alphabet, [{R: _, B: _, G: _}]. *)
Definition Dist := Outcome -> Q.

Definition fromEntries (f : Outcome -> Q) : Dist := f.

(** [d[k] = v] on a copy. *)
Definition set (d : Dist) (k : Outcome) (v : Q) : Dist :=
  fun o => if Outcome_eqb o k then v else d o.

(** [Object.values(d)], in key order. *)
Definition values (d : Dist) : list Q := table_values OUTCOMES d.

Definition uniform : Dist := fromEntries (fun _ => 1 / inject_Z (Z.of_nat (length OUTCOMES))).

(** *** UTIL *)

(** A raw line is read as ASCII text: [is_space] is [\s] and [upper_char]
    is [toUpperCase] on ASCII characters. *)
Definition is_space (c : ascii) : bool :=
  let n := nat_of_ascii c in
  ((9 <=? n) && (n <=? 13))%nat || (n =? 32)%nat.

Definition upper_char (c : ascii) : ascii :=
  let n := nat_of_ascii c in
  if ((97 <=? n) && (n <=? 122))%nat then ascii_of_nat (n - 32) else c.

(** [s.replace(/,/g,' ')]. *)
Definition replace_commas (s : list ascii) : list ascii :=
  map (fun c => if Ascii.eqb c "," then " "%char else c) s.

Fixpoint drop_space (s : list ascii) : list ascii :=
  match s with
  | c :: s' => if is_space c then drop_space s' else s
  | [] => []
  end.

(** [s.trim()]. *)
Definition trim (s : list ascii) : list ascii :=
  rev (drop_space (rev (drop_space s))).

(** [s.split(/\s+/)]: [cur] is the piece being read (reversed), [in_sep]
    tells whether the previous character belonged to a separator. *)
Fixpoint split_go (s : list ascii) (cur : list ascii) (in_sep : bool)
  : list (list ascii) :=
  match s with
  | [] => [rev cur]
  | c :: s' =>
      if is_space c then
        if in_sep then split_go s' cur true
        else rev cur :: split_go s' [] true
      else split_go s' (c :: cur) false
  end.

Definition split_ws (s : list ascii) : list (list ascii) := split_go s [] false.

Definition toUpperCase (s : list ascii) : string :=
  string_of_list_ascii (map upper_char s).

Definition join (sep : string) (xs : list string) : string :=
  String.concat sep xs.

(** [raw.replace(/,/g,' ').trim().split(/\s+/).map(t => t.toUpperCase())]. *)
Definition tokensOf (raw : string) : list string :=
  map toUpperCase (split_ws (trim (replace_commas (list_ascii_of_string raw)))).

(** [parseRoundInput]: [inl msg] is the thrown [Error(msg)]. *)
Definition parseRoundInput (raw : string) : string + list string :=
  let tokens := tokensOf raw in
  if negb (length tokens =? GAMES_PER_ROUND)%nat then
    inl ("Need exactly 5 outcomes (" ++ join "/" (map token OUTCOMES) ++ ").")%string
  else if negb (forallb is_member tokens) then
    inl ("Outcomes must be one of " ++ join "," (map token OUTCOMES))%string
  else inr tokens.

Definition recencyWeights (n : nat) : list Q :=
  map (fun i => pow DECAY ((n - 1) - i)) (seq 0 n).

Definition dsum (d : Dist) : Q := table_sum OUTCOMES d.

Definition normalize (obj : Dist) : Dist := table_normalize OUTCOMES obj.

(** *** MODELS: compute counts & posteriors *)

(** [d[k] += w]. *)
Definition add_to (d : Dist) (k : Outcome) (w : Q) : Dist := set d k (d k + w).

(** [arr[s] = v] for an array indexed by slot. *)
Definition upd_at {A} (arr : nat -> A) (s : nat) (v : A) : nat -> A :=
  fun t => if (t =? s)%nat then v else arr t.

(** [round[s]] when it is a member of the alphabet. *)
Definition cell (round : list string) (s : nat) : option Outcome :=
  match nth_error round s with
  | Some o => includes o
  | None => None
  end.

Definition games_at (history : History) (i : nat) : list string :=
  match nth_error history i with
  | Some e => games e
  | None => []
  end.

Definition prior : Dist := fromEntries (fun _ => ALPHA).

Record Counts := mkCounts {
  slotCounts : nat -> Dist;
  globalCounts : Dist;
  markovCounts : nat -> Outcome -> Dist;
  patternCounts : string -> option (nat -> Dist)
}.

Definition initCounts : Counts :=
  mkCounts (fun _ => prior) prior (fun _ _ => prior) (fun _ => None).

Definition slots : list nat := seq 0 GAMES_PER_ROUND.

(** The slot/global loop of round [i]. *)
Definition bump_slot_global (round : list string) (wi : Q)
    (acc : (nat -> Dist) * Dist) (s : nat) : (nat -> Dist) * Dist :=
  match cell round s with
  | Some o => (upd_at (fst acc) s (add_to (fst acc s) o wi), add_to (snd acc) o wi)
  | None => acc
  end.

(** The Markov loop of round [i > 0]. *)
Definition bump_markov (prev round : list string) (wi : Q)
    (mc : nat -> Outcome -> Dist) (s : nat) : nat -> Outcome -> Dist :=
  match cell prev s, cell round s with
  | Some p, Some cur =>
      upd_at mc s (fun a => if Outcome_eqb a p then add_to (mc s p) cur wi else mc s a)
  | _, _ => mc
  end.

(** The pattern loop of round [i > 0] on the array stored under the key. *)
Definition bump_pattern (round : list string) (wi : Q)
    (arr : nat -> Dist) (s : nat) : nat -> Dist :=
  match cell round s with
  | Some cur => upd_at arr s (add_to (arr s) cur wi)
  | None => arr
  end.

Definition step (history : History) (w : list Q) (st : Counts) (i : nat) : Counts :=
  let round := games_at history i in
  let wi := nth i w 0 in
  let sg := fold_left (bump_slot_global round wi) slots (slotCounts st, globalCounts st) in
  if (0 <? i)%nat then
    let prev := games_at history (i - 1) in
    let mc := fold_left (bump_markov prev round wi) slots (markovCounts st) in
    let key := join "," prev in
    let arr0 := match patternCounts st key with
                | Some arr => arr
                | None => fun _ => prior
                end in
    let arr := fold_left (bump_pattern round wi) slots arr0 in
    mkCounts (fst sg) (snd sg) mc
             (fun k => if String.eqb k key then Some arr else patternCounts st k)
  else
    mkCounts (fst sg) (snd sg) (markovCounts st) (patternCounts st).

Definition buildCounts (history : History) : Counts :=
  let n := length history in
  if (0 <? n)%nat then
    fold_left (step history (recencyWeights n)) (seq 0 n) initCounts
  else initCounts.

Record Models := mkModels {
  slotPosteriors : nat -> Dist;
  globalPosterior : Dist;
  markovProbs : nat -> Outcome -> Dist;
  patternProbs : string -> option (nat -> Dist)
}.

Definition buildModels (history : History) : Models :=
  let c := buildCounts history in
  mkModels (fun s => normalize (slotCounts c s))
           (normalize (globalCounts c))
           (fun s prev => normalize (markovCounts c s prev))
           (fun key => match patternCounts c key with
                       | Some arr => Some (fun s => normalize (arr s))
                       | None => None
                       end).

(** *** ENSEMBLE PREDICTION *)

Definition opt_string_eqb (a b : option string) : bool :=
  match a, b with
  | Some x, Some y => String.eqb x y
  | None, None => true
  | _, _ => false
  end.

(** [vals.every(v => v === vals[0]) && OUTCOMES.includes(vals[0])],
    returning the repeated member. *)
Definition streak_of (vals : list (option string)) : option Outcome :=
  match vals with
  | v0 :: _ =>
      if forallb (fun v => opt_string_eqb v v0) vals then
        match v0 with Some t => includes t | None => None end
      else None
  | [] => None
  end.

(** The body of [applyStreakAdjustment] once the streak outcome is known. *)
Definition transferFrom (probs : Dist) (streakOutcome : Outcome) : Dist :=
  let otherOutcomes :=
    filter (fun o => negb (Outcome_eqb o streakOutcome)) OUTCOMES in
  if (length otherOutcomes =? 0)%nat then probs
  else
    let transferPerOther :=
      STREAK_BONUS / inject_Z (Z.of_nat (length otherOutcomes)) in
    let adj :=
      fold_left (fun adj opp => set adj opp (Qmin 1 (adj opp + transferPerOther)))
                otherOutcomes probs in
    let sum := dsum adj in
    fun k => adj k / sum.

Definition applyStreakAdjustment (probs : Dist) (history : History)
    (slotIndex : nat) : Dist :=
  let n := length history in
  if (n <? STREAK_WINDOW)%nat then probs
  else
    let tail := slice_last STREAK_WINDOW history in
    let vals := map (fun r => nth_error (games r) slotIndex) tail in
    match streak_of vals with
    | Some streakOutcome => transferFrom probs streakOutcome
    | None => probs
    end.

(** [{slot, markov, pattern, streak}], also the globals [W_SLOT] ... [W_STREAK]. *)
Record Weights := mkWeights { slot : Q; markov : Q; pattern : Q; streak : Q }.

Definition defaultWeights : Weights := mkWeights 0.5 0.35 0.12 0.03.

(** The argmax loop over [OUTCOMES.slice(1)], starting at [OUTCOMES[0]]. *)
Definition argmax_pick (dist : Dist) : Outcome :=
  fst (fold_left (fun best o => if Qgtb (dist o) (snd best) then (o, dist o) else best)
                 (tl OUTCOMES) (hd R OUTCOMES, dist (hd R OUTCOMES))).

Definition last_entry (history : History) : option Entry :=
  nth_error history (length history - 1).

Section Ensemble.
(** The current values of the globals [W_SLOT], [W_MARKOV], [W_PATTERN],
    [W_STREAK]. *)
Variable W : Weights.

(** [weights?.slot ?? W_SLOT] and the like: the override when there is
    one, the globals otherwise. *)
Definition chosenWeights (weights : option Weights) : Weights :=
  match weights with Some w => w | None => W end.

Definition normalizedWeights (weights : option Weights) : Weights :=
  let w := chosenWeights weights in
  let sumW := truthy_or (slot w + markov w + pattern w + streak w) 1 in
  mkWeights (slot w / sumW) (markov w / sumW) (pattern w / sumW) (streak w / sumW).

Definition combinedSlot (history : History) (models : Models)
    (weights : option Weights) (s : nat) : Dist :=
  let ns := normalizedWeights weights in
  let lastRoundKey :=
    match last_entry history with
    | Some e => Some (join "," (games e))
    | None => None
    end in
  let slotP := slotPosteriors models s in
  let slotWithGlobal : Dist :=
    fun o => (1 - MIX_GLOBAL) * slotP o + MIX_GLOBAL * globalPosterior models o in
  let markovP : Dist :=
    match last_entry history with
    | Some e =>
        match cell (games e) s with
        | Some prev => markovProbs models s prev
        | None => uniform
        end
    | None => uniform
    end in
  let patternP : option Dist :=
    match lastRoundKey with
    | Some key =>
        if String.eqb key "" then None
        else match patternProbs models key with
             | Some arr => Some (arr s)
             | None => None
             end
    | None => None
    end in
  fun o =>
    let p_slot := truthy_or (slotWithGlobal o) 0 in
    let p_markov := truthy_or (markovP o) 0 in
    let p_pattern :=
      match patternP with
      | Some pp => truthy_or (pp o) 0
      | None => p_slot
      end in
    slot ns * p_slot + markov ns * p_markov + pattern ns * p_pattern.

Definition blendedSlot (history : History) (models : Models)
    (weights : option Weights) (s : nat) : Dist :=
  let combined := combinedSlot history models weights s in
  let withStreak := applyStreakAdjustment combined history s in
  normalize withStreak.

Record Pick := mkPick { pick : Outcome; probs : Dist }.

Record Prediction := mkPrediction { picks : list Pick; blendedSlots : list Dist }.

Definition predictEnsemble (history : History) (models : Models)
    (weights : option Weights) : Prediction :=
  let blended := map (blendedSlot history models weights) slots in
  mkPrediction (map (fun dist => mkPick (argmax_pick dist) dist) blended) blended.

(** *** EVALUATION *)

(** [p.pick === actual[idx]]. *)
Definition pick_hits (actual : list string) (idx : nat) (p : Pick) : bool :=
  opt_string_eqb (Some (token (pick p))) (nth_error actual idx).

Fixpoint hits_from (actual : list string) (idx : nat) (ps : list Pick) : list bool :=
  match ps with
  | [] => []
  | p :: ps' => pick_hits actual idx p :: hits_from actual (S idx) ps'
  end.

(** The loop state of [walkForwardEvaluate]; [made] lists, most recent
    first, the picks the loop produced (it is not part of the returned
    object). *)
Record WalkState := mkWalk {
  prefix : History;
  totalRounds : nat;
  correctRounds : nat;
  correctSlots : nat;
  totalSlots : nat;
  made : list (list Pick)
}.

Definition walkStep (history : History) (weightsOverride : option Weights)
    (st : WalkState) (i : nat) : WalkState :=
  match nth_error history i with
  | None => st
  | Some e =>
      let prefix' := prefix st ++ [e] in
      let models := buildModels prefix' in
      let ps := picks (predictEnsemble prefix' models weightsOverride) in
      let actual := games_at history (i + 1) in
      let hits := hits_from actual 0 ps in
      let roundCorrect := forallb (fun h => h) hits in
      mkWalk prefix'
             (totalRounds st + 1)
             (if roundCorrect then correctRounds st + 1 else correctRounds st)
             (correctSlots st + length (filter (fun h => h) hits))
             (totalSlots st + length hits)
             (ps :: made st)
  end.

Definition walkLoop (history : History) (weightsOverride : option Weights)
    (upto : nat) : WalkState :=
  fold_left (walkStep history weightsOverride) (seq 0 upto)
            (mkWalk [] 0 0 0 0 []).

Record Evaluation := mkEvaluation {
  rounds : nat;
  evalCorrectRounds : nat;
  roundAccuracy : Q;
  slotAccuracy : Q
}.

Definition ratio (a b : nat) : Q :=
  if (b =? 0)%nat then 0 else inject_Z (Z.of_nat a) / inject_Z (Z.of_nat b).

Definition walkForwardEvaluate (history : History)
    (weightsOverride : option Weights) : Evaluation :=
  if (length history <? 2)%nat then mkEvaluation 0 0 0 0
  else
    let st := walkLoop history weightsOverride (length history - 1) in
    mkEvaluation (totalRounds st) (correctRounds st)
                 (ratio (correctRounds st) (totalRounds st))
                 (ratio (correctSlots st) (totalSlots st)).

(** The picks the evaluator made for round [r], that is, in iteration
    [i = r - 1] of its loop. *)
Definition predictionFor (history : History) (weightsOverride : option Weights)
    (r : nat) : option (list Pick) :=
  if ((r =? 0) || (length history <? 2))%nat then None
  else
    nth_error (rev (made (walkLoop history weightsOverride (length history - 1))))
              (r - 1).

End Ensemble.

(** *** CLI: the [add] command of the line handler *)

Record Session := mkSession { memory : History; stored : History }.

Inductive Reply :=
| RoundAdded (games : list string)
| InputError (message : string).

(** [now] is the value [Date.now()] returns inside the handler. *)
Definition cmdAdd (now : Z) (st : Session) (raw : string) : Session * Reply :=
  match parseRoundInput raw with
  | inr games =>
      let history := memory st ++ [mkEntry now games] in
      (mkSession history history, RoundAdded games)
  | inl message => (st, InputError message)
  end.

(** *** CLI: [undo], [reset] and the line handler *)

(** The [undo] command: [history.pop(); saveHistory(history)], or nothing
    when there is no round to remove. *)
Definition cmdUndo (st : Session) : Session :=
  match memory st with
  | [] => st
  | _ :: _ =>
      let history := removelast (memory st) in
      mkSession history history
  end.

(** The [reset] command: [history = []; saveHistory(history)]. *)
Definition cmdReset (st : Session) : Session := mkSession [] [].

(** The [line] handler of [runCLI], as far as the History goes: the
    commands other than [add], [undo] and [reset] read it only, and an error
    thrown by a command is caught and reported. *)
Definition handleLine (now : Z) (st : Session) (line : string) : Session :=
  let trimmed := trim (list_ascii_of_string line) in
  match trimmed with
  | [] => st
  | _ :: _ =>
      match map string_of_list_ascii (split_ws trimmed) with
      | cmd :: rest =>
          if String.eqb cmd "add" then fst (cmdAdd now st (join " " rest))
          else if String.eqb cmd "undo" then cmdUndo st
          else if String.eqb cmd "reset" then cmdReset st
          else st
      | [] => st
      end
  end.

(** A run of the CLI: every line comes with the value [Date.now()] has
    when it is handled. *)
Definition runLines (st : Session) (lines : list (Z * string)) : Session :=
  fold_left (fun st l => handleLine (fst l) st (snd l)) lines st.

(** *** Predicates used in the statements *)

(** A probability distribution over the alphabet. *)
Definition is_dist (d : Dist) : Prop := (forall o, 0 <= d o) /\ dsum d == 1.

(** Every bucket holds at least the prior. *)
Definition above (d : Dist) : Prop := forall o, ALPHA <= d o.

Definition counts_ok (st : Counts) : Prop :=
  (forall s, above (slotCounts st s)) /\
  above (globalCounts st) /\
  (forall s a, above (markovCounts st s a)) /\
  (forall key arr, patternCounts st key = Some arr -> forall s, above (arr s)).

(** The last [STREAK_WINDOW] rounds all show [v] in slot [s]. *)
Definition streakOn (history : History) (s : nat) (v : Outcome) : Prop :=
  (STREAK_WINDOW <= length history)%nat /\
  Forall (fun r => nth_error (games r) s = Some (token v))
         (slice_last STREAK_WINDOW history).

(** Weights the ensemble can blend with: none negative, and some mass on
    the three blended sources. *)
Definition usable (w : Weights) : Prop :=
  0 <= slot w /\ 0 <= markov w /\ 0 <= pattern w /\ 0 <= streak w /\
  0 < slot w + markov w + pattern w.

(** Some round after the first shows a member of the alphabet in slot [s]
    right after a round that shows [prev] there. *)
Definition followed (history : History) (s : nat) (prev : Outcome) : bool :=
  existsb (fun i =>
             match cell (games_at history (i - 1)) s, cell (games_at history i) s with
             | Some p, Some _ => Outcome_eqb p prev
             | _, _ => false
             end)
          (seq 1 (length history - 1)).


(** A round as [parseRoundInput] returns it: every cell is a token of the
    alphabet. *)
Definition valid_round (round : list string) : Prop :=
  Forall (fun t => exists o, t = token o) round.

(** The global counts hold, beyond the prior, what the slots hold beyond
    theirs. *)
Definition pooled (sc : nat -> Dist) (gc : Dist) : Prop :=
  forall o, gc o - ALPHA == reduce_sum (map (fun s => sc s o - ALPHA) slots).

(** The tallies of the evaluation loop are consistent with each other. *)
Definition tallies_ok (st : WalkState) : Prop :=
  (totalSlots st = GAMES_PER_ROUND * totalRounds st)%nat /\
  (GAMES_PER_ROUND * correctRounds st <= correctSlots st)%nat /\
  (correctSlots st <= totalSlots st)%nat /\
  (correctRounds st <= totalRounds st)%nat.

End Sporty.

(** ** iv-redblack-advanced.cjs *)
Module Advanced.

Inductive Outcome := RED | BLACK | GREEN.

Definition OUTCOMES : list Outcome := [RED; BLACK; GREEN].

Definition N_WINDOW : nat := 10.
Definition EPOCHS : nat := 120.
Definition LR : Q := 0.05.
Definition L2 : Q := 0.001.
Definition DECAY : Q := 0.985.
Definition MIX_MARKOV : Q := 0.35.
Definition MIX_LOGREG : Q := 0.55.
Definition MIX_MARG : Q := 0.10.
Definition STREAK_WINDOW : nat := 3.
Definition STREAK_BONUS : Q := 0.06.

Definition Outcome_eqb (a b : Outcome) : bool :=
  match a, b with
  | RED, RED | BLACK, BLACK | GREEN, GREEN => true
  | _, _ => false
  end.

(** [OUTCOMES.indexOf(o)]. *)
Definition indexOf (o : Outcome) : nat :=
  match o with RED => 0 | BLACK => 1 | GREEN => 2 end.

(** A stored entry [{ ts, outcome }].  Entries are written by
    [recordOutcome] only, from the result of [normalizeOutcomeText], so the
    [outcome] field ranges over the alphabet and the guards
    [OUTCOMES.includes(...)] on stored outcomes always pass. *)
Record Entry := mkEntry { ts : Z; outcome : Outcome }.
Definition History := list Entry.

Definition Dist := Outcome -> Q.

Definition set (d : Dist) (k : Outcome) (v : Q) : Dist :=
  fun o => if Outcome_eqb o k then v else d o.

Definition add_to (d : Dist) (k : Outcome) (w : Q) : Dist := set d k (d k + w).

Definition values (d : Dist) : list Q := table_values OUTCOMES d.
Definition dsum (d : Dist) : Q := table_sum OUTCOMES d.

Definition zero : Dist := fun _ => 0.
Definition uniform : Dist := fun _ => 1 / inject_Z (Z.of_nat (length OUTCOMES)).

(** [arr.slice(a, b)]. *)
Definition slice {A} (a b : nat) (xs : list A) : list A := firstn (b - a) (skipn a xs).

(** *** Markov & marginals *)

Definition markovStep (history : History) (n : nat)
    (counts : Outcome -> Dist) (i : nat) : Outcome -> Dist :=
  match nth_error history (i - 1), nth_error history i with
  | Some p, Some c =>
      let prev := outcome p in
      let cur := outcome c in
      let age := (n - 1 - i)%nat in
      let w := pow DECAY age in
      fun a => if Outcome_eqb a prev then add_to (counts prev) cur w else counts a
  | _, _ => counts
  end.

Definition markovCounts (history : History) : Outcome -> Dist :=
  let n := length history in
  fold_left (markovStep history n) (seq 1 (n - 1)) (fun _ => zero).

Definition buildMarkov (history : History) : Outcome -> Dist :=
  let counts := markovCounts history in
  fun a =>
    let row := counts a in
    let s := dsum row in
    if Qeq_bool s 0 then uniform
    else fun b => row b / s.

Definition marginalStep (history : History) (n : nat) (counts : Dist) (i : nat) : Dist :=
  match nth_error history i with
  | Some e =>
      let age := (n - 1 - i)%nat in
      add_to counts (outcome e) (pow DECAY age)
  | None => counts
  end.

Definition marginalCounts (history : History) : Dist :=
  let n := length history in
  fold_left (marginalStep history n) (seq 0 n) zero.

Definition buildMarginal (history : History) : Dist :=
  table_normalize OUTCOMES (marginalCounts history).

(** *** Streak bias *)

(** The body of [applyStreakBias] once the repeated outcome is known. *)
Definition shiftFrom (probs : Dist) (repeated : Outcome) : Dist :=
  let shift := Qmin STREAK_BONUS (probs repeated * 0.5) in
  let adj := set probs repeated (Qmax 0 (probs repeated - shift)) in
  let others := filter (fun o => negb (Outcome_eqb o repeated)) OUTCOMES in
  let addEach := shift / inject_Z (Z.of_nat (Nat.max 1 (length others))) in
  fold_left (fun adj o => set adj o (truthy_or (adj o) 0 + addEach)) others adj.

Definition applyStreakBias (probs : Dist) (historyList : list Outcome) : Dist :=
  if (length historyList <? STREAK_WINDOW)%nat then probs
  else
    let tail := slice_last STREAK_WINDOW historyList in
    match tail with
    | [] => probs
    | repeated :: _ =>
        if forallb (fun v => Outcome_eqb v repeated) tail
        then shiftFrom probs repeated
        else probs
    end.

(** *** argmax with random tie-break *)

(** The running maximum; [None] is [-Infinity]. *)
Definition bestOf (dist : Dist) : option Q :=
  fold_left (fun bestP k =>
               match bestP with
               | None => Some (dist k)
               | Some b => if Qgtb (dist k) b then Some (dist k) else bestP
               end) OUTCOMES None.

Definition tol : Q := 1e-9.

Definition candidates (dist : Dist) : list Outcome :=
  match bestOf dist with
  | Some bestP => filter (fun k => Qle_bool (Qabs (dist k - bestP)) tol) OUTCOMES
  | None => []
  end.

(** *** The runtime the script calls into *)

(** The library functions the script uses and that have no rational
    counterpart, the local time of day of a timestamp
    ([dt.getHours() + dt.getMinutes() / 60] for [dt = new Date(ts)]) and the
    successive values of [Math.random()]. *)
Record Runtime := mkRuntime {
  Math_exp : Q -> Q;
  Math_sin : Q -> Q;
  Math_cos : Q -> Q;
  Math_PI : Q;
  hourOfDay : Z -> Q;
  Math_random : nat -> Q
}.

(** Code that calls [Math.random()] is a function of the number of values
    drawn so far, returning its result together with the new number. *)
Definition Rand (A : Type) : Type := nat -> A * nat.

Definition ret {A} (x : A) : Rand A := fun c => (x, c).

Definition bind {A B} (m : Rand A) (k : A -> Rand B) : Rand B :=
  fun c => k (fst (m c)) (snd (m c)).

Notation "x <- m ;; k" := (bind m (fun x => k))
  (at level 61, m at next level, right associativity).

(** A loop [for (const x of xs) { ... }] whose body may draw. *)
Fixpoint forEach {A X} (xs : list X) (body : A -> X -> Rand A) (a : A) : Rand A :=
  match xs with
  | [] => ret a
  | x :: xs' => a' <- body a x ;; forEach xs' body a'
  end.

Section WithRuntime.
Variable rt : Runtime.

(** [Math.random()]. *)
Definition random : Rand Q := fun c => (Math_random rt c, S c).

Definition argmaxWithRandomTie (dist : Dist) : Rand (option Outcome) :=
  let cands := candidates dist in
  if (length cands =? 1)%nat then ret (nth_error cands 0)
  else
    u <- random ;;
    ret (nth_error cands (Z.to_nat (Qfloor (u * inject_Z (Z.of_nat (length cands)))))).

(** *** Feature engineering *)

Definition count (o : Outcome) (window : History) : Q :=
  inject_Z (Z.of_nat (length (filter (fun w => Outcome_eqb (outcome w) o) window))).

Fixpoint runLength (val : Outcome) (backwards : History) : nat :=
  match backwards with
  | w :: rest => if Outcome_eqb (outcome w) val then S (runLength val rest) else 0
  | [] => 0
  end.

Definition indicator (b : bool) : Q := if b then 1 else 0.

(** [now] is the value of [Date.now()], read only when the window is empty. *)
Definition buildFeatureFromHistory (now : Z) (history : History) (i : nat) : list Q :=
  let start := Nat.max 0 (i - N_WINDOW) in
  let window := slice start i history in
  let windowLen := inject_Z (Z.of_nat (Nat.max 1 (length window))) in
  let last := match rev window with w :: _ => Some (outcome w) | [] => None end in
  let is_last o := match last with Some l => Outcome_eqb l o | None => false end in
  let streak := match rev window with
                | w :: _ => runLength (outcome w) (rev window)
                | [] => 0%nat
                end in
  let pos := if (0 <? length history)%nat then (length history mod 5)%nat else 0%nat in
  let lastTs := match rev window with w :: _ => ts w | [] => now end in
  let hour := hourOfDay rt lastTs in
  let longStart := Nat.max 0 (i - 200) in
  let longWindow := slice longStart i history in
  let longLen := inject_Z (Z.of_nat (Nat.max 1 (length longWindow))) in
  [count RED window / windowLen; count BLACK window / windowLen; count GREEN window / windowLen]
    ++ [indicator (is_last RED); indicator (is_last BLACK); indicator (is_last GREEN)]
    ++ [inject_Z (Z.of_nat (Nat.min streak 9)) / 9]
    ++ map (fun p => indicator (pos =? p)%nat) (seq 0 5)
    ++ [Math_sin rt ((2 * Math_PI rt * hour) / 24); Math_cos rt ((2 * Math_PI rt * hour) / 24)]
    ++ [count RED longWindow / longLen; count BLACK longWindow / longLen;
        count GREEN longWindow / longLen].

(** *** Softmax logistic *)

Definition softmax (arr : list Q) : list Q :=
  match arr with
  | [] => []
  | a :: rest =>
      let max := fold_left Qmax rest a in
      let exps := map (fun v => Math_exp rt (v - max)) arr in
      let sum := truthy_or (reduce_sum exps) 1 in
      map (fun e => e / sum) exps
  end.

Definition zeros (rows cols : nat) : list (list Q) := repeat (repeat 0 cols) rows.

Definition dotRowVec (row vec : list Q) : Q :=
  fold_left (fun s i => s + nth i row 0 * nth i vec 0) (seq 0 (length row)) 0.

Record Model := mkModel { W : list (list Q); b : list Q }.

Definition logitsOf (model : Model) (x : list Q) : list Q :=
  map (fun k => dotRowVec (nth k (W model) []) x + nth k (b model) 0)
      (seq 0 (length OUTCOMES)).

Definition predictSoftmaxModel (model : option Model) (x : list Q) : option Dist :=
  match model with
  | None => None
  | Some m =>
      let probs := softmax (logitsOf m x) in
      Some (fun o => nth (indexOf o) probs 0)
  end.

(** [{ lr, epochs, l2 }]; an absent option is 0, which [||] replaces by
    the default. *)
Record TrainOpts := mkOpts { lr : Q; epochs : nat; l2 : Q }.

Fixpoint initRow (D : nat) : Rand (list Q) :=
  match D with
  | O => ret []
  | S D' =>
      u <- random ;;
      row <- initRow D' ;;
      ret ((u - 0.5) * 0.01 :: row)
  end.

(** [W[k][d] = (Math.random() - 0.5) * 0.01] for every row and column. *)
Fixpoint initRows (K D : nat) : Rand (list (list Q)) :=
  match K with
  | O => ret []
  | S K' =>
      row <- initRow D ;;
      rows <- initRows K' D ;;
      ret (row :: rows)
  end.

Fixpoint list_set {A} (xs : list A) (i : nat) (v : A) : list A :=
  match xs, i with
  | [], _ => []
  | _ :: xs', O => v :: xs'
  | x :: xs', S i' => x :: list_set xs' i' v
  end.

(** [[idx[i], idx[j]] = [idx[j], idx[i]]]. *)
Definition swap (idx : list nat) (i j : nat) : list nat :=
  let a := nth j idx 0%nat in
  let b := nth i idx 0%nat in
  list_set (list_set idx i a) j b.

(** The Fisher-Yates loop [for (i = N - 1; i > 0; i--)]. *)
Fixpoint shuffleFrom (i : nat) (idx : list nat) : Rand (list nat) :=
  match i with
  | O => ret idx
  | S i' =>
      u <- random ;;
      let j := Z.to_nat (Qfloor (u * inject_Z (Z.of_nat (i + 1)))) in
      shuffleFrom i' (swap idx i j)
  end.

(** [k === y] for the label [y = Y[i]]. *)
Definition isLabel (Y : list nat) (i k : nat) : bool :=
  match nth_error Y i with
  | Some y => (k =? y)%nat
  | None => false
  end.

(** One sample added to the gradients of the batch. *)
Definition accumulate (X : list (list Q)) (Y : list nat) (D : nat) (m : Model)
    (grads : list (list Q) * list Q) (i : nat) : list (list Q) * list Q :=
  let x := nth i X [] in
  let probs := softmax (logitsOf m x) in
  let err k := nth k probs 0 - indicator (isLabel Y i k) in
  (map (fun k => map (fun d => nth d (nth k (fst grads) []) 0 + err k * nth d x 0)
                     (seq 0 D))
       (seq 0 (length OUTCOMES)),
   map (fun k => nth k (snd grads) 0 + err k) (seq 0 (length OUTCOMES))).

Definition batchStep (X : list (list Q)) (Y : list nat) (N D : nat)
    (lr l2 : Q) (batchSize : nat) (idx : list nat) (m : Model) (bstart : nat) : Model :=
  let K := length OUTCOMES in
  let bend := Nat.min N (bstart + batchSize) in
  let grads :=
    fold_left (fun g ii => accumulate X Y D m g (nth ii idx 0%nat))
              (seq bstart (bend - bstart)) (zeros K D, repeat 0 K) in
  let bs := truthy_or (inject_Z (Z.of_nat (bend - bstart))) 1 in
  mkModel
    (map (fun k =>
            map (fun d =>
                   let w := nth d (nth k (W m) []) 0 in
                   let g := nth d (nth k (fst grads) []) 0 / bs + l2 * w in
                   w - lr * g)
                (seq 0 D))
         (seq 0 K))
    (map (fun k => nth k (b m) 0 - lr * (nth k (snd grads) 0 / bs)) (seq 0 K)).

Definition epochStep (X : list (list Q)) (Y : list nat) (N D : nat)
    (lr l2 : Q) (batchSize : nat) (m : Model) (ep : nat) : Rand Model :=
  idx <- shuffleFrom (N - 1) (seq 0 N) ;;
  let bstarts := map (fun t => (t * batchSize)%nat)
                     (seq 0 ((N + batchSize - 1) / batchSize)) in
  ret (fold_left (batchStep X Y N D lr l2 batchSize idx) bstarts m).

Definition trainSoftmax (X : list (list Q)) (Y : list nat) (opts : TrainOpts)
  : Rand (option Model) :=
  let N := length X in
  if (N =? 0)%nat then ret None
  else
    let D := length (nth 0 X []) in
    let K := length OUTCOMES in
    let lr := truthy_or (lr opts) LR in
    let epochs := if (epochs opts =? 0)%nat then EPOCHS else epochs opts in
    let l2 := truthy_or (l2 opts) L2 in
    let batchSize := Nat.min 64 (Nat.max 8 (N / 8)) in
    W0 <- initRows K D ;;
    m <- forEach (seq 0 epochs) (epochStep X Y N D lr l2 batchSize)
                 (mkModel W0 (repeat 0 K)) ;;
    ret (Some m).

(** *** Ensemble *)

Definition ensemblePredict (now : Z) (history : History) (model : option Model) : Dist :=
  let margl := buildMarginal history in
  let markov := buildMarkov history in
  let i := length history in
  let feat := buildFeatureFromHistory now history i in
  let logregProbs :=
    match predictSoftmaxModel model feat with
    | Some probs => probs
    | None => uniform
    end in
  let markovProbs :=
    match nth_error history (length history - 1) with
    | Some e => markov (outcome e)
    | None => margl
    end in
  let combined : Dist := fun o =>
    MIX_LOGREG * truthy_or (logregProbs o) 0
    + MIX_MARKOV * truthy_or (markovProbs o) 0
    + MIX_MARG * truthy_or (margl o) 0 in
  let cl := applyStreakBias combined (map outcome history) in
  let total := truthy_or (dsum cl) 1 in
  fun k => cl k / total.

(** *** Walk-forward evaluation *)

(** The loop state; [made] lists, most recent first, the round index with
    the distribution and pick the loop produced for it (it is not part of
    the returned object). *)
Record WalkState := mkWalk {
  correct : nat;
  tested : nat;
  perOutcome : Outcome -> nat * nat;
  made : list (nat * (Dist * option Outcome))
}.

Definition opt_eqb (p : option Outcome) (o : Outcome) : bool :=
  match p with Some x => Outcome_eqb x o | None => false end.

Definition walkStep (now : Z) (history : History) (st : WalkState) (i : nat)
  : Rand WalkState :=
  let trainHist := slice 0 i history in
  match nth_error history i with
  | None => ret st
  | Some testSample =>
      let js := seq N_WINDOW (length trainHist - N_WINDOW) in
      let X := map (buildFeatureFromHistory now trainHist) js in
      let Y := map (fun e => indexOf (outcome e))
                   (slice N_WINDOW (length trainHist) trainHist) in
      if (length X <? 10)%nat then ret st
      else
        model <- trainSoftmax X Y (mkOpts 0.08 60 0.002) ;;
        let dist := ensemblePredict now trainHist model in
        pick <- argmaxWithRandomTie dist ;;
        let o := outcome testSample in
        let hit := opt_eqb pick o in
        ret (mkWalk (if hit then correct st + 1 else correct st)
                    (tested st + 1)
                    (fun k => if Outcome_eqb k o
                              then (fst (perOutcome st o) + 1,
                                    if hit then snd (perOutcome st o) + 1
                                    else snd (perOutcome st o))%nat
                              else perOutcome st k)
                    ((i, (dist, pick)) :: made st))
  end.

(** [options.minTrain || Math.max(20, N_WINDOW + 5)]; 0 stands for an
    absent option. *)
Definition minTrainOf (minTrain : nat) : nat :=
  if (minTrain =? 0)%nat then Nat.max 20 (N_WINDOW + 5) else minTrain.

Definition walkLoop (now : Z) (history : History) (minTrain : nat) : Rand WalkState :=
  let m := minTrainOf minTrain in
  forEach (seq m (length history - m)) (walkStep now history)
          (mkWalk 0 0 (fun _ => (0, 0)%nat) []).

(** The state and the number of values drawn when the loop reaches
    round [i], when [drawn] values were drawn before it started. *)
Definition before (now : Z) (history : History) (minTrain drawn i : nat)
  : WalkState * nat :=
  forEach (seq (minTrainOf minTrain) (i - minTrainOf minTrain))
          (walkStep now history) (mkWalk 0 0 (fun _ => (0, 0)%nat) []) drawn.

Record Evaluation := mkEvaluation {
  evalTested : nat;
  accuracy : Q;
  evalPerOutcome : Outcome -> nat * nat
}.

Definition walkForwardEvaluate (now : Z) (history : History) (minTrain : nat)
  : Rand Evaluation :=
  if (length history <=? minTrainOf minTrain)%nat
  then ret (mkEvaluation 0 0 (fun _ => (0, 0)%nat))
  else
    st <- walkLoop now history minTrain ;;
    ret (mkEvaluation (tested st)
                      (if (tested st =? 0)%nat then 0
                       else inject_Z (Z.of_nat (correct st))
                            / inject_Z (Z.of_nat (tested st)))
                      (perOutcome st)).

Definition tagged (i : nat) (e : nat * (Dist * option Outcome)) : bool :=
  (fst e =? i)%nat.

(** The distribution and pick the evaluator produced for round [i], when
    [drawn] values of [Math.random()] were drawn before it started. *)
Definition predictionFor (now : Z) (history : History) (minTrain : nat)
    (drawn : nat) (i : nat) : option (Dist * option Outcome) :=
  if (length history <=? minTrainOf minTrain)%nat then None
  else
    option_map snd
      (find (tagged i) (made (fst (walkLoop now history minTrain drawn)))).

End WithRuntime.

(** *** Recording scraped outcomes *)

(** [loadHistory()]: the stored array, or [[]] when the file is missing or
    unreadable ([None]). *)
Definition loadHistory (file : option History) : History :=
  match file with Some h => h | None => [] end.

(** [recordOutcome(outcome)] on the data file; [now1] and [now2] are the
    values of the two [Date.now()] reads, [None] is a falsy outcome. *)
Definition recordOutcome (now1 now2 : Z) (file : option History)
    (observed : option Outcome) : option History :=
  match observed with
  | None => file
  | Some o =>
      let history := loadHistory file in
      let lastEntry := nth_error history (length history - 1) in
      match lastEntry with
      | Some e =>
          if Outcome_eqb (outcome e) o && (now1 - ts e <? 2000)%Z then file
          else Some (history ++ [mkEntry now2 o])
      | None => Some (history ++ [mkEntry now2 o])
      end
  end.

(** *** Reading the scraped text *)

Definition name (o : Outcome) : string :=
  match o with RED => "RED" | BLACK => "BLACK" | GREEN => "GREEN" end.

(** [s.replace(/\s+/g, ' ')]; [in_run] tells whether the previous character
    was white space. *)
Fixpoint collapse_spaces (s : list ascii) (in_run : bool) : list ascii :=
  match s with
  | [] => []
  | c :: s' =>
      if Sporty.is_space c then
        if in_run then collapse_spaces s' true
        else " "%char :: collapse_spaces s' true
      else c :: collapse_spaces s' false
  end.

(** The alternation [GREEN|RED|BLACK] with its captures. *)
Definition alternation : list (list ascii * Outcome) :=
  map (fun o => (list_ascii_of_string (name o), o)) [GREEN; RED; BLACK].

(** [normalizeOutcomeText(raw)] on ASCII text (where the replacements of
    the no-break space and of the zero-width characters find nothing);
    [None] is [null]. *)
Definition normalizeOutcomeText (raw : string) : option Outcome :=
  if String.eqb raw "" then None
  else
    let up := map Sporty.upper_char (Sporty.trim (list_ascii_of_string raw)) in
    let up := map (fun c => if is_word c || Sporty.is_space c then c else " "%char) up in
    let up := Sporty.trim (collapse_spaces up false) in
    search alternation None up.

(** *** Statistical tests *)

(** [{ chi2, counts, total, p }]. *)
Record ChiSquare := mkChiSquare {
  chi2 : Q;
  counts : Dist;
  total : Q;
  p : option Q
}.

(** [chiSquaredDistribution] is the function of that name of the optional
    library, [None] when the library is missing, lacks
    [chiSquaredProbability] or the call throws. *)
Definition chiSquareTest (chiSquaredDistribution : option (Q -> Q -> Q))
    (history : History) : ChiSquare :=
  let counts := fold_left (fun counts r => add_to counts (outcome r) 1) history zero in
  let total := truthy_or (inject_Z (Z.of_nat (length history))) 1 in
  let expected := total / inject_Z (Z.of_nat (length OUTCOMES)) in
  let chi2 :=
    fold_left (fun chi2 o =>
                 let diff := counts o - expected in
                 chi2 + diff * diff / truthy_or expected 1)
              OUTCOMES 0 in
  let p := match chiSquaredDistribution with
           | Some dist => Some (1 - dist chi2 (inject_Z (Z.of_nat (length OUTCOMES - 1))))
           | None => None
           end in
  mkChiSquare chi2 counts total p.

(** [history.map(h => h.outcome).filter(o => o !== 'GREEN')]. *)
Definition binarySeq (history : History) : list Outcome :=
  filter (fun o => negb (Outcome_eqb o GREEN)) (map outcome history).

(** [o === 'RED' ? 1 : 0]. *)
Definition redBit (o : Outcome) : Q := if Outcome_eqb o RED then 1 else 0.

(** [lag1Autocorr(history)]; [None] is [null]. *)
Definition lag1Autocorr (history : History) : option Q :=
  let seq_ := binarySeq history in
  if (length seq_ <? 2)%nat then None
  else
    let nums := map redBit seq_ in
    let mean := reduce_sum nums / inject_Z (Z.of_nat (length nums)) in
    let num :=
      fold_left (fun num i => num + (nth i nums 0 - mean) * (nth (i + 1) nums 0 - mean))
                (seq 0 (length nums - 1)) 0 in
    let denom :=
      fold_left (fun denom i => denom + (nth i nums 0 - mean) ^ 2)
                (seq 0 (length nums)) 0 in
    if Qeq_bool denom 0 then None else Some (num / denom).

(** *** Accuracy tracking in the scrape loop *)

Definition RECENT_WINDOW : nat := 20.

(** The globals [lastPick], [totalPred], [correctPred] and
    [recentPredictions]; [lastPick] is [None] while it is [null], and holds
    what [argmaxWithRandomTie] returned afterwards. *)
Record Tally := mkTally {
  lastPick : option (option Outcome);
  totalPred : nat;
  correctPred : nat;
  recentPredictions : list bool
}.

Definition initTally : Tally := mkTally None 0 0 [].

(** The block [if (lastPick !== null) { ... }] on an observed outcome. *)
Definition evaluateLastPick (t : Tally) (observed : Outcome) : Tally :=
  match lastPick t with
  | None => t
  | Some pick =>
      let ok := opt_eqb pick observed in
      mkTally (lastPick t) (totalPred t + 1)
              (if ok then correctPred t + 1 else correctPred t)
              (push_capped RECENT_WINDOW (recentPredictions t) ok)
  end.

(** [lastPick = pick]. *)
Definition storePick (t : Tally) (pick : option Outcome) : Tally :=
  mkTally (Some pick) (totalPred t) (correctPred t) (recentPredictions t).

(** What one iteration of the loop does to the tally: [round] is the
    observed outcome and the pick made after it. *)
Definition tallyRound (t : Tally) (round : Outcome * option Outcome) : Tally :=
  storePick (evaluateLastPick t (fst round)) (snd round).

(** *** Predicates used in the statements *)

(** A probability distribution over the alphabet. *)
Definition is_dist (d : Dist) : Prop := (forall o, 0 <= d o) /\ dsum d == 1.

(** The last [STREAK_WINDOW] outcomes all equal [v]. *)
Definition streakOf (historyList : list Outcome) (v : Outcome) : Prop :=
  (STREAK_WINDOW <= length historyList)%nat /\
  Forall (fun x => x = v) (slice_last STREAK_WINDOW historyList).

(** The most recent stored entry shows [o] and is less than 2000 ms older
    than [now]. *)
Definition recentDuplicate (now : Z) (history : History) (o : Outcome) : Prop :=
  exists e, nth_error history (length history - 1) = Some e /\
            outcome e = o /\ (now - ts e < 2000)%Z.

(** [prev] is the outcome of some entry that has a successor. *)
Definition followed (history : History) (prev : Outcome) : bool :=
  existsb (fun i =>
             match nth_error history (i - 1) with
             | Some p => Outcome_eqb (outcome p) prev
             | None => false
             end)
          (seq 1 (length history - 1)).


(** A model of [K] classes over [D] features. *)
Definition shaped (K D : nat) (m : Model) : Prop :=
  length (W m) = K /\ Forall (fun row => length row = D) (W m) /\ length (b m) = K.

(** Whether each pick matched the outcome observed after it: [p] is the
    pick in force before the first of the [rounds]. *)
Fixpoint scored (p : option Outcome) (rounds : list (Outcome * option Outcome))
  : list bool :=
  match rounds with
  | [] => []
  | (observed, pick) :: rest => opt_eqb p observed :: scored pick rest
  end.

(** Two neighbouring entries with the same outcome are 2000 ms or more
    apart. *)
Definition spaced (history : History) : Prop :=
  forall i e1 e2,
    nth_error history i = Some e1 -> nth_error history (S i) = Some e2 ->
    outcome e1 = outcome e2 -> (2000 <= ts e2 - ts e1)%Z.

(** The per-outcome tallies of the evaluation loop add up to its totals. *)
Definition tallied (st : WalkState) : Prop :=
  (fst (perOutcome st RED) + fst (perOutcome st BLACK) + fst (perOutcome st GREEN)
   = tested st)%nat /\
  (snd (perOutcome st RED) + snd (perOutcome st BLACK) + snd (perOutcome st GREEN)
   = correct st)%nat /\
  (forall o, snd (perOutcome st o) <= fst (perOutcome st o))%nat.

End Advanced.

(** ** redblack_predictor_fixed.cjs (index.cjs) *)
Module Fixed.

Inductive Outcome := RED | BLACK | GREEN.

Definition OUTCOMES : list Outcome := [RED; BLACK; GREEN].

Definition DECAY : Q := 0.985.
Definition ALPHA : Q := 0.5.
Definition MIX_GLOBAL : Q := 0.20.
Definition STREAK_WINDOW : nat := 3.
Definition STREAK_BONUS : Q := 0.08.

Definition Outcome_eqb (a b : Outcome) : bool :=
  match a, b with
  | RED, RED | BLACK, BLACK | GREEN, GREEN => true
  | _, _ => false
  end.

Definition Dist := Outcome -> Q.

Definition set (d : Dist) (k : Outcome) (v : Q) : Dist :=
  fun o => if Outcome_eqb o k then v else d o.

Definition dsum (d : Dist) : Q := table_sum OUTCOMES d.

(** The model state: the globals [lastOutcome], [trans] and [marg]. *)
Record State := mkState {
  lastOutcome : option Outcome;
  trans : Outcome -> Dist;
  marg : Dist
}.

Definition initState : State :=
  mkState None (fun _ _ => ALPHA) (fun _ => ALPHA).

Definition decayCounts (st : State) : State :=
  mkState (lastOutcome st)
          (fun a b => trans st a b * DECAY)
          (fun a => marg st a * DECAY).

Definition updateModel (st : State) (observed : Outcome) : State :=
  let st1 := decayCounts st in
  let marg' := set (marg st1) observed (marg st1 observed + 1) in
  let trans' :=
    match lastOutcome st1 with
    | Some l => fun a => if Outcome_eqb a l
                         then set (trans st1 l) observed (trans st1 l observed + 1)
                         else trans st1 a
    | None => trans st1
    end in
  mkState (Some observed) trans' marg'.

Definition normalizeDict (obj : Dist) : Dist := table_normalize OUTCOMES obj.

(** The body of [applyStreakBias] once the repeated outcome is known. *)
Definition shiftFrom (probs : Dist) (repeated : Outcome) : Dist :=
  let shift := Qmin STREAK_BONUS (probs repeated * 0.5) in
  let adj := set probs repeated (Qmax 0 (probs repeated - shift)) in
  let others := filter (fun o => negb (Outcome_eqb o repeated)) OUTCOMES in
  let addEach := shift / inject_Z (Z.of_nat (length others)) in
  normalizeDict
    (fold_left (fun adj o => set adj o (truthy_or (adj o) 0 + addEach)) others adj).

Definition applyStreakBias (probs : Dist) (history : list Outcome) : Dist :=
  if (length history <? STREAK_WINDOW)%nat then probs
  else
    let tail := slice_last STREAK_WINDOW history in
    match tail with
    | [] => probs
    | repeated :: _ =>
        if forallb (fun v => Outcome_eqb v repeated) tail
        then shiftFrom probs repeated
        else probs
    end.

Definition predictDistribution (st : State) (historySnapshot : list Outcome) : Dist :=
  let baseCond :=
    match lastOutcome st with
    | Some l => normalizeDict (trans st l)
    | None => normalizeDict (marg st)
    end in
  let global := normalizeDict (marg st) in
  let blended : Dist := fun o =>
    (1 - MIX_GLOBAL) * truthy_or (baseCond o) 0 + MIX_GLOBAL * truthy_or (global o) 0 in
  let biased := applyStreakBias blended historySnapshot in
  normalizeDict biased.

(** [argmax(dict)]: the first key, in key order, holding the maximum;
    the running [bestP] starts at [-Infinity] with [best = null]. *)
Definition argmax (dict : Dist) : option Outcome :=
  option_map fst
    (fold_left (fun best k =>
                  match best with
                  | None => Some (k, dict k)
                  | Some (_, bestP) => if Qgtb (dict k) bestP then Some (k, dict k) else best
                  end) OUTCOMES None).

(** *** Reading the scraped text *)

(** [/\bw\b/.test(up)]. *)
Definition test (w : string) (up : list ascii) : bool :=
  match search [(list_ascii_of_string w, tt)] None up with
  | Some _ => true
  | None => false
  end.

(** [normalizeOutcomeText(txt)] on ASCII text; [None] is [null]. *)
Definition normalizeOutcomeText (txt : string) : option Outcome :=
  if String.eqb txt "" then None
  else
    let up := map Sporty.upper_char (list_ascii_of_string txt) in
    if test "GREEN" up then Some GREEN
    else if test "RED" up then Some RED
    else if test "BLACK" up then Some BLACK
    else None.

(** *** The monitor: persisted outcomes and accuracy *)

Definition RECENT_WINDOW : nat := 20.

(** The globals of the script: the model state, [prevPrediction],
    [totalPred], [correctPred], [recent] and [outcomesList].  The outcome
    file holds what [persistOutcome] wrote, members of the alphabet. *)
Record Monitor := mkMonitor {
  model : State;
  prevPrediction : option Outcome;
  totalPred : nat;
  correctPred : nat;
  recent : list bool;
  outcomesList : list Outcome
}.

Definition initMonitor : Monitor := mkMonitor initState None 0 0 [] [].

(** [loadPersistedOutcomes()]: [file] is the array the outcome file holds,
    [None] when it is missing, unreadable or not an array. *)
Definition loadPersistedOutcomes (m : Monitor) (file : option (list Outcome)) : Monitor :=
  match file with
  | Some arr =>
      let l := slice_last 500 arr in
      mkMonitor (fold_left updateModel l (mkState None (trans (model m)) (marg (model m))))
                (prevPrediction m) (totalPred m) (correctPred m) (recent m) l
  | None => m
  end.

(** The block [if (prevPrediction) { ... }] of the monitor loop. *)
Definition comparePrediction (m : Monitor) (observed : Outcome) : Monitor :=
  match prevPrediction m with
  | Some pred =>
      let ok := Outcome_eqb pred observed in
      mkMonitor (model m) (prevPrediction m) (totalPred m + 1)
                (if ok then correctPred m + 1 else correctPred m)
                (push_capped RECENT_WINDOW (recent m) ok) (outcomesList m)
  | None => m
  end.

(** [persistOutcome(o)]; the file then holds [outcomesList]. *)
Definition persistOutcome (m : Monitor) (o : Outcome) : Monitor :=
  mkMonitor (model m) (prevPrediction m) (totalPred m) (correctPred m) (recent m)
            (push_capped 1000 (outcomesList m) o).

(** One iteration of the monitor loop on an observed outcome. *)
Definition observe (m : Monitor) (observed : Outcome) : Monitor :=
  let m1 := comparePrediction m observed in
  let m2 := mkMonitor (updateModel (model m1) observed) (prevPrediction m1)
                      (totalPred m1) (correctPred m1) (recent m1) (outcomesList m1) in
  let m3 := persistOutcome m2 observed in
  let dist := predictDistribution (model m3) (outcomesList m3) in
  mkMonitor (model m3) (argmax dist) (totalPred m3) (correctPred m3) (recent m3)
            (outcomesList m3).

(** *** Predicates used in the statements *)

(** A probability distribution over the alphabet. *)
Definition is_dist (d : Dist) : Prop := (forall o, 0 <= d o) /\ dsum d == 1.

(** The last [STREAK_WINDOW] outcomes all equal [v]. *)
Definition streakOf (history : list Outcome) (v : Outcome) : Prop :=
  (STREAK_WINDOW <= length history)%nat /\
  Forall (fun x => x = v) (slice_last STREAK_WINDOW history).

(** Every count of the model is strictly positive. *)
Definition positive (st : State) : Prop :=
  (forall a b, 0 < trans st a b) /\ (forall a, 0 < marg st a).

(** The model state after the outcomes [observed] were fed to
    [updateModel] one by one, starting from the initial globals. *)
Definition replay (observed : list Outcome) : State :=
  fold_left updateModel observed initState.


(** The totals of the counts stay within the reach of the decay. *)
Definition bounded (st : State) : Prop :=
  (3 # 2 <= dsum (marg st) /\ dsum (marg st) <= 200 # 3) /\
  (forall a, 0 < dsum (trans st a) /\ dsum (trans st a) <= 200 # 3).

(** The accuracy figures are consistent with each other. *)
Definition tally_ok (m : Monitor) : Prop :=
  (correctPred m <= totalPred m)%nat /\
  length (recent m) = Nat.min (totalPred m) RECENT_WINDOW /\
  (length (filter (fun ok => ok) (recent m)) <= correctPred m)%nat.

(** The same outcome in the alphabet of iv-redblack-advanced.cjs. *)
Definition toAdvanced (o : Outcome) : Advanced.Outcome :=
  match o with
  | RED => Advanced.RED
  | BLACK => Advanced.BLACK
  | GREEN => Advanced.GREEN
  end.

End Fixed.

(** * Properties *)

(** ** Numbers *)

Lemma truthy_or_nonzero x d : ~ x == 0 -> truthy_or x d = x.
Proof.
  intros H. unfold truthy_or.
  destruct (Qeq_bool x 0) eqn:E; [apply Qeq_bool_eq in E; contradiction | reflexivity].
Qed.

Lemma truthy_or_zero x d : x == 0 -> truthy_or x d = d.
Proof.
  intros H. unfold truthy_or. now rewrite (Qeq_eq_bool _ _ H).
Qed.

Lemma truthy_or_0 x : truthy_or x 0 == x.
Proof.
  unfold truthy_or. destruct (Qeq_bool x 0) eqn:E; [|reflexivity].
  apply Qeq_bool_eq in E. now rewrite E.
Qed.

Lemma pow_pos base age : 0 < base -> 0 < pow base age.
Proof. intros H. unfold pow. apply Qpower_0_lt. exact H. Qed.

Lemma some_eq {A} (x y : A) : Some x = Some y -> x = y.
Proof. congruence. Qed.

(** An invariant of a loop body holds after the loop. *)
Lemma fold_left_inv {A X} (P : A -> Prop) (f : A -> X -> A) xs :
  forall init, P init -> (forall a x, In x xs -> P a -> P (f a x)) -> P (fold_left f xs init).
Proof.
  induction xs as [|x xs IH]; intros init H0 Hs; simpl; [assumption|].
  apply IH.
  - apply Hs; [now left | assumption].
  - intros a y Hy. apply Hs. now right.
Qed.

Lemma fold_plus_acc xs : forall a, fold_left Qplus xs a == a + reduce_sum xs.
Proof.
  unfold reduce_sum. induction xs as [|x xs IH]; intros a; simpl.
  - lra.
  - rewrite (IH (a + x)), (IH (0 + x)). lra.
Qed.

Lemma reduce_sum_cons x xs : reduce_sum (x :: xs) == x + reduce_sum xs.
Proof. unfold reduce_sum at 1. simpl. rewrite fold_plus_acc. lra. Qed.

Section TableFacts.
Context {K : Type}.
Variable keys : list K.

Lemma table_sum_scale (d : K -> Q) (s : Q) :
  table_sum keys (fun k => d k / s) == table_sum keys d / s.
Proof.
  unfold table_sum, table_values.
  induction keys as [|k ks IH]; simpl.
  - unfold reduce_sum; simpl. unfold Qdiv. lra.
  - rewrite !reduce_sum_cons, IH. unfold Qdiv. lra.
Qed.

(** Dividing by a non-zero total yields total 1. *)
Lemma table_normalize_sum (d : K -> Q) :
  ~ table_sum keys d == 0 -> table_sum keys (table_normalize keys d) == 1.
Proof.
  intros H. unfold table_normalize.
  rewrite (truthy_or_nonzero _ _ H), table_sum_scale. now field.
Qed.

(** A zero total is replaced by 1, so the values are returned as they are. *)
Lemma table_normalize_zero (d : K -> Q) :
  table_sum keys d == 0 -> table_sum keys (table_normalize keys d) == 0.
Proof.
  intros H. unfold table_normalize.
  rewrite (truthy_or_zero _ _ H), table_sum_scale, H. reflexivity.
Qed.

Lemma table_sum_nonneg (d : K -> Q) :
  (forall k, 0 <= d k) -> 0 <= table_sum keys d.
Proof.
  intros H. unfold table_sum, table_values.
  induction keys as [|k ks IH]; simpl.
  - unfold reduce_sum; simpl. lra.
  - rewrite reduce_sum_cons. specialize (H k). lra.
Qed.
End TableFacts.

(** ** Lists *)

Lemma length_slice_last {A} k (xs : list A) :
  (k <= length xs)%nat -> length (slice_last k xs) = k.
Proof. intros H. unfold slice_last. rewrite length_skipn. lia. Qed.

Lemma firstn_snoc {A} (xs : list A) i e :
  nth_error xs i = Some e -> firstn (S i) xs = firstn i xs ++ [e].
Proof.
  revert i. induction xs as [|x xs IH]; intros [|i] H; simpl in *; try discriminate.
  - now inversion H.
  - now rewrite (IH i H).
Qed.

Lemma firstn_agree_le {A} (xs ys : list A) i j :
  firstn i xs = firstn i ys -> (j <= i)%nat -> firstn j xs = firstn j ys.
Proof.
  intros H Hj.
  rewrite <- (Nat.min_l j i Hj), <- !firstn_firstn, H. reflexivity.
Qed.

Lemma firstn_agree_nth {A} (xs ys : list A) i j :
  firstn i xs = firstn i ys -> (j < i)%nat -> nth_error xs j = nth_error ys j.
Proof.
  intros H Hj.
  assert (E : forall zs : list A, nth_error (firstn i zs) j = nth_error zs j).
  { intros zs. rewrite nth_error_firstn.
    replace (j <? i)%nat with true by (symmetry; apply Nat.ltb_lt; exact Hj).
    reflexivity. }
  rewrite <- (E xs), <- (E ys), H. reflexivity.
Qed.

(** ** Floors, quotients and comparisons *)

Lemma nonneg_nonzero_pos x : 0 <= x -> ~ x == 0 -> 0 < x.
Proof.
  intros H N. destruct (Qlt_le_dec 0 x) as [L|L]; [exact L|].
  exfalso. apply N. lra.
Qed.

Lemma half_twice x : x == x / 2 + x / 2.
Proof. field. Qed.

(** [Math.floor(x)] is [k] exactly when [k <= x < k + 1]. *)
Lemma floor_is (x : Q) (k : nat) :
  0 <= x ->
  (Z.to_nat (Qfloor x) = k <-> inject_Z (Z.of_nat k) <= x /\ x < inject_Z (Z.of_nat k) + 1).
Proof.
  intros Hx.
  pose proof (Qfloor_le x) as Hlo. pose proof (Qlt_floor x) as Hhi.
  rewrite inject_Z_plus in Hhi.
  assert (H0 : (0 <= Qfloor x)%Z).
  { change 0%Z with (Qfloor 0). apply Qfloor_resp_le. exact Hx. }
  split.
  - intros E. subst k. rewrite Z2Nat.id by exact H0. split; [exact Hlo | exact Hhi].
  - intros [H1 H2].
    assert (E : Qfloor x = Z.of_nat k).
    { apply Z.le_antisymm.
      - apply Z.lt_succ_r. rewrite Zlt_Qlt. unfold Z.succ. rewrite inject_Z_plus.
        change (inject_Z 1) with 1. lra.
      - rewrite <- (Qfloor_Z (Z.of_nat k)). now apply Qfloor_resp_le. }
    rewrite E. apply Nat2Z.id.
Qed.

Lemma div_le_iff a u m : 0 < m -> (a / m <= u <-> a <= u * m).
Proof.
  intros Hm. split; intros H.
  - assert (E : a == a / m * m) by (field; lra). rewrite E.
    apply Qmult_le_compat_r; lra.
  - apply Qle_shift_div_r; assumption.
Qed.

Lemma lt_div_iff b u m : 0 < m -> (u < b / m <-> u * m < b).
Proof.
  intros Hm. split; intros H.
  - assert (E : b == b / m * m) by (field; lra). rewrite E.
    apply Qmult_lt_compat_r; assumption.
  - apply Qlt_shift_div_l; assumption.
Qed.

Lemma Qgtb_true x y : Qgtb x y = true <-> y < x.
Proof.
  unfold Qgtb. rewrite negb_true_iff. split.
  - intros H. apply Qnot_le_lt. intros L. apply Qle_bool_iff in L. congruence.
  - intros H. destruct (Qle_bool x y) eqn:E; [|reflexivity].
    apply Qle_bool_iff in E. lra.
Qed.

Lemma Qgtb_false x y : Qgtb x y = false <-> x <= y.
Proof.
  unfold Qgtb. rewrite negb_false_iff. apply Qle_bool_iff.
Qed.

(** ** Powers, counts as numbers *)

Lemma pow_S base age : ~ base == 0 -> pow base (S age) == base * pow base age.
Proof.
  intros H. unfold pow. rewrite Nat2Z.inj_succ, <- Z.add_1_l.
  rewrite Qpower_plus by assumption. rewrite Qpower_1_r. reflexivity.
Qed.





Lemma inject_nat_pos n : (0 < n)%nat -> 0 < inject_Z (Z.of_nat n).
Proof. intros H. change 0 with (inject_Z 0). rewrite <- Zlt_Qlt. lia. Qed.

Lemma inject_nat_nonneg n : 0 <= inject_Z (Z.of_nat n).
Proof. change 0 with (inject_Z 0). rewrite <- Zle_Qle. lia. Qed.

Lemma inject_nat_le a b : (a <= b)%nat -> inject_Z (Z.of_nat a) <= inject_Z (Z.of_nat b).
Proof. intros H. rewrite <- Zle_Qle. lia. Qed.

Lemma inject_nat_S n : inject_Z (Z.of_nat (S n)) == inject_Z (Z.of_nat n) + 1.
Proof. rewrite Nat2Z.inj_succ, <- Z.add_1_r, inject_Z_plus. reflexivity. Qed.

(** ** Folds and sums *)

(** Two folds over the same list keep a relation between their
    accumulators. *)
Lemma fold_left_rel {A B X} (R : A -> B -> Prop) (f : A -> X -> A) (g : B -> X -> B) xs :
  forall a b, R a b ->
  (forall a b x, In x xs -> R a b -> R (f a x) (g b x)) ->
  R (fold_left f xs a) (fold_left g xs b).
Proof.
  induction xs as [|x xs IH]; intros a b H0 Hs; cbn [fold_left]; [assumption|].
  apply IH.
  - apply Hs; [now left | assumption].
  - intros a' b' y Hy. apply Hs. now right.
Qed.

Lemma find_ext_in {X} (f g : X -> bool) xs :
  (forall x, In x xs -> f x = g x) -> find f xs = find g xs.
Proof.
  induction xs as [|x xs IH]; intros H; [reflexivity|].
  cbn [find]. rewrite (H x) by now left.
  destruct (g x); [reflexivity|]. apply IH. intros y Hy. apply H. now right.
Qed.

Lemma find_none_in {X} (f : X -> bool) xs :
  (forall x, In x xs -> f x = false) -> find f xs = None.
Proof.
  induction xs as [|x xs IH]; intros H; [reflexivity|].
  cbn [find]. rewrite (H x) by now left. apply IH. intros y Hy. apply H. now right.
Qed.

(** A loop over the indices of an array sums over its elements. *)
Lemma index_fold_sum (g : Q -> Q) xs : forall pre a,
  fold_left (fun d i => d + g (nth i (pre ++ xs) 0)) (seq (length pre) (length xs)) a
  == a + reduce_sum (map g xs).
Proof.
  induction xs as [|x xs IH]; intros pre a.
  - cbn. unfold reduce_sum. cbn. lra.
  - cbn [length seq fold_left map]. rewrite nth_middle.
    specialize (IH (pre ++ [x]) (a + g x)).
    rewrite <- app_assoc, length_app in IH. cbn [app length] in IH.
    rewrite Nat.add_1_r in IH. rewrite IH, reduce_sum_cons. lra.
Qed.

Lemma reduce_sum_squares_nonneg m xs : 0 <= reduce_sum (map (fun x => (x - m) ^ 2) xs).
Proof.
  induction xs as [|x xs IH]; [cbn; unfold reduce_sum; cbn; lra|].
  cbn [map]. rewrite reduce_sum_cons. pose proof (Qsqr_nonneg (x - m)). lra.
Qed.

(** A sum of squared deviations is zero exactly when no element deviates. *)
Lemma sum_squares_zero m xs :
  reduce_sum (map (fun x => (x - m) ^ 2) xs) == 0 <-> Forall (fun x => x == m) xs.
Proof.
  induction xs as [|x xs IH].
  - split; [constructor | reflexivity].
  - cbn [map]. rewrite reduce_sum_cons.
    pose proof (Qsqr_nonneg (x - m)) as H1.
    pose proof (reduce_sum_squares_nonneg m xs) as H2. split.
    + intros H. constructor.
      * assert (E : (x - m) ^ 2 == 0) by lra.
        change ((x - m) ^ 2) with ((x - m) * (x - m)) in E.
        apply Qmult_integral in E. destruct E; lra.
      * apply IH. lra.
    + intros H. inversion H as [|? ? Hx Hxs]; subst. cbn beta in Hx.
      apply IH in Hxs. rewrite Hxs, Hx.
      change ((m - m) ^ 2) with ((m - m) * (m - m)). ring.
Qed.

Lemma constant_sum v xs :
  Forall (fun x => x == v) xs -> reduce_sum xs == inject_Z (Z.of_nat (length xs)) * v.
Proof.
  induction 1 as [|x xs Hx _ IH].
  - unfold reduce_sum. cbn. ring.
  - cbn beta in Hx. rewrite reduce_sum_cons, IH. cbn [length].
    rewrite inject_nat_S. lra.
Qed.

Lemma square_zero x : x * x == 0 -> x == 0.
Proof. intros H. apply Qmult_integral in H. tauto. Qed.

Lemma square_nonneg x : 0 <= x * x.
Proof. nra. Qed.

Lemma two_members {A} (a b : A) s : In a s -> In b s -> a <> b -> (2 <= length s)%nat.
Proof.
  destruct s as [|x [|y s']]; cbn; intros Ha Hb Hab; try lia; try tauto.
  destruct Ha as [<-|[]], Hb as [<-|[]]. congruence.
Qed.

(** ** Capped arrays *)

Lemma tl_skipn {A} k (xs : list A) : tl (skipn k xs) = skipn (S k) xs.
Proof.
  revert k. induction xs as [|x xs IH]; intros [|k]; try reflexivity.
  cbn [skipn]. apply IH.
Qed.

(** Pushing onto the last [cap] elements of a sequence and dropping the
    oldest one when there are too many gives the last [cap] elements of the
    longer sequence. *)
Lemma push_capped_slice_last {A} cap (all : list A) x :
  push_capped cap (slice_last cap all) x = slice_last cap (all ++ [x]).
Proof.
  unfold push_capped, slice_last. rewrite !length_app, length_skipn. cbn [length].
  destruct (cap <? _)%nat eqn:E.
  - apply Nat.ltb_lt in E.
    assert (Hc : (cap <= length all)%nat) by lia.
    replace (length all + 1 - cap)%nat with (S (length all - cap)) by lia.
    rewrite <- tl_skipn. rewrite skipn_app.
    replace (length all - cap - length all)%nat with 0%nat by lia. reflexivity.
  - apply Nat.ltb_ge in E.
    assert (Hc : (length all < cap)%nat) by lia.
    replace (length all - cap)%nat with 0%nat by lia.
    replace (length all + 1 - cap)%nat with 0%nat by lia. reflexivity.
Qed.

Lemma slice_last_short {A} k (xs : list A) : (length xs <= k)%nat -> slice_last k xs = xs.
Proof. intros H. unfold slice_last. now replace (length xs - k)%nat with 0%nat by lia. Qed.

Lemma length_push_capped {A} cap (xs : list A) x :
  (length xs <= cap)%nat -> length (push_capped cap xs x) = Nat.min (length xs + 1) cap.
Proof.
  intros H. unfold push_capped. rewrite length_app. cbn [length].
  destruct (cap <? _)%nat eqn:E.
  - apply Nat.ltb_lt in E. destruct xs as [|y ys]; cbn [app tl length] in *; [lia|].
    rewrite length_app. cbn [length]. lia.
  - apply Nat.ltb_ge in E. rewrite length_app. cbn [length]. lia.
Qed.

Lemma filter_push_capped cap (xs : list bool) x :
  (length (filter (fun ok => ok) (push_capped cap xs x))
   <= length (filter (fun ok => ok) xs) + (if x then 1 else 0))%nat.
Proof.
  unfold push_capped. destruct (cap <? _)%nat.
  - destruct xs as [|y ys]; cbn [app tl filter length].
    + destruct x; cbn; lia.
    + rewrite filter_app, length_app. cbn [filter].
      destruct y, x; cbn [length]; lia.
  - rewrite filter_app, length_app. destruct x; cbn [filter length]; lia.
Qed.

(** ** Whole-word matches *)

Lemma list_ascii_eqb_eq a b : list_ascii_eqb a b = true <-> a = b.
Proof.
  unfold list_ascii_eqb. rewrite String.eqb_eq. split; [|now intros ->].
  intros H. apply (f_equal list_ascii_of_string) in H.
  now rewrite !list_ascii_of_string_of_list_ascii in H.
Qed.

(** The words of a text: the run it starts with, if any, then the words
    of what follows that run. *)
Lemma words_go_run s : forall cur,
  words_go s cur =
  match rev cur ++ word_prefix s with
  | [] => words_go (skip_word s) []
  | _ :: _ => (rev cur ++ word_prefix s) :: words_go (skip_word s) []
  end.
Proof.
  induction s as [|c s IH]; intros cur.
  - cbn [words_go word_prefix skip_word]. rewrite app_nil_r.
    destruct cur as [|x cur]; [reflexivity|].
    cbn [rev]. destruct (rev cur ++ [x]) eqn:E; [|reflexivity].
    destruct (rev cur); discriminate.
  - cbn [words_go word_prefix skip_word]. destruct (is_word c) eqn:Ec.
    + rewrite IH. cbn [rev]. rewrite <- app_assoc. reflexivity.
    + rewrite app_nil_r. cbn [words_go]. rewrite Ec.
      destruct cur as [|x cur]; [reflexivity|].
      cbn [rev]. destruct (rev cur ++ [x]) eqn:E; [|reflexivity].
      destruct (rev cur); discriminate.
Qed.

Lemma skip_word_head s : word_side (hd_error (skip_word s)) = false.
Proof.
  induction s as [|c s IH]; [reflexivity|].
  cbn [skip_word]. destruct (is_word c) eqn:E; [exact IH | cbn; exact E].
Qed.

Lemma word_prefix_skip s : s = word_prefix s ++ skip_word s.
Proof.
  induction s as [|c s IH]; [reflexivity|].
  cbn [word_prefix skip_word]. destruct (is_word c); [cbn; now f_equal | reflexivity].
Qed.

Lemma after_literal_app w : forall s rest,
  after_literal w s = Some rest <-> s = w ++ rest.
Proof.
  induction w as [|a w IH]; intros s rest.
  - cbn. split; congruence.
  - destruct s as [|c s]; cbn [after_literal app]; [split; discriminate|].
    destruct (Ascii.eqb a c) eqn:E.
    + apply Ascii.eqb_eq in E. subst c. rewrite IH. split; congruence.
    + apply Ascii.eqb_neq in E. split; [discriminate | congruence].
Qed.

(** A run of word characters followed by a character that is not one, or
    by the end, is the longest prefix of word characters. *)
Lemma word_prefix_unique w : forall s rest,
  Forall (fun c => is_word c = true) w -> s = w ++ rest ->
  word_side (hd_error rest) = false -> w = word_prefix s /\ rest = skip_word s.
Proof.
  induction w as [|a w IH]; intros s rest Hw -> Hr.
  - cbn [app]. destruct rest as [|c rest]; [now split|].
    cbn in Hr. cbn [word_prefix skip_word]. rewrite Hr. now split.
  - inversion Hw as [|? ? Ha Hw']; subst. cbn [app word_prefix skip_word]. rewrite Ha.
    destruct (IH (w ++ rest) rest Hw' eq_refl Hr) as [E1 E2].
    split; [now f_equal | exact E2].
Qed.

Lemma last_is_word w :
  w <> [] -> Forall (fun c => is_word c = true) w -> word_side (hd_error (rev w)) = true.
Proof.
  intros Hne Hw. destruct (rev w) as [|x r] eqn:E.
  - exfalso. apply Hne. rewrite <- (rev_involutive w), E. reflexivity.
  - cbn. rewrite Forall_forall in Hw. apply Hw. apply in_rev. rewrite E. now left.
Qed.

Section Search.
Context {A : Type}.
Variable alts : list (list ascii * A).
Hypothesis alts_words :
  forall a, In a alts -> fst a <> [] /\ Forall (fun c => is_word c = true) (fst a).

(** At the start of a word, an alternative matches exactly when it is the
    whole word. *)
Lemma whole_word_at_start a prev s :
  In a alts -> word_side prev = false ->
  whole_word_here (fst a) prev s = list_ascii_eqb (fst a) (word_prefix s).
Proof.
  intros Ha Hp. destruct (alts_words a Ha) as [Hne Hw].
  unfold whole_word_here.
  destruct (list_ascii_eqb (fst a) (word_prefix s)) eqn:E.
  - apply list_ascii_eqb_eq in E.
    assert (Hs : after_literal (fst a) s = Some (skip_word s)).
    { apply after_literal_app. rewrite E. apply word_prefix_skip. }
    rewrite Hs. unfold boundary. rewrite Hp, skip_word_head, (last_is_word _ Hne Hw).
    destruct s as [|c s]; [rewrite E in Hne; now elim Hne|].
    cbn [hd_error word_side]. cbn [word_prefix] in E.
    destruct (is_word c); [reflexivity | rewrite E in Hne; now elim Hne].
  - destruct (after_literal (fst a) s) as [rest|] eqn:Hs; [|reflexivity].
    apply after_literal_app in Hs. unfold boundary.
    rewrite (last_is_word _ Hne Hw).
    destruct (word_side (hd_error rest)) eqn:Hr; [now rewrite andb_false_r|].
    destruct (word_prefix_unique (fst a) s rest Hw Hs Hr) as [E1 _].
    apply list_ascii_eqb_eq in E1. congruence.
Qed.

(** Inside a word, or before a character that is not a word character, no
    alternative matches. *)
Lemma no_match_inside a prev s :
  In a alts -> (word_side prev = true \/ word_side (hd_error s) = false) ->
  whole_word_here (fst a) prev s = false.
Proof.
  intros Ha Hc. destruct (alts_words a Ha) as [Hne Hw].
  unfold whole_word_here.
  destruct (after_literal (fst a) s) as [rest|] eqn:Hs; [|reflexivity].
  apply after_literal_app in Hs.
  assert (Hh : word_side (hd_error s) = true).
  { destruct (fst a) as [|x w]; [now elim Hne|]. subst s. cbn.
    now inversion Hw. }
  unfold boundary. destruct Hc as [Hp|Hn]; [|congruence].
  rewrite Hp, Hh. reflexivity.
Qed.

Lemma search_words s : forall prev,
  search alts prev s =
  first_listed alts (words (if word_side prev then skip_word s else s)).
Proof.
  induction s as [|c s IH]; intros prev.
  - cbn [search]. rewrite find_none_in.
    + destruct (word_side prev); reflexivity.
    + intros a Ha. apply no_match_inside; [exact Ha | now right].
  - cbn [search]. destruct (word_side prev) eqn:Hp.
    + rewrite find_none_in by (intros a Ha; apply no_match_inside; [exact Ha | now left]).
      rewrite IH. cbn [word_side skip_word].
      destruct (is_word c) eqn:Ec; [reflexivity|].
      unfold words. cbn [words_go]. now rewrite Ec.
    + destruct (is_word c) eqn:Ec.
      * rewrite (find_ext_in _ (fun a => list_ascii_eqb (fst a) (word_prefix (c :: s))))
          by (intros a Ha; now apply whole_word_at_start).
        unfold words. rewrite (words_go_run (c :: s) []). cbn [rev app].
        cbn [word_prefix skip_word]. rewrite Ec. cbn [first_listed].
        destruct (find _ alts) as [a|]; [reflexivity|].
        rewrite IH. cbn [word_side]. rewrite Ec. reflexivity.
      * rewrite find_none_in.
        2:{ intros a Ha. apply no_match_inside; [exact Ha | right; cbn; exact Ec]. }
        rewrite IH. cbn [word_side]. rewrite Ec.
        unfold words. cbn [words_go]. now rewrite Ec.
Qed.

(** The search returns what the first word that is one of the
    alternatives stands for. *)
Lemma search_first_listed s : search alts None s = first_listed alts (words s).
Proof. apply (search_words s None). Qed.

End Search.

Lemma first_listed_single w ws :
  first_listed [(w, tt)] ws = if existsb (list_ascii_eqb w) ws then Some tt else None.
Proof.
  induction ws as [|x ws IH]; [reflexivity|].
  cbn [first_listed find fst snd existsb].
  destruct (list_ascii_eqb w x); [reflexivity | exact IH].
Qed.




(** ** sportypredictor.cjs *)
Module SportyFacts.
Import Sporty.

Lemma Outcome_eqb_eq a b : Outcome_eqb a b = true <-> a = b.
Proof. destruct a, b; simpl; split; congruence. Qed.

Lemma Outcome_eqb_refl a : Outcome_eqb a a = true.
Proof. now destruct a. Qed.

Lemma includes_token t o : includes t = Some o -> t = token o.
Proof.
  unfold includes. intros H. apply find_some in H. destruct H as [_ H].
  now apply String.eqb_eq in H.
Qed.

Lemma includes_of_token o : includes (token o) = Some o.
Proof. now destruct o. Qed.

Lemma is_member_token t : is_member t = true -> exists o, t = token o.
Proof.
  unfold is_member. destruct (includes t) eqn:E; [|discriminate].
  intros _. exists o. now apply includes_token.
Qed.

(** *** Input boundary *)

Lemma parseRoundInput_accepts raw tokens :
  parseRoundInput raw = inr tokens ->
  tokens = tokensOf raw /\ length tokens = GAMES_PER_ROUND /\
  Forall (fun t => exists o, t = token o) tokens.
Proof.
  unfold parseRoundInput.
  destruct (length (tokensOf raw) =? GAMES_PER_ROUND)%nat eqn:El; simpl; [|discriminate].
  destruct (forallb is_member (tokensOf raw)) eqn:Ea; simpl; [|discriminate].
  intros H. inversion H; subst tokens. split; [reflexivity|]. split.
  - now apply Nat.eqb_eq.
  - rewrite forallb_forall in Ea. apply Forall_forall. intros t Ht.
    apply is_member_token. now apply Ea.
Qed.

Example parse_mixed_case :
  parseRoundInput " r,b, G  r b " = inr ["R"; "B"; "G"; "R"; "B"]%string.
Proof. reflexivity. Qed.

Example parse_out_of_alphabet :
  parseRoundInput "r b g x r" = inl "Outcomes must be one of R,B,G"%string.
Proof. reflexivity. Qed.

Example parse_too_few :
  parseRoundInput "R,B" = inl "Need exactly 5 outcomes (R/B/G)."%string.
Proof. reflexivity. Qed.

(** *** Counts never fall below the prior *)

Lemma above_prior : above prior.
Proof. intros o. unfold prior, fromEntries. lra. Qed.

Lemma above_add_to d k w : 0 <= w -> above d -> above (add_to d k w).
Proof.
  intros Hw Hd o. unfold add_to, set.
  destruct (Outcome_eqb o k); [specialize (Hd k); lra | apply Hd].
Qed.

Lemma above_upd_at (arr : nat -> Dist) s v :
  (forall t, above (arr t)) -> above v -> forall t, above (upd_at arr s v t).
Proof. intros Ha Hv t. unfold upd_at. destruct (t =? s)%nat; [exact Hv | apply Ha]. Qed.

Lemma nth_recencyWeights_nonneg n i : 0 <= nth i (recencyWeights n) 0.
Proof.
  destruct (nth_in_or_default i (recencyWeights n) 0) as [Hin|Hd]; [|rewrite Hd; lra].
  unfold recencyWeights in Hin at 2. apply in_map_iff in Hin.
  destruct Hin as (j & Hj & _). rewrite <- Hj.
  apply Qlt_le_weak, pow_pos. unfold DECAY. lra.
Qed.

Lemma bump_slot_global_ok round wi acc s :
  0 <= wi ->
  (forall t, above (fst acc t)) /\ above (snd acc) ->
  (forall t, above (fst (bump_slot_global round wi acc s) t)) /\
  above (snd (bump_slot_global round wi acc s)).
Proof.
  intros Hw [H1 H2]. unfold bump_slot_global.
  destruct (cell round s); simpl; [|now split].
  split.
  - apply above_upd_at; [assumption|]. now apply above_add_to.
  - now apply above_add_to.
Qed.

Lemma bump_markov_ok prev round wi mc s :
  0 <= wi ->
  (forall t a, above (mc t a)) ->
  forall t a, above (bump_markov prev round wi mc s t a).
Proof.
  intros Hw H t a. unfold bump_markov.
  destruct (cell prev s); [|apply H]. destruct (cell round s); [|apply H].
  unfold upd_at. destruct (t =? s)%nat; [|apply H].
  destruct (Outcome_eqb a o); [|apply H].
  now apply above_add_to.
Qed.

Lemma bump_pattern_ok round wi arr s :
  0 <= wi ->
  (forall t, above (arr t)) ->
  forall t, above (bump_pattern round wi arr s t).
Proof.
  intros Hw H. unfold bump_pattern. destruct (cell round s); [|exact H].
  apply above_upd_at; [exact H|]. now apply above_add_to.
Qed.

Lemma step_ok history w st i :
  0 <= nth i w 0 -> counts_ok st -> counts_ok (step history w st i).
Proof.
  intros Hw (Hs & Hg & Hm & Hp). unfold step.
  set (round := games_at history i). set (wi := nth i w 0) in *.
  assert (Hsg : (forall t, above (fst (fold_left (bump_slot_global round wi) slots
                                           (slotCounts st, globalCounts st)) t)) /\
                above (snd (fold_left (bump_slot_global round wi) slots
                                      (slotCounts st, globalCounts st)))).
  { apply (fold_left_inv (fun acc => (forall t, above (fst acc t)) /\ above (snd acc))).
    - now split.
    - intros a x _ Ha. now apply bump_slot_global_ok. }
  destruct Hsg as [Hs' Hg'].
  destruct (0 <? i)%nat; (split; [exact Hs' | split; [exact Hg' | split]]);
    cbn [slotCounts globalCounts markovCounts patternCounts]; try assumption.
  - apply (fold_left_inv (fun mc => forall t a, above (mc t a))); [exact Hm|].
    intros a x _ Ha. now apply bump_markov_ok.
  - intros key arr Hk.
    destruct (String.eqb key (join "," (games_at history (i - 1)))).
    + apply some_eq in Hk. subst arr.
      apply (fold_left_inv (fun arr => forall t, above (arr t))).
      * destruct (patternCounts st (join "," (games_at history (i - 1)))) eqn:E.
        -- now apply (Hp _ _ E).
        -- intros t. apply above_prior.
      * intros a x _ Ha. now apply bump_pattern_ok.
    + now apply (Hp _ _ Hk).
Qed.

Lemma buildCounts_ok history : counts_ok (buildCounts history).
Proof.
  assert (H0 : counts_ok initCounts).
  { split; [|split; [|split]]; simpl; try (intros; apply above_prior). discriminate. }
  unfold buildCounts. destruct (0 <? length history)%nat; [|exact H0].
  apply (fold_left_inv counts_ok); [exact H0|].
  intros a x _ Ha. apply step_ok; [apply nth_recencyWeights_nonneg | exact Ha].
Qed.

(** *** Posteriors *)

Lemma dsum3 (d : Dist) : dsum d == d R + d B + d G.
Proof. unfold dsum, table_sum, table_values, reduce_sum. simpl. lra. Qed.

Lemma above_dsum_pos d : above d -> 0 < dsum d.
Proof.
  intros H. rewrite dsum3. pose proof (H R). pose proof (H B). pose proof (H G).
  unfold ALPHA in *. lra.
Qed.

Lemma normalize_sum_one d : 0 < dsum d -> dsum (normalize d) == 1.
Proof. intros H. apply table_normalize_sum. fold (dsum d). lra. Qed.

Lemma normalize_value d o : 0 < dsum d -> normalize d o == d o / dsum d.
Proof.
  intros H. unfold normalize, table_normalize. fold (dsum d).
  rewrite truthy_or_nonzero by lra. reflexivity.
Qed.

Lemma normalize_above_pos d o : above d -> 0 < normalize d o.
Proof.
  intros H. pose proof (above_dsum_pos d H) as Hs.
  rewrite normalize_value by assumption.
  apply Qlt_shift_div_l; [assumption|]. specialize (H o). unfold ALPHA in H. lra.
Qed.

(** A table whose buckets all hold the prior or more normalizes to a
    strictly positive distribution. *)
Lemma normalize_above d :
  above d -> dsum (normalize d) == 1 /\ forall o, 0 < normalize d o.
Proof.
  intros H. split.
  - apply normalize_sum_one, above_dsum_pos, H.
  - intros o. now apply normalize_above_pos.
Qed.

Lemma slotPosteriors_ok history s :
  dsum (slotPosteriors (buildModels history) s) == 1 /\
  forall o, 0 < slotPosteriors (buildModels history) s o.
Proof. apply normalize_above. apply (buildCounts_ok history). Qed.

Lemma globalPosterior_ok history :
  dsum (globalPosterior (buildModels history)) == 1 /\
  forall o, 0 < globalPosterior (buildModels history) o.
Proof. apply normalize_above. apply (buildCounts_ok history). Qed.

Lemma markovProbs_ok history s prev :
  dsum (markovProbs (buildModels history) s prev) == 1 /\
  forall o, 0 < markovProbs (buildModels history) s prev o.
Proof. apply normalize_above. apply (buildCounts_ok history). Qed.

Lemma patternProbs_ok history key arr s :
  patternProbs (buildModels history) key = Some arr ->
  dsum (arr s) == 1 /\ forall o, 0 < arr s o.
Proof.
  unfold buildModels; cbn [patternProbs].
  destruct (patternCounts (buildCounts history) key) as [arr0|] eqn:E; [|discriminate].
  intros H. apply some_eq in H. subst arr.
  apply normalize_above.
  destruct (buildCounts_ok history) as (_ & _ & _ & Hp). now apply (Hp key).
Qed.

(** *** Streak adjustment *)

Lemma half_bonus : STREAK_BONUS / 2 == 0.03.
Proof. reflexivity. Qed.

Lemma Qmin_pos x y : 0 < x -> 0 < y -> 0 < Qmin x y.
Proof. intros. apply Q.min_glb_lt; assumption. Qed.

(** The adjusted table in closed form: the streak outcome keeps its value,
    every other outcome receives half the bonus (capped at 1), and all are
    divided by the new total. *)
Lemma transferFrom_eq probs v :
  let m o := Qmin 1 (probs o + STREAK_BONUS / 2) in
  let adj o := if Outcome_eqb o v then probs o else m o in
  forall k, transferFrom probs v k == adj k / (adj R + adj B + adj G).
Proof.
  intros m adj k. subst adj m.
  destruct v, k;
    cbv [transferFrom OUTCOMES filter Outcome_eqb negb length Nat.eqb fold_left set
         dsum table_sum table_values reduce_sum map Z.of_nat Pos.of_succ_nat
         Pos.succ inject_Z];
    (apply Qdiv_comp; [reflexivity | lra]).
Qed.

Lemma adjusted_pos probs v :
  (forall o, 0 < probs o) ->
  forall o, 0 < (if Outcome_eqb o v then probs o else Qmin 1 (probs o + STREAK_BONUS / 2)).
Proof.
  intros H o. destruct (Outcome_eqb o v); [apply H|].
  apply Qmin_pos; [lra|]. specialize (H o). rewrite half_bonus. lra.
Qed.

Lemma transferFrom_pos probs v :
  (forall o, 0 < probs o) -> forall k, 0 < transferFrom probs v k.
Proof.
  intros H k. rewrite transferFrom_eq.
  pose proof (adjusted_pos probs v H) as Ha.
  apply Qlt_shift_div_l.
  - pose proof (Ha R). pose proof (Ha B). pose proof (Ha G). lra.
  - pose proof (Ha k). lra.
Qed.

Lemma transferFrom_sum probs v :
  (forall o, 0 < probs o) -> dsum (transferFrom probs v) == 1.
Proof.
  intros H. rewrite dsum3, !transferFrom_eq.
  pose proof (adjusted_pos probs v H) as Ha.
  pose proof (Ha R). pose proof (Ha B). pose proof (Ha G).
  field. lra.
Qed.

Lemma applyStreakAdjustment_cases probs history s :
  applyStreakAdjustment probs history s = probs \/
  exists v, applyStreakAdjustment probs history s = transferFrom probs v.
Proof.
  unfold applyStreakAdjustment.
  destruct (length history <? STREAK_WINDOW)%nat; [now left|].
  destruct (streak_of _) as [v|]; [right; now exists v | now left].
Qed.

Lemma applyStreakAdjustment_pos probs history s :
  (forall o, 0 < probs o) -> forall o, 0 < applyStreakAdjustment probs history s o.
Proof.
  intros H o. destruct (applyStreakAdjustment_cases probs history s) as [E|[v E]];
    rewrite E; [apply H | now apply transferFrom_pos].
Qed.

Lemma opt_string_eqb_refl a : opt_string_eqb a a = true.
Proof. destruct a; simpl; [apply String.eqb_refl | reflexivity]. Qed.

Lemma streak_of_all vals v :
  vals <> [] -> Forall (fun x => x = Some (token v)) vals -> streak_of vals = Some v.
Proof.
  intros Hne Hall. destruct vals as [|v0 rest]; [contradiction|].
  unfold streak_of.
  assert (E : v0 = Some (token v)) by now inversion Hall.
  replace (forallb (fun x => opt_string_eqb x v0) (v0 :: rest)) with true.
  - rewrite E. apply includes_of_token.
  - symmetry. apply forallb_forall. intros x Hx.
    rewrite Forall_forall in Hall. rewrite (Hall x Hx), E. apply opt_string_eqb_refl.
Qed.

Lemma streakOn_applies probs history s v :
  streakOn history s v -> applyStreakAdjustment probs history s = transferFrom probs v.
Proof.
  intros [Hlen Hall]. unfold applyStreakAdjustment.
  replace (length history <? STREAK_WINDOW)%nat with false
    by (symmetry; apply Nat.ltb_ge; exact Hlen).
  rewrite (streak_of_all _ v); [reflexivity | |].
  - intros E. apply (f_equal (@length _)) in E.
    rewrite length_map, length_slice_last in E by exact Hlen. discriminate.
  - apply Forall_map. exact Hall.
Qed.

Lemma capped_bounds p : 0 <= p -> p <= 1 ->
  p <= Qmin 1 (p + STREAK_BONUS / 2) /\ Qmin 1 (p + STREAK_BONUS / 2) <= p + 0.03.
Proof.
  intros H0 H1. rewrite half_bonus. split.
  - apply Q.min_glb; lra.
  - apply Q.le_min_r.
Qed.

(** Dividing a value in [0,1] by a total in [1, 1 + bonus] lowers it by at most the bonus. *)
Lemma rescale_bound p S bonus :
  0 <= p -> p <= 1 -> 1 <= S -> S <= 1 + bonus ->
  p / S <= p /\ p - p / S <= bonus.
Proof.
  intros Hp0 Hp1 HS1 HS2.
  assert (Hq : p / S * S == p) by (field; lra).
  assert (Hq0 : 0 <= p / S) by (apply Qle_shift_div_l; lra).
  assert (H1 : 0 <= p / S * (S - 1)) by (apply Qmult_le_0_compat; lra).
  assert (Hle : p / S <= p) by lra.
  split; [exact Hle|].
  assert (H2 : 0 <= (1 - p / S) * (S - 1)) by (apply Qmult_le_0_compat; lra).
  lra.
Qed.

Lemma transferFrom_bound probs v :
  is_dist probs ->
  transferFrom probs v v <= probs v /\ probs v - transferFrom probs v v <= STREAK_BONUS.
Proof.
  intros [Hnn Hsum]. rewrite dsum3 in Hsum.
  pose proof (Hnn R). pose proof (Hnn B). pose proof (Hnn G).
  assert (Hc : forall o, probs o <= Qmin 1 (probs o + STREAK_BONUS / 2) /\
                         Qmin 1 (probs o + STREAK_BONUS / 2) <= probs o + 0.03).
  { intros o. apply capped_bounds; [apply Hnn|]. destruct o; lra. }
  pose proof (Hc R) as [? ?]. pose proof (Hc B) as [? ?]. pose proof (Hc G) as [? ?].
  rewrite transferFrom_eq. rewrite Outcome_eqb_refl.
  destruct v; cbv [Outcome_eqb]; apply rescale_bound; unfold STREAK_BONUS in *; lra.
Qed.

Lemma blend_pos a b c x y z :
  0 <= a -> 0 <= b -> 0 <= c -> 0 < a + b + c -> 0 < x -> 0 < y -> 0 < z ->
  0 < a * x + b * y + c * z.
Proof.
  intros Ha Hb Hc Hs Hx Hy Hz.
  assert (0 <= a * x) by (apply Qmult_le_0_compat; lra).
  assert (0 <= b * y) by (apply Qmult_le_0_compat; lra).
  assert (0 <= c * z) by (apply Qmult_le_0_compat; lra).
  destruct (Qlt_le_dec 0 a) as [P1|P1].
  { assert (0 < a * x) by (apply Qmult_lt_0_compat; lra). lra. }
  destruct (Qlt_le_dec 0 b) as [P2|P2].
  { assert (0 < b * y) by (apply Qmult_lt_0_compat; lra). lra. }
  assert (0 < c * z) by (apply Qmult_lt_0_compat; lra). lra.
Qed.

Lemma truthy_or_0_pos x : 0 < x -> 0 < truthy_or x 0.
Proof. intros H. rewrite truthy_or_nonzero; lra. Qed.

Lemma uniform_value o : uniform o == 1 / 3.
Proof. reflexivity. Qed.

Lemma normalizedWeights_usable W weights :
  usable (chosenWeights W weights) ->
  0 <= slot (normalizedWeights W weights) /\
  0 <= markov (normalizedWeights W weights) /\
  0 <= pattern (normalizedWeights W weights) /\
  0 < slot (normalizedWeights W weights) + markov (normalizedWeights W weights)
      + pattern (normalizedWeights W weights).
Proof.
  intros (H1 & H2 & H3 & H4 & H5). unfold normalizedWeights.
  set (w := chosenWeights W weights) in *.
  rewrite truthy_or_nonzero by lra. cbn [slot markov pattern streak].
  set (t := slot w + markov w + pattern w + streak w).
  assert (Ht : 0 < t) by (unfold t; lra).
  repeat split; try (apply Qle_shift_div_l; lra).
  assert (E : slot w / t + markov w / t + pattern w / t == (slot w + markov w + pattern w) / t)
    by (field; lra).
  rewrite E. apply Qlt_shift_div_l; lra.
Qed.

Lemma combinedSlot_pos W history weights s o :
  usable (chosenWeights W weights) ->
  0 < combinedSlot W history (buildModels history) weights s o.
Proof.
  intros Hu. destruct (normalizedWeights_usable W weights Hu) as (H1 & H2 & H3 & H4).
  unfold combinedSlot.
  destruct (slotPosteriors_ok history s) as [_ Hs].
  destruct (globalPosterior_ok history) as [_ Hg].
  assert (Hswg : 0 < (1 - MIX_GLOBAL) * slotPosteriors (buildModels history) s o
                     + MIX_GLOBAL * globalPosterior (buildModels history) o).
  { specialize (Hs o). specialize (Hg o). unfold MIX_GLOBAL. lra. }
  apply blend_pos; try assumption.
  - now apply truthy_or_0_pos.
  - apply truthy_or_0_pos. destruct (last_entry history) as [e|].
    + destruct (cell (games e) s) as [prev|].
      * apply markovProbs_ok.
      * reflexivity.
    + reflexivity.
  - destruct (last_entry history) as [e|]; [|now apply truthy_or_0_pos].
    destruct (String.eqb _ _); [now apply truthy_or_0_pos|].
    destruct (patternProbs (buildModels history) _) as [arr|] eqn:E;
      [|now apply truthy_or_0_pos].
    apply truthy_or_0_pos. now apply (patternProbs_ok _ _ _ s E).
Qed.

(** The blend handed to the streak adjustment sums to the share of the
    three blended sources, not to 1. *)
Lemma combinedSlot_sum W history weights s :
  dsum (combinedSlot W history (buildModels history) weights s) ==
  slot (normalizedWeights W weights) + markov (normalizedWeights W weights)
  + pattern (normalizedWeights W weights).
Proof.
  set (ns := normalizedWeights W weights).
  destruct (slotPosteriors_ok history s) as [Hs _].
  destruct (globalPosterior_ok history) as [Hg _].
  rewrite dsum3 in Hs, Hg.
  assert (Hm : forall e, dsum (match cell (games e) s with
                               | Some prev => markovProbs (buildModels history) s prev
                               | None => uniform
                               end) == 1).
  { intros e. destruct (cell (games e) s); [apply markovProbs_ok | reflexivity]. }
  rewrite dsum3. unfold combinedSlot. fold ns.
  rewrite !truthy_or_0.
  destruct (last_entry history) as [e|].
  - specialize (Hm e). rewrite dsum3 in Hm.
    destruct (String.eqb (join "," (games e)) "").
    + rewrite !truthy_or_0. nra.
    + destruct (patternProbs (buildModels history) (join "," (games e))) as [arr|] eqn:E.
      * destruct (patternProbs_ok history _ arr s E) as [Hp _]. rewrite dsum3 in Hp.
        rewrite !truthy_or_0. nra.
      * rewrite !truthy_or_0. nra.
  - assert (Hu : uniform R + uniform B + uniform G == 1) by reflexivity.
    rewrite !truthy_or_0. nra.
Qed.

Lemma blendedSlot_sum W history weights s :
  usable (chosenWeights W weights) ->
  dsum (blendedSlot W history (buildModels history) weights s) == 1.
Proof.
  intros Hu. unfold blendedSlot. apply normalize_sum_one.
  rewrite dsum3.
  pose proof (applyStreakAdjustment_pos _ history s
                (fun o => combinedSlot_pos W history weights s o Hu)) as Hp.
  pose proof (Hp R). pose proof (Hp B). pose proof (Hp G). lra.
Qed.

(** *** Empty History *)

Lemma empty_posteriors s o :
  slotPosteriors (buildModels []) s o == 1 / 3 /\ globalPosterior (buildModels []) o == 1 / 3.
Proof. split; reflexivity. Qed.

Lemma empty_blended_default s o :
  blendedSlot defaultWeights [] (buildModels []) None s o == 1 / 3.
Proof. destruct o; reflexivity. Qed.

Lemma normalize_flat d o :
  d R == d B -> d B == d G -> 0 < d R -> normalize d o == 1 / 3.
Proof.
  intros H1 H2 H3. rewrite normalize_value by (rewrite dsum3; lra).
  rewrite dsum3. destruct o; field_simplify_eq; lra.
Qed.

Lemma empty_blended W weights s o :
  usable (chosenWeights W weights) ->
  blendedSlot W [] (buildModels []) weights s o == 1 / 3.
Proof.
  intros Hu. unfold blendedSlot.
  change (applyStreakAdjustment (combinedSlot W [] (buildModels []) weights s) [] s)
    with (combinedSlot W [] (buildModels []) weights s).
  apply normalize_flat; try reflexivity.
  now apply combinedSlot_pos.
Qed.

(** *** Markov rows without observations *)

Lemma bump_markov_other prev round wi mc s' s a :
  (forall cur, cell prev s' = Some a -> cell round s' = Some cur -> s' <> s) ->
  forall o, bump_markov prev round wi mc s' s a o = mc s a o.
Proof.
  intros H o. unfold bump_markov.
  destruct (cell prev s') as [p|] eqn:Ep; [|reflexivity].
  destruct (cell round s') as [cur|] eqn:Ec; [|reflexivity].
  unfold upd_at. destruct (s =? s')%nat eqn:Es; [|reflexivity].
  apply Nat.eqb_eq in Es. subst s'.
  destruct (Outcome_eqb a p) eqn:Ea; [|reflexivity].
  apply Outcome_eqb_eq in Ea. subst p.
  exfalso. now apply (H cur).
Qed.

Lemma not_followed history s prev i :
  followed history s prev = false ->
  (0 < i < length history)%nat ->
  forall cur, cell (games_at history (i - 1)) s = Some prev ->
              cell (games_at history i) s = Some cur -> False.
Proof.
  unfold followed. intros H Hi cur Hp Hc.
  assert (Hin : In i (seq 1 (length history - 1))) by (apply in_seq; lia).
  assert (Hex : existsb (fun i =>
             match cell (games_at history (i - 1)) s, cell (games_at history i) s with
             | Some p, Some _ => Outcome_eqb p prev
             | _, _ => false
             end) (seq 1 (length history - 1)) = true).
  { apply existsb_exists. exists i. split; [exact Hin|].
    rewrite Hp, Hc. apply Outcome_eqb_refl. }
  congruence.
Qed.

Lemma step_keeps_row history w st i s prev :
  followed history s prev = false ->
  (i < length history)%nat ->
  forall o, markovCounts (step history w st i) s prev o = markovCounts st s prev o.
Proof.
  intros Hf Hi o. unfold step.
  destruct (0 <? i)%nat eqn:E0; cbn [markovCounts]; [|reflexivity].
  apply Nat.ltb_lt in E0.
  apply (fold_left_inv (fun mc => mc s prev o = markovCounts st s prev o)); [reflexivity|].
  intros mc s' _ Hmc. rewrite bump_markov_other; [exact Hmc|].
  intros cur Hp Hc Es. subst s'.
  apply (not_followed history s prev i Hf (conj E0 Hi) cur Hp Hc).
Qed.

Lemma unobserved_row_counts history s prev :
  followed history s prev = false ->
  forall o, markovCounts (buildCounts history) s prev o = ALPHA.
Proof.
  intros Hf o. unfold buildCounts.
  destruct (0 <? length history)%nat; [|reflexivity].
  apply (fold_left_inv (fun st => markovCounts st s prev o = ALPHA)); [reflexivity|].
  intros st i Hin Hst. rewrite step_keeps_row; [exact Hst | exact Hf |].
  apply in_seq in Hin. lia.
Qed.

Lemma unobserved_row_uniform history s prev o :
  followed history s prev = false ->
  markovProbs (buildModels history) s prev o == uniform o.
Proof.
  intros Hf. unfold buildModels; cbn [markovProbs].
  pose proof (unobserved_row_counts history s prev Hf) as Hc.
  unfold normalize, table_normalize, table_sum, table_values, reduce_sum.
  cbn [map OUTCOMES fold_left]. rewrite !Hc. reflexivity.
Qed.

(** *** Walk-forward evaluation *)

(** What the loop holds after its first [k] iterations: the prefix is
    [history[0..k)] and the picks are those computed from the prefixes
    [history[0..1)], ..., [history[0..k)] alone. *)
Lemma walkLoop_state W history w k :
  (k <= length history)%nat ->
  prefix (walkLoop W history w k) = firstn k history /\
  made (walkLoop W history w k) =
    rev (map (fun i => picks (predictEnsemble W (firstn (S i) history)
                                (buildModels (firstn (S i) history)) w))
             (seq 0 k)).
Proof.
  unfold walkLoop. induction k as [|k IH]; intros Hk.
  - split; reflexivity.
  - destruct IH as [IHp IHm]; [lia|].
    rewrite seq_S, fold_left_app. cbn [fold_left Nat.add].
    destruct (nth_error history k) as [e|] eqn:E.
    2:{ apply nth_error_None in E. lia. }
    unfold walkStep at 1 3. rewrite E. cbn [prefix made].
    rewrite IHp, IHm, <- (firstn_snoc _ _ _ E).
    split; [reflexivity|].
    rewrite map_app, rev_app_distr. reflexivity.
Qed.

Lemma predictionFor_prefix W history w r :
  (1 <= r < length history)%nat ->
  predictionFor W history w r =
  Some (picks (predictEnsemble W (firstn r history) (buildModels (firstn r history)) w)).
Proof.
  intros Hr. unfold predictionFor.
  replace (r =? 0)%nat with false by (symmetry; apply Nat.eqb_neq; lia).
  replace (length history <? 2)%nat with false by (symmetry; apply Nat.ltb_ge; lia).
  cbn [orb].
  destruct (walkLoop_state W history w (length history - 1)) as [_ Hm]; [lia|].
  rewrite Hm, rev_involutive.
  rewrite nth_error_map, nth_error_nth' with (d := 0%nat) by (rewrite length_seq; lia).
  rewrite seq_nth by lia. cbn [option_map Nat.add].
  replace (S (r - 1)) with r by lia. reflexivity.
Qed.

Lemma adjusted_nonneg probs v :
  (forall o, 0 <= probs o) ->
  forall o, (if Outcome_eqb o v then 0 <= probs o
             else 0 < Qmin 1 (probs o + STREAK_BONUS / 2)).
Proof.
  intros H o. destruct (Outcome_eqb o v); [apply H|].
  apply Qmin_pos; [lra|]. specialize (H o). rewrite half_bonus. lra.
Qed.

(** The adjustment renormalizes: its result sums to 1 on every table
    without negative values. *)
Lemma transferFrom_sum_nonneg probs v :
  (forall o, 0 <= probs o) -> dsum (transferFrom probs v) == 1.
Proof.
  intros H. rewrite dsum3, !transferFrom_eq.
  pose proof (adjusted_nonneg probs v H R) as HR.
  pose proof (adjusted_nonneg probs v H B) as HB.
  pose proof (adjusted_nonneg probs v H G) as HG.
  destruct v; cbn [Outcome_eqb] in *; field; lra.
Qed.

Lemma applyStreakAdjustment_dist_sum probs history s :
  is_dist probs -> dsum (applyStreakAdjustment probs history s) == 1.
Proof.
  intros [Hnn Hsum].
  destruct (applyStreakAdjustment_cases probs history s) as [E|[v E]]; rewrite E;
    [exact Hsum | now apply transferFrom_sum_nonneg].
Qed.

(** *** The pick *)

(** The pick is the first outcome, in the order R, B, G, that holds the
    largest value. *)
Lemma argmax_pick_first_max dist :
  (argmax_pick dist = R <-> dist B <= dist R /\ dist G <= dist R) /\
  (argmax_pick dist = B <-> dist R < dist B /\ dist G <= dist B) /\
  (argmax_pick dist = G <-> dist R < dist G /\ dist B < dist G).
Proof.
  unfold argmax_pick. cbn [fold_left OUTCOMES tl hd fst snd].
  destruct (Qgtb (dist B) (dist R)) eqn:E1; cbn [fst snd];
    destruct (Qgtb (dist G) _) eqn:E2; cbn [fst snd];
    try apply Qgtb_true in E1; try apply Qgtb_false in E1;
    try apply Qgtb_true in E2; try apply Qgtb_false in E2;
    repeat split; try discriminate; try lra;
    try (intros [? ?]; exfalso; lra).
Qed.


(** *** Recency weights *)


(** *** Posteriors stay inside the unit interval *)

Lemma dist_lt_1 (d : Dist) o : dsum d == 1 -> (forall k, 0 < d k) -> d o < 1.
Proof.
  intros Hs Hp. rewrite dsum3 in Hs.
  pose proof (Hp R). pose proof (Hp B). pose proof (Hp G). destruct o; lra.
Qed.

(** *** The global counts pool the slots *)

Lemma bump_slot_global_pooled round wi acc s :
  In s slots -> pooled (fst acc) (snd acc) ->
  pooled (fst (bump_slot_global round wi acc s)) (snd (bump_slot_global round wi acc s)).
Proof.
  intros Hs H. unfold bump_slot_global. destruct (cell round s) as [k|]; [|exact H].
  cbn [fst snd]. intros o. specialize (H o). revert H.
  destruct acc as [sc gc]. cbn [fst snd].
  unfold slots, GAMES_PER_ROUND in Hs. cbn [seq In] in Hs.
  cbv [slots GAMES_PER_ROUND seq map reduce_sum fold_left].
  destruct Hs as [<-|[<-|[<-|[<-|[<-|[]]]]]];
    cbv [upd_at Nat.eqb add_to set]; destruct o, k; cbn [Outcome_eqb]; lra.
Qed.

Lemma buildCounts_pooled history :
  pooled (slotCounts (buildCounts history)) (globalCounts (buildCounts history)).
Proof.
  assert (H0 : pooled (slotCounts initCounts) (globalCounts initCounts)).
  { intros o. cbv. reflexivity. }
  unfold buildCounts. destruct (0 <? length history)%nat; [|exact H0].
  apply (fold_left_inv (fun st => pooled (slotCounts st) (globalCounts st))); [exact H0|].
  intros st i _ Hst.
  assert (Hsg : pooled (fst (fold_left (bump_slot_global (games_at history i)
                                          (nth i (recencyWeights (length history)) 0))
                                       slots (slotCounts st, globalCounts st)))
                       (snd (fold_left (bump_slot_global (games_at history i)
                                          (nth i (recencyWeights (length history)) 0))
                                       slots (slotCounts st, globalCounts st)))).
  { apply (fold_left_inv (fun acc => pooled (fst acc) (snd acc))); [exact Hst|].
    intros acc s Hs Hacc. now apply bump_slot_global_pooled. }
  unfold step. destruct (0 <? i)%nat; cbn [slotCounts globalCounts]; exact Hsg.
Qed.

(** *** The keys of the pattern table *)

Lemma pattern_keys_upto history w k key :
  patternCounts (fold_left (step history w) (seq 0 k) initCounts) key <> None <->
  exists i, (1 <= i < k)%nat /\ join "," (games_at history (i - 1)) = key.
Proof.
  induction k as [|k IH].
  - cbn [seq fold_left initCounts patternCounts]. split; [congruence|].
    intros (i & Hi & _). lia.
  - rewrite seq_S, fold_left_app. cbn [fold_left Nat.add].
    set (st := fold_left (step history w) (seq 0 k) initCounts) in *.
    unfold step. destruct (0 <? k)%nat eqn:Ek; cbn [patternCounts].
    + apply Nat.ltb_lt in Ek.
      destruct (String.eqb key (join "," (games_at history (k - 1)))) eqn:Ekey.
      * apply String.eqb_eq in Ekey. split; [|congruence].
        intros _. exists k. split; [lia | now symmetry].
      * apply String.eqb_neq in Ekey. rewrite IH. split.
        -- intros (i & Hi & E). exists i. split; [lia | exact E].
        -- intros (i & Hi & E). exists i. split; [|exact E].
           destruct (Nat.eq_dec i k) as [->|]; [congruence | lia].
    + apply Nat.ltb_ge in Ek. rewrite IH. split; intros (i & Hi & _); lia.
Qed.

Lemma concat_cons2 sep (a b : string) t :
  String.concat sep (a :: b :: t) = (a ++ sep ++ String.concat sep (b :: t))%string.
Proof. reflexivity. Qed.

(** Rounds of tokens joined by commas are told apart by their keys. *)
Lemma join_tokens_inj os1 : forall os2,
  join "," (map token os1) = join "," (map token os2) -> os1 = os2.
Proof.
  unfold join.
  induction os1 as [|a [|a' t1] IH]; intros [|b [|b' t2]] H; try reflexivity;
    try (destruct a; discriminate); try (destruct b; discriminate);
    try (destruct a, b; discriminate).
  - destruct a, b; try discriminate; reflexivity.
  - cbn [map] in H, IH. rewrite !concat_cons2 in H.
    assert (E : a = b /\ String.concat "," (token a' :: map token t1) =
                         String.concat "," (token b' :: map token t2)).
    { destruct a, b; cbn [token append] in H; try discriminate;
        (split; [reflexivity | congruence]). }
    destruct E as [-> E]. f_equal. apply (IH (b' :: t2)). exact E.
Qed.

Lemma valid_round_tokens round : valid_round round -> exists os, round = map token os.
Proof.
  induction 1 as [|t r [o ->] _ [os ->]]; [now exists [] | now exists (o :: os)].
Qed.

Lemma pattern_keys_history history key :
  (exists arr, patternProbs (buildModels history) key = Some arr) <->
  (exists i, (i + 1 < length history)%nat /\ join "," (games_at history i) = key).
Proof.
  assert (E : (exists arr, patternProbs (buildModels history) key = Some arr) <->
              patternCounts (buildCounts history) key <> None).
  { unfold buildModels; cbn [patternProbs].
    destruct (patternCounts (buildCounts history) key); split;
      try congruence; try (intros [arr H]; discriminate).
    intros _. eexists. reflexivity. }
  rewrite E. unfold buildCounts.
  destruct (0 <? length history)%nat eqn:En.
  - rewrite pattern_keys_upto. split.
    + intros (i & Hi & Hk). exists (i - 1)%nat. split; [lia | exact Hk].
    + intros (i & Hi & Hk). exists (S i). split; [lia|].
      now replace (S i - 1)%nat with i by lia.
  - apply Nat.ltb_ge in En. cbn [initCounts patternCounts]. split; [congruence|].
    intros (i & Hi & _). lia.
Qed.

Lemma valid_round_games_at history i :
  Forall (fun e => valid_round (games e)) history -> valid_round (games_at history i).
Proof.
  intros H. unfold games_at. destruct (nth_error history i) as [e|] eqn:E.
  - rewrite Forall_forall in H. apply H. eapply nth_error_In. exact E.
  - constructor.
Qed.

(** *** Rounds as the CLI prints and reads them *)

Lemma five_outcomes (os : list Outcome) :
  length os = GAMES_PER_ROUND -> exists a b c d e, os = [a; b; c; d; e].
Proof.
  destruct os as [|a [|b [|c [|d [|e [|f os]]]]]]; try discriminate.
  intros _. now exists a, b, c, d, e.
Qed.

Lemma parse_join_tokens os :
  length os = GAMES_PER_ROUND ->
  parseRoundInput (join "," (map token os)) = inr (map token os) /\
  parseRoundInput (join " " (map token os)) = inr (map token os).
Proof.
  intros H. destruct (five_outcomes os H) as (a & b & c & d & e & ->).
  destruct a, b, c, d, e; split; reflexivity.
Qed.

Lemma handleLine_add now st os :
  length os = GAMES_PER_ROUND ->
  handleLine now st ("add " ++ join "," (map token os)) =
  fst (cmdAdd now st (join "," (map token os))).
Proof.
  intros H. destruct (five_outcomes os H) as (a & b & c & d & e & ->).
  destruct a, b, c, d, e; reflexivity.
Qed.

Lemma cmdAdd_sync now st raw :
  memory st = stored st ->
  memory (fst (cmdAdd now st raw)) = stored (fst (cmdAdd now st raw)).
Proof.
  unfold cmdAdd. destruct (parseRoundInput raw); intros H; [exact H | reflexivity].
Qed.

Lemma cmdUndo_sync st :
  memory st = stored st -> memory (cmdUndo st) = stored (cmdUndo st).
Proof.
  intros H. unfold cmdUndo. destruct (memory st) eqn:E; [congruence | reflexivity].
Qed.

Lemma handleLine_sync now st line :
  memory st = stored st ->
  memory (handleLine now st line) = stored (handleLine now st line).
Proof.
  intros H. unfold handleLine.
  destruct (trim _); [exact H|].
  destruct (map string_of_list_ascii _) as [|cmd rest]; [exact H|].
  destruct (String.eqb cmd "add"); [now apply cmdAdd_sync|].
  destruct (String.eqb cmd "undo"); [now apply cmdUndo_sync|].
  destruct (String.eqb cmd "reset"); [reflexivity | exact H].
Qed.

(** *** The tallies of the evaluation *)

Lemma hits_from_length actual ps : forall idx, length (hits_from actual idx ps) = length ps.
Proof. induction ps as [|p ps IH]; intros idx; cbn; [reflexivity | now rewrite IH]. Qed.

Lemma filter_all (hits : list bool) :
  forallb (fun h => h) hits = true -> filter (fun h => h) hits = hits.
Proof.
  induction hits as [|h hits IH]; cbn; [reflexivity|].
  destruct h; cbn; [|discriminate]. intros H. now rewrite IH.
Qed.

Lemma picks_length W history models w :
  length (picks (predictEnsemble W history models w)) = GAMES_PER_ROUND.
Proof.
  unfold predictEnsemble. cbn [picks]. rewrite !length_map. apply length_seq.
Qed.

Lemma walkStep_tallies W history w st i :
  tallies_ok st -> tallies_ok (walkStep W history w st i) /\
  (totalRounds (walkStep W history w st i) =
   match nth_error history i with Some _ => totalRounds st + 1 | None => totalRounds st end)%nat.
Proof.
  intros (H1 & H2 & H3 & H4). unfold walkStep.
  destruct (nth_error history i) as [e|]; [|repeat split; assumption].
  set (ps := picks (predictEnsemble W (prefix st ++ [e]) (buildModels (prefix st ++ [e])) w)).
  set (hits := hits_from (games_at history (i + 1)) 0 ps).
  assert (Hl : length hits = GAMES_PER_ROUND).
  { unfold hits. rewrite hits_from_length. apply picks_length. }
  pose proof (filter_length_le (fun h => h) hits) as Hf.
  unfold tallies_ok. cbn [totalSlots totalRounds correctRounds correctSlots].
  destruct (forallb (fun h => h) hits) eqn:Ea.
  - rewrite (filter_all hits Ea). rewrite Hl in *. unfold GAMES_PER_ROUND in *.
    repeat split; lia.
  - rewrite Hl in *. unfold GAMES_PER_ROUND in *. repeat split; lia.
Qed.

Lemma walkLoop_tallies W history w k :
  (k <= length history)%nat ->
  tallies_ok (walkLoop W history w k) /\ totalRounds (walkLoop W history w k) = k.
Proof.
  unfold walkLoop. induction k as [|k IH]; intros Hk.
  - cbn [seq fold_left]. unfold tallies_ok. cbn. repeat split; lia.
  - destruct IH as [IH1 IH2]; [lia|].
    rewrite seq_S, fold_left_app. cbn [fold_left Nat.add].
    destruct (walkStep_tallies W history w _ k IH1) as [T1 T2].
    split; [exact T1|]. rewrite T2, IH2.
    destruct (nth_error history k) eqn:E; [lia|]. apply nth_error_None in E. lia.
Qed.

Lemma ratio_le a b c d :
  (0 < b)%nat -> (0 < d)%nat -> (a * d <= c * b)%nat -> ratio a b <= ratio c d.
Proof.
  intros Hb Hd H. unfold ratio.
  replace (b =? 0)%nat with false by (symmetry; apply Nat.eqb_neq; lia).
  replace (d =? 0)%nat with false by (symmetry; apply Nat.eqb_neq; lia).
  assert (HB : 0 < inject_Z (Z.of_nat b)) by (apply inject_nat_pos; lia).
  assert (HD : 0 < inject_Z (Z.of_nat d)) by (apply inject_nat_pos; lia).
  assert (HQ : inject_Z (Z.of_nat a) * inject_Z (Z.of_nat d)
               <= inject_Z (Z.of_nat c) * inject_Z (Z.of_nat b)).
  { rewrite <- !inject_Z_mult, <- Zle_Qle. lia. }
  apply Qle_shift_div_l; [exact HD|].
  setoid_replace (inject_Z (Z.of_nat a) / inject_Z (Z.of_nat b) * inject_Z (Z.of_nat d))
    with (inject_Z (Z.of_nat a) * inject_Z (Z.of_nat d) / inject_Z (Z.of_nat b))
    by (field; lra).
  apply Qle_shift_div_r; [exact HB | exact HQ].
Qed.

Lemma ratio_nonneg a b : 0 <= ratio a b.
Proof.
  unfold ratio. destruct (b =? 0)%nat eqn:E; [lra|].
  apply Nat.eqb_neq in E.
  apply Qle_shift_div_l; [apply inject_nat_pos; lia|].
  rewrite Qmult_0_l. apply inject_nat_nonneg.
Qed.

Lemma ratio_le_1 a b : (a <= b)%nat -> ratio a b <= 1.
Proof.
  intros H. unfold ratio. destruct (b =? 0)%nat eqn:E; [lra|].
  apply Nat.eqb_neq in E.
  apply Qle_shift_div_r; [apply inject_nat_pos; lia|].
  rewrite Qmult_1_l. now apply inject_nat_le.
Qed.

(** *** The blend when no streak applies *)

Lemma opt_string_eqb_eq a b : opt_string_eqb a b = true -> a = b.
Proof.
  destruct a as [x|], b as [y|]; cbn; try discriminate; try reflexivity.
  intros H. apply String.eqb_eq in H. now subst.
Qed.

Lemma streak_of_some vals v :
  streak_of vals = Some v -> Forall (fun x => x = Some (token v)) vals.
Proof.
  unfold streak_of. destruct vals as [|v0 rest]; [discriminate|].
  destruct (forallb _ _) eqn:Ea; [|discriminate].
  destruct v0 as [t|]; [|discriminate]. intros Hi.
  apply includes_token in Hi. subst t.
  rewrite forallb_forall in Ea. apply Forall_forall. intros x Hx.
  apply opt_string_eqb_eq. now apply Ea.
Qed.

Lemma no_streak_no_adjustment probs history s :
  (forall v, ~ streakOn history s v) -> applyStreakAdjustment probs history s = probs.
Proof.
  intros Hno. unfold applyStreakAdjustment.
  destruct (length history <? STREAK_WINDOW)%nat eqn:En; [reflexivity|].
  apply Nat.ltb_ge in En.
  destruct (streak_of _) as [v|] eqn:Es; [|reflexivity].
  exfalso. apply (Hno v). split; [exact En|].
  apply streak_of_some in Es. rewrite Forall_map in Es. exact Es.
Qed.

Lemma blend_rescale a b c d x y z :
  0 <= a -> 0 <= b -> 0 <= c -> 0 <= d -> 0 < a + b + c ->
  (a / truthy_or (a + b + c + d) 1 * x + b / truthy_or (a + b + c + d) 1 * y
   + c / truthy_or (a + b + c + d) 1 * z)
  / (a / truthy_or (a + b + c + d) 1 + b / truthy_or (a + b + c + d) 1
     + c / truthy_or (a + b + c + d) 1)
  == a / truthy_or (a + b + c + 0) 1 * x + b / truthy_or (a + b + c + 0) 1 * y
     + c / truthy_or (a + b + c + 0) 1 * z.
Proof.
  intros Ha Hb Hc Hd Hs.
  rewrite !truthy_or_nonzero by lra. field. split; lra.
Qed.

(** *** White space and words *)








End SportyFacts.

(** ** iv-redblack-advanced.cjs *)
Module AdvancedFacts.
Import Advanced.

Lemma adv_eqb_eq a b : Outcome_eqb a b = true <-> a = b.
Proof. destruct a, b; simpl; split; congruence. Qed.

Lemma adv_eqb_refl a : Outcome_eqb a a = true.
Proof. now destruct a. Qed.

Lemma adv_dsum3 (d : Dist) : dsum d == d RED + d BLACK + d GREEN.
Proof. unfold dsum, table_sum, table_values, reduce_sum. simpl. lra. Qed.

Lemma adv_uniform_value o : uniform o == 1 # 3.
Proof. reflexivity. Qed.

(** *** Marginal *)

Lemma add_to_nonneg d k w : 0 <= w -> (forall o, 0 <= d o) -> forall o, 0 <= add_to d k w o.
Proof.
  intros Hw Hd o. unfold add_to, set.
  destruct (Outcome_eqb o k); [specialize (Hd k); lra | apply Hd].
Qed.

Lemma add_to_dsum d k w : dsum (add_to d k w) == dsum d + w.
Proof.
  rewrite !adv_dsum3. unfold add_to, set. destruct k; cbn [Outcome_eqb]; lra.
Qed.

Lemma decay_pos age : 0 < pow DECAY age.
Proof. apply pow_pos. unfold DECAY. lra. Qed.

Lemma marginalStep_grows history n counts i :
  (forall o, 0 <= counts o) ->
  (forall o, 0 <= marginalStep history n counts i o) /\
  dsum counts <= dsum (marginalStep history n counts i) /\
  ((i < length history)%nat -> dsum counts < dsum (marginalStep history n counts i)).
Proof.
  intros H. unfold marginalStep.
  destruct (nth_error history i) as [e|] eqn:E.
  - pose proof (decay_pos (n - 1 - i)) as Hw.
    split; [apply add_to_nonneg; [lra | exact H]|].
    rewrite add_to_dsum. split; [lra | intros _; lra].
  - split; [exact H|]. split; [lra|].
    intros Hi. apply nth_error_None in E. lia.
Qed.

Lemma marginalCounts_nonneg history o : 0 <= marginalCounts history o.
Proof.
  unfold marginalCounts. revert o.
  apply (fold_left_inv (fun c : Dist => forall o, 0 <= c o)).
  - intros o. unfold zero. lra.
  - intros c i _ Hc. now apply marginalStep_grows.
Qed.

Lemma marginalCounts_pos history :
  history <> [] -> 0 < dsum (marginalCounts history).
Proof.
  intros Hne. unfold marginalCounts.
  destruct history as [|e rest]; [contradiction|].
  set (h := e :: rest). change (length h) with (S (length rest)).
  cbn [seq fold_left].
  assert (H0 : forall o, 0 <= zero o) by (intros o; unfold zero; lra).
  destruct (marginalStep_grows h (S (length rest)) zero 0 H0) as (Hn & _ & Hlt).
  assert (H1 : 0 < dsum (marginalStep h (S (length rest)) zero 0)).
  { assert (dsum zero == 0) by reflexivity. specialize (Hlt ltac:(simpl; lia)). lra. }
  apply (fold_left_inv (fun c : Dist => (forall o, 0 <= c o) /\ 0 < dsum c)).
  - split; assumption.
  - intros c i _ [Hc1 Hc2].
    destruct (marginalStep_grows h (S (length rest)) c i Hc1) as (Ha & Hb & _).
    split; [exact Ha | lra].
Qed.

Lemma buildMarginal_empty o : buildMarginal [] o == 0.
Proof. reflexivity. Qed.

Lemma buildMarginal_sum history :
  history <> [] -> dsum (buildMarginal history) == 1.
Proof.
  intros H. apply table_normalize_sum. fold (dsum (marginalCounts history)).
  pose proof (marginalCounts_pos history H). lra.
Qed.

Lemma buildMarginal_nonneg history o : 0 <= buildMarginal history o.
Proof.
  unfold buildMarginal, table_normalize. fold (dsum (marginalCounts history)).
  pose proof (marginalCounts_nonneg history) as Hn.
  assert (Hs : 0 <= dsum (marginalCounts history)).
  { rewrite adv_dsum3. pose proof (Hn RED). pose proof (Hn BLACK). pose proof (Hn GREEN). lra. }
  unfold truthy_or. destruct (Qeq_bool _ 0) eqn:E.
  - apply Qle_shift_div_l; [lra|]. specialize (Hn o). lra.
  - apply Qeq_bool_neq in E. pose proof (nonneg_nonzero_pos _ Hs E).
    apply Qle_shift_div_l; [lra|]. specialize (Hn o). lra.
Qed.

(** *** Markov *)

Lemma markovStep_nonneg history n counts i :
  (forall a o, 0 <= counts a o) -> forall a o, 0 <= markovStep history n counts i a o.
Proof.
  intros H a o. unfold markovStep.
  destruct (nth_error history (i - 1)) as [p|]; [|apply H].
  destruct (nth_error history i) as [c|]; [|apply H].
  destruct (Outcome_eqb a (outcome p)); [|apply H].
  apply add_to_nonneg; [apply Qlt_le_weak, decay_pos | apply H].
Qed.

Lemma markovCounts_nonneg history a o : 0 <= markovCounts history a o.
Proof.
  unfold markovCounts. revert a o.
  apply (fold_left_inv (fun c : Outcome -> Dist => forall a o, 0 <= c a o)).
  - intros a o. unfold zero. lra.
  - intros c i _ Hc. now apply markovStep_nonneg.
Qed.

Lemma buildMarkov_row history a :
  dsum (buildMarkov history a) == 1 /\ forall o, 0 <= buildMarkov history a o.
Proof.
  unfold buildMarkov.
  pose proof (markovCounts_nonneg history a) as Hn.
  assert (Hs : 0 <= dsum (markovCounts history a)).
  { rewrite adv_dsum3. pose proof (Hn RED). pose proof (Hn BLACK). pose proof (Hn GREEN). lra. }
  destruct (Qeq_bool (dsum (markovCounts history a)) 0) eqn:E.
  - split; [reflexivity|]. intros o. rewrite adv_uniform_value. lra.
  - apply Qeq_bool_neq in E. pose proof (nonneg_nonzero_pos _ Hs E) as Hp. split.
    + unfold dsum at 1. rewrite table_sum_scale. fold (dsum (markovCounts history a)).
      now field.
    + intros o. apply Qle_shift_div_l; [lra|]. specialize (Hn o). lra.
Qed.

Lemma not_followed_adv history prev i p :
  followed history prev = false ->
  (0 < i < length history)%nat ->
  nth_error history (i - 1) = Some p -> outcome p <> prev.
Proof.
  unfold followed. intros H Hi Hp Ho.
  assert (Hex : existsb (fun i =>
             match nth_error history (i - 1) with
             | Some p => Outcome_eqb (outcome p) prev
             | None => false
             end) (seq 1 (length history - 1)) = true).
  { apply existsb_exists. exists i. split; [apply in_seq; lia|].
    rewrite Hp, Ho. apply adv_eqb_refl. }
  congruence.
Qed.

Lemma unfollowed_row_zero history prev :
  followed history prev = false -> forall o, markovCounts history prev o = 0.
Proof.
  intros Hf o. unfold markovCounts.
  apply (fold_left_inv (fun c : Outcome -> Dist => c prev o = 0)); [reflexivity|].
  intros c i Hin Hc. unfold markovStep.
  destruct (nth_error history (i - 1)) as [p|] eqn:Ep; [|exact Hc].
  destruct (nth_error history i) as [cu|] eqn:Ec; [|exact Hc].
  destruct (Outcome_eqb prev (outcome p)) eqn:E; [|exact Hc].
  apply adv_eqb_eq in E. exfalso.
  apply in_seq in Hin.
  apply (not_followed_adv history prev i p Hf); [lia | exact Ep | congruence].
Qed.

Lemma unfollowed_row_uniform history prev o :
  followed history prev = false -> buildMarkov history prev o == uniform o.
Proof.
  intros Hf. unfold buildMarkov.
  pose proof (unfollowed_row_zero history prev Hf) as Hz.
  unfold dsum, table_sum, table_values, reduce_sum. cbn [map OUTCOMES fold_left].
  rewrite !Hz. reflexivity.
Qed.

(** *** Streak bias *)

Lemma shiftFrom_eq probs v :
  forall k, shiftFrom probs v k ==
            if Outcome_eqb k v
            then Qmax 0 (probs v - Qmin STREAK_BONUS (probs v * 0.5))
            else probs k + Qmin STREAK_BONUS (probs v * 0.5) / 2.
Proof.
  intros k.
  destruct v, k;
    cbv [shiftFrom OUTCOMES filter Outcome_eqb negb length Nat.max fold_left set
         Z.of_nat Pos.of_succ_nat Pos.succ inject_Z];
    rewrite ?truthy_or_0; reflexivity.
Qed.

Lemma shift_bounds p :
  0 <= p ->
  0 <= Qmin STREAK_BONUS (p * 0.5) /\
  Qmin STREAK_BONUS (p * 0.5) <= STREAK_BONUS /\
  Qmin STREAK_BONUS (p * 0.5) <= p * 0.5.
Proof.
  intros Hp. split; [|split].
  - apply Q.min_glb; [unfold STREAK_BONUS; lra | lra].
  - apply Q.le_min_l.
  - apply Q.le_min_r.
Qed.

Lemma shiftFrom_values probs v :
  0 <= probs v ->
  forall k, shiftFrom probs v k ==
            if Outcome_eqb k v
            then probs v - Qmin STREAK_BONUS (probs v * 0.5)
            else probs k + Qmin STREAK_BONUS (probs v * 0.5) / 2.
Proof.
  intros Hp k. rewrite shiftFrom_eq.
  destruct (Outcome_eqb k v); [|reflexivity].
  destruct (shift_bounds _ Hp) as (H1 & H2 & H3).
  apply Q.max_r. lra.
Qed.

Lemma shiftFrom_dsum probs v :
  0 <= probs v -> dsum (shiftFrom probs v) == dsum probs.
Proof.
  intros Hp. rewrite !adv_dsum3, !shiftFrom_values by exact Hp.
  destruct v; cbn [Outcome_eqb]; field.
Qed.

Lemma applyStreakBias_cases probs historyList :
  applyStreakBias probs historyList = probs \/
  exists v, applyStreakBias probs historyList = shiftFrom probs v.
Proof.
  unfold applyStreakBias.
  destruct (length historyList <? STREAK_WINDOW)%nat; [now left|].
  destruct (slice_last STREAK_WINDOW historyList) as [|v rest]; [now left|].
  destruct (forallb _ _); [right; now exists v | now left].
Qed.

Lemma streakOf_applies probs historyList v :
  streakOf historyList v -> applyStreakBias probs historyList = shiftFrom probs v.
Proof.
  intros [Hlen Hall]. unfold applyStreakBias.
  replace (length historyList <? STREAK_WINDOW)%nat with false
    by (symmetry; apply Nat.ltb_ge; exact Hlen).
  pose proof (length_slice_last _ _ Hlen) as Hl.
  destruct (slice_last STREAK_WINDOW historyList) as [|x rest] eqn:E; [discriminate|].
  assert (Hx : x = v) by now inversion Hall.
  subst x.
  replace (forallb (fun y => Outcome_eqb y v) (v :: rest)) with true; [reflexivity|].
  symmetry. apply forallb_forall. intros y Hy.
  rewrite Forall_forall in Hall. rewrite (Hall y Hy). apply adv_eqb_refl.
Qed.

Lemma no_streak_identity probs historyList :
  (forall v, ~ streakOf historyList v) -> applyStreakBias probs historyList = probs.
Proof.
  intros Hno. unfold applyStreakBias.
  destruct (length historyList <? STREAK_WINDOW)%nat eqn:El; [reflexivity|].
  destruct (slice_last STREAK_WINDOW historyList) as [|v rest] eqn:E; [reflexivity|].
  destruct (forallb (fun x => Outcome_eqb x v) (v :: rest)) eqn:Ef; [|reflexivity].
  exfalso. apply (Hno v). split.
  - now apply Nat.ltb_ge.
  - rewrite E. apply Forall_forall. intros x Hx.
    rewrite forallb_forall in Ef. apply adv_eqb_eq. now apply Ef.
Qed.

Lemma applyStreakBias_conserves probs historyList :
  (forall o, 0 <= probs o) ->
  dsum (applyStreakBias probs historyList) == dsum probs /\
  (dsum probs == 1 -> dsum (applyStreakBias probs historyList) == 1) /\
  (forall v, streakOf historyList v ->
     forall k, applyStreakBias probs historyList k ==
               if Outcome_eqb k v
               then probs v - Qmin STREAK_BONUS (probs v * 0.5)
               else probs k + Qmin STREAK_BONUS (probs v * 0.5) / 2).
Proof.
  intros Hnn.
  assert (Hsum : dsum (applyStreakBias probs historyList) == dsum probs).
  { destruct (applyStreakBias_cases probs historyList) as [E|[v E]]; rewrite E;
      [reflexivity | apply shiftFrom_dsum, Hnn]. }
  split; [exact Hsum|]. split.
  - intros H1. now rewrite Hsum.
  - intros v Hv k. rewrite (streakOf_applies probs historyList v Hv).
    apply shiftFrom_values, Hnn.
Qed.

Lemma applyStreakBias_nonneg probs historyList :
  (forall o, 0 <= probs o) -> forall o, 0 <= applyStreakBias probs historyList o.
Proof.
  intros Hnn o.
  destruct (applyStreakBias_cases probs historyList) as [E|[v E]]; rewrite E;
    [apply Hnn|].
  rewrite shiftFrom_values by apply Hnn.
  destruct (shift_bounds _ (Hnn v)) as (H1 & H2 & H3).
  assert (Hh : 0 <= Qmin STREAK_BONUS (probs v * 0.5) / 2)
    by (apply Qle_shift_div_l; lra).
  pose proof (Hnn o). pose proof (Hnn v).
  destruct (Outcome_eqb o v); lra.
Qed.

Lemma shiftFrom_bound probs v :
  0 <= probs v ->
  shiftFrom probs v v <= probs v /\ probs v - shiftFrom probs v v <= STREAK_BONUS.
Proof.
  intros Hp. rewrite shiftFrom_values by exact Hp. rewrite adv_eqb_refl.
  destruct (shift_bounds _ Hp) as (H1 & H2 & H3). split; lra.
Qed.

(** *** argmax with random tie-break *)

Lemma candidates_NoDup dist : NoDup (candidates dist).
Proof.
  unfold candidates. destruct (bestOf dist); [|constructor].
  apply NoDup_filter. unfold OUTCOMES.
  repeat constructor; simpl; intuition discriminate.
Qed.

(** With [m >= 2] tied candidates, one value [u] is drawn and candidate
    number [k] is picked exactly when [u] falls in [[k/m, (k+1)/m)]. *)
Lemma tie_break_interval rt dist drawn k :
  0 <= Math_random rt drawn -> Math_random rt drawn < 1 ->
  let cands := candidates dist in
  let m := length cands in
  (2 <= m)%nat -> (k < m)%nat ->
  snd (argmaxWithRandomTie rt dist drawn) = S drawn /\
  (fst (argmaxWithRandomTie rt dist drawn) = nth_error cands k <->
   inject_Z (Z.of_nat k) / inject_Z (Z.of_nat m) <= Math_random rt drawn /\
   Math_random rt drawn < (inject_Z (Z.of_nat k) + 1) / inject_Z (Z.of_nat m)).
Proof.
  intros Hu0 Hu1 cands m Hm Hk. unfold argmaxWithRandomTie. fold cands. fold m.
  replace (m =? 1)%nat with false by (symmetry; apply Nat.eqb_neq; lia).
  unfold bind, random, ret. cbn [fst snd]. split; [reflexivity|].
  set (u := Math_random rt drawn) in *.
  assert (Hmq : 0 < inject_Z (Z.of_nat m)).
  { change 0 with (inject_Z 0). rewrite <- Zlt_Qlt. lia. }
  assert (Hx : 0 <= u * inject_Z (Z.of_nat m)) by (apply Qmult_le_0_compat; lra).
  set (idx := Z.to_nat (Qfloor (u * inject_Z (Z.of_nat m)))).
  assert (Hidx : (idx < m)%nat).
  { destruct (proj1 (floor_is _ idx Hx) eq_refl) as [Hlo _].
    assert (Hlt : inject_Z (Z.of_nat idx) < inject_Z (Z.of_nat m)).
    { apply Qle_lt_trans with (u * inject_Z (Z.of_nat m)); [exact Hlo|].
      rewrite <- (Qmult_1_l (inject_Z (Z.of_nat m))) at 2.
      apply Qmult_lt_compat_r; assumption. }
    rewrite <- Zlt_Qlt in Hlt. lia. }
  assert (Hiff : nth_error cands idx = nth_error cands k <-> idx = k).
  { split; [|now intros ->].
    intros E. pose proof (candidates_NoDup dist) as Hnd. fold cands in Hnd.
    rewrite NoDup_nth_error in Hnd. now apply Hnd. }
  rewrite Hiff. unfold idx. rewrite (floor_is _ k Hx).
  rewrite (div_le_iff _ _ _ Hmq), (lt_div_iff _ _ _ Hmq). reflexivity.
Qed.

(** The running maximum ends at the largest value of the table. *)
Lemma bestOf_max dist :
  exists b, bestOf dist = Some b /\ (forall o, dist o <= b) /\ (exists o, b = dist o).
Proof.
  unfold bestOf. cbn [fold_left OUTCOMES].
  destruct (Qgtb (dist BLACK) (dist RED)) eqn:E1.
  - apply Qgtb_true in E1.
    destruct (Qgtb (dist GREEN) (dist BLACK)) eqn:E2.
    + apply Qgtb_true in E2. exists (dist GREEN).
      split; [reflexivity|]. split; [intros []; lra | now exists GREEN].
    + apply Qgtb_false in E2. exists (dist BLACK).
      split; [reflexivity|]. split; [intros []; lra | now exists BLACK].
  - apply Qgtb_false in E1.
    destruct (Qgtb (dist GREEN) (dist RED)) eqn:E2.
    + apply Qgtb_true in E2. exists (dist GREEN).
      split; [reflexivity|]. split; [intros []; lra | now exists GREEN].
    + apply Qgtb_false in E2. exists (dist RED).
      split; [reflexivity|]. split; [intros []; lra | now exists RED].
Qed.

(** The candidates are the outcomes within [tol] of the maximum. *)
Lemma candidates_spec dist b o :
  bestOf dist = Some b ->
  (In o (candidates dist) <-> Qabs (dist o - b) <= tol).
Proof.
  intros Hb. unfold candidates. rewrite Hb, filter_In, Qle_bool_iff.
  split; [now intros [_ H] | intros H; split; [destruct o; simpl; auto | exact H]].
Qed.

Lemma candidates_nonempty dist : candidates dist <> [].
Proof.
  destruct (bestOf_max dist) as (b & Hb & _ & (o & Ho)).
  assert (Hin : In o (candidates dist)).
  { apply (candidates_spec dist b o Hb). subst b.
    assert (E : dist o - dist o == 0) by lra. rewrite E. discriminate. }
  intros E. now rewrite E in Hin.
Qed.

(** A single candidate is returned without drawing. *)
Lemma single_candidate rt dist drawn :
  length (candidates dist) = 1%nat ->
  argmaxWithRandomTie rt dist drawn = (nth_error (candidates dist) 0, drawn).
Proof. intros H. unfold argmaxWithRandomTie. now rewrite H. Qed.

(** *** Classifier and ensemble *)

Section Classifier.
Variable rt : Runtime.
Hypothesis exp_pos : forall x, 0 < Math_exp rt x.

Lemma softmax3 a b c :
  exists p q r, softmax rt [a; b; c] = [p; q; r] /\
                0 <= p /\ 0 <= q /\ 0 <= r /\ p + q + r == 1.
Proof.
  unfold softmax. cbn [map fold_left].
  set (mx := Qmax (Qmax a b) c).
  pose proof (exp_pos (a - mx)). pose proof (exp_pos (b - mx)). pose proof (exp_pos (c - mx)).
  set (ea := Math_exp rt (a - mx)) in *.
  set (eb := Math_exp rt (b - mx)) in *.
  set (ec := Math_exp rt (c - mx)) in *.
  assert (Es : reduce_sum [ea; eb; ec] == ea + eb + ec).
  { unfold reduce_sum. simpl. lra. }
  assert (Hs : ~ reduce_sum [ea; eb; ec] == 0) by (rewrite Es; lra).
  rewrite (truthy_or_nonzero _ _ Hs).
  eexists _, _, _. split; [reflexivity|].
  assert (Hp : 0 < reduce_sum [ea; eb; ec]) by (rewrite Es; lra).
  repeat split; try (apply Qle_shift_div_l; lra).
  rewrite Es. field. lra.
Qed.

Lemma predictSoftmaxModel_dist m x d :
  predictSoftmaxModel rt (Some m) x = Some d -> is_dist d.
Proof.
  unfold predictSoftmaxModel. intros H. apply some_eq in H. subst d.
  unfold logitsOf. cbn [map seq length OUTCOMES].
  destruct (softmax3 (dotRowVec (nth 0 (W m) []) x + nth 0 (b m) 0)
                     (dotRowVec (nth 1 (W m) []) x + nth 1 (b m) 0)
                     (dotRowVec (nth 2 (W m) []) x + nth 2 (b m) 0))
    as (p & q & r & E & Hp & Hq & Hr & Hsum).
  rewrite E. split.
  - intros []; cbn [indexOf nth]; assumption.
  - rewrite adv_dsum3. cbn [indexOf nth]. exact Hsum.
Qed.

Lemma truthy_or_0_nonneg x : 0 <= x -> 0 <= truthy_or x 0.
Proof. intros H. rewrite truthy_or_0. exact H. Qed.

Lemma ensemblePredict_sum now history model :
  dsum (ensemblePredict rt now history model) == 1.
Proof.
  unfold ensemblePredict.
  set (feat := buildFeatureFromHistory rt now history (length history)).
  set (logreg := match predictSoftmaxModel rt model feat with
                 | Some probs => probs
                 | None => uniform
                 end).
  assert (Hl : is_dist logreg).
  { unfold logreg. destruct model as [m|].
    - destruct (predictSoftmaxModel rt (Some m) feat) as [d|] eqn:E; [|discriminate].
      now apply (predictSoftmaxModel_dist m feat).
    - split; [intros o; rewrite adv_uniform_value; lra | reflexivity]. }
  set (mk := match nth_error history (length history - 1) with
             | Some e => buildMarkov history (outcome e)
             | None => buildMarginal history
             end).
  assert (Hm : forall o, 0 <= mk o).
  { intros o. unfold mk. destruct (nth_error _ _); [apply buildMarkov_row | apply buildMarginal_nonneg]. }
  set (combined := fun o => MIX_LOGREG * truthy_or (logreg o) 0
                            + MIX_MARKOV * truthy_or (mk o) 0
                            + MIX_MARG * truthy_or (buildMarginal history o) 0).
  assert (Hc : forall o, MIX_LOGREG * logreg o <= combined o).
  { intros o. unfold combined. rewrite !truthy_or_0.
    pose proof (Hm o). pose proof (buildMarginal_nonneg history o).
    unfold MIX_MARKOV, MIX_MARG. lra. }
  destruct Hl as [Hl0 Hl1]. rewrite adv_dsum3 in Hl1.
  assert (Hcn : forall o, 0 <= combined o).
  { intros o. specialize (Hc o). specialize (Hl0 o). unfold MIX_LOGREG in Hc. lra. }
  destruct (applyStreakBias_conserves combined (map outcome history) Hcn) as [Hsum _].
  assert (Hpos : 0 < dsum (applyStreakBias combined (map outcome history))).
  { rewrite Hsum, adv_dsum3.
    pose proof (Hc RED). pose proof (Hc BLACK). pose proof (Hc GREEN).
    unfold MIX_LOGREG in *. lra. }
  rewrite truthy_or_nonzero by lra.
  unfold dsum at 1. rewrite table_sum_scale.
  fold (dsum (applyStreakBias combined (map outcome history))). field. lra.
Qed.
End Classifier.

Lemma ensemblePredict_empty rt now o : ensemblePredict rt now [] None o == 1 # 3.
Proof. destruct o; reflexivity. Qed.

(** *** Walk-forward evaluation *)

Lemma slice_from_0 {A} i (xs : list A) : slice 0 i xs = firstn i xs.
Proof. unfold slice. now rewrite Nat.sub_0_r. Qed.

Lemma forEach_app {A X} (xs ys : list X) (body : A -> X -> Rand A) :
  forall a c,
    forEach (xs ++ ys) body a c =
    forEach ys body (fst (forEach xs body a c)) (snd (forEach xs body a c)).
Proof.
  induction xs as [|x xs IH]; intros a c; [reflexivity|].
  cbn [app forEach]. unfold bind. apply IH.
Qed.

(** Two loop bodies that agree on the elements of the list run alike. *)
Lemma forEach_agree {A X} (xs : list X) (body1 body2 : A -> X -> Rand A) :
  (forall x, In x xs -> forall a c, body1 a x c = body2 a x c) ->
  forall a c, forEach xs body1 a c = forEach xs body2 a c.
Proof.
  induction xs as [|x xs IH]; intros H a c; [reflexivity|].
  cbn [forEach]. unfold bind. rewrite (H x (or_introl eq_refl)).
  apply IH. intros y Hy. apply H. now right.
Qed.

Section Walk.
Variable rt : Runtime.
Variable now : Z.

(** An iteration reads the entries up to and including its own index only. *)
Lemma walkStep_agree h1 h2 st i :
  firstn (S i) h1 = firstn (S i) h2 ->
  walkStep rt now h1 st i = walkStep rt now h2 st i.
Proof.
  intros H. unfold walkStep. rewrite !slice_from_0.
  rewrite (firstn_agree_le h1 h2 (S i) i H) by lia.
  rewrite (firstn_agree_nth h1 h2 (S i) i H) by lia.
  reflexivity.
Qed.

(** The prediction of an iteration depends on the entries before its index
    (and on the values drawn) only. *)
Lemma walkStep_made_agree h1 h2 st i c :
  firstn i h1 = firstn i h2 ->
  (i < length h1)%nat -> (i < length h2)%nat ->
  made (fst (walkStep rt now h1 st i c)) = made (fst (walkStep rt now h2 st i c)).
Proof.
  intros H H1 H2. unfold walkStep. rewrite !slice_from_0, H.
  destruct (nth_error h1 i) as [t1|] eqn:E1; [|apply nth_error_None in E1; lia].
  destruct (nth_error h2 i) as [t2|] eqn:E2; [|apply nth_error_None in E2; lia].
  destruct (_ <? 10)%nat; reflexivity.
Qed.

Lemma walkLoop_agree h1 h2 st m k i c :
  firstn i h1 = firstn i h2 -> (m + k <= i)%nat ->
  forEach (seq m k) (walkStep rt now h1) st c =
  forEach (seq m k) (walkStep rt now h2) st c.
Proof.
  intros H Hk. apply forEach_agree. intros j Hj a c'.
  apply in_seq in Hj. rewrite (walkStep_agree h1 h2 a j); [reflexivity|].
  apply (firstn_agree_le h1 h2 i); [exact H | lia].
Qed.

Lemma walkStep_made_cases h st j c :
  made (fst (walkStep rt now h st j c)) = made st \/
  exists p, made (fst (walkStep rt now h st j c)) = (j, p) :: made st.
Proof.
  unfold walkStep. destruct (nth_error h j); [|now left].
  destruct (_ <? 10)%nat; [now left|]. right. eexists. reflexivity.
Qed.

Lemma later_steps_keep h i idxs :
  forall st c, Forall (fun j => j <> i) idxs ->
  find (tagged i) (made (fst (forEach idxs (walkStep rt now h) st c))) =
  find (tagged i) (made st).
Proof.
  induction idxs as [|j idxs IH]; intros st c Hall; [reflexivity|].
  cbn [forEach]. unfold bind. inversion Hall as [|? ? Hj Hrest]. subst.
  rewrite IH by assumption.
  destruct (walkStep_made_cases h st j c) as [E|[p E]]; rewrite E; [reflexivity|].
  cbn [find]. unfold tagged at 1. cbn [fst].
  replace (j =? i)%nat with false by (symmetry; apply Nat.eqb_neq; exact Hj).
  reflexivity.
Qed.

Lemma predictionFor_after_step h minTrain drawn i :
  (minTrainOf minTrain <= i < length h)%nat ->
  predictionFor rt now h minTrain drawn i =
  option_map snd
    (find (tagged i)
       (made (fst (walkStep rt now h (fst (before rt now h minTrain drawn i)) i
                            (snd (before rt now h minTrain drawn i)))))).
Proof.
  intros Hi. unfold predictionFor, before.
  replace (length h <=? minTrainOf minTrain)%nat with false
    by (symmetry; apply Nat.leb_gt; lia).
  unfold walkLoop. set (M := minTrainOf minTrain) in *.
  replace (length h - M)%nat with ((i - M) + (1 + (length h - S i)))%nat by lia.
  rewrite seq_app, forEach_app, seq_app, forEach_app.
  replace (M + (i - M))%nat with i by lia.
  replace (i + 1)%nat with (S i) by lia.
  rewrite later_steps_keep; [reflexivity|].
  apply Forall_forall. intros j Hj. apply in_seq in Hj. lia.
Qed.

Lemma predictions_leak_free h1 h2 minTrain drawn i :
  (minTrainOf minTrain <= i)%nat ->
  (i < length h1)%nat -> (i < length h2)%nat ->
  firstn i h1 = firstn i h2 ->
  predictionFor rt now h1 minTrain drawn i = predictionFor rt now h2 minTrain drawn i.
Proof.
  intros Hm H1 H2 H.
  rewrite !predictionFor_after_step by lia. unfold before.
  rewrite (walkLoop_agree h1 h2 _ _ _ i _ H) by lia.
  rewrite (walkStep_made_agree h1 h2 _ i _ H H1 H2). reflexivity.
Qed.

Lemma prediction_made h minTrain drawn i :
  (minTrainOf minTrain <= i < length h)%nat -> (20 <= i)%nat ->
  exists p, predictionFor rt now h minTrain drawn i = Some p.
Proof.
  intros Hi H20. rewrite predictionFor_after_step by exact Hi.
  set (st := fst (before rt now h minTrain drawn i)).
  set (c := snd (before rt now h minTrain drawn i)).
  unfold walkStep. rewrite slice_from_0.
  destruct (nth_error h i) as [t|] eqn:E; [|apply nth_error_None in E; lia].
  rewrite length_map, length_seq, length_firstn.
  replace (Nat.min i (length h) - N_WINDOW <? 10)%nat with false
    by (symmetry; apply Nat.ltb_ge; unfold N_WINDOW; lia).
  unfold bind, ret. cbn [fst snd made find]. unfold tagged. cbn [fst].
  rewrite Nat.eqb_refl. eexists. reflexivity.
Qed.
End Walk.


(** *** Recording scraped outcomes *)

(** A falsy outcome returns at once: nothing is read or written. *)
Lemma recordOutcome_nothing now1 now2 file :
  recordOutcome now1 now2 file None = file.
Proof. reflexivity. Qed.


(** *** The scraped text *)



(** *** Feature vectors *)

Lemma count_total window :
  count RED window + count BLACK window + count GREEN window
  == inject_Z (Z.of_nat (length window)).
Proof.
  unfold count. induction window as [|w window IH]; [reflexivity|].
  cbn [filter length].
  destruct (outcome w); cbn [Outcome_eqb length];
    rewrite !Nat2Z.inj_succ, <- !Z.add_1_r, !inject_Z_plus;
    rewrite <- IH; change (inject_Z 1) with 1; ring.
Qed.

Lemma rates_sum_one window :
  window <> [] ->
  count RED window / inject_Z (Z.of_nat (Nat.max 1 (length window)))
  + count BLACK window / inject_Z (Z.of_nat (Nat.max 1 (length window)))
  + count GREEN window / inject_Z (Z.of_nat (Nat.max 1 (length window))) == 1.
Proof.
  intros Hne. assert (Hl : (0 < length window)%nat) by (destruct window; [congruence | cbn; lia]).
  replace (Nat.max 1 (length window)) with (length window) by lia.
  pose proof (inject_nat_pos _ Hl) as Hp. pose proof (count_total window) as Hc.
  setoid_replace (count RED window / inject_Z (Z.of_nat (length window))
    + count BLACK window / inject_Z (Z.of_nat (length window))
    + count GREEN window / inject_Z (Z.of_nat (length window)))
    with ((count RED window + count BLACK window + count GREEN window)
          / inject_Z (Z.of_nat (length window))) by (field; lra).
  rewrite Hc. field. lra.
Qed.

Lemma slice_nonempty {A} (a i : nat) (xs : list A) :
  (a < i)%nat -> (a < length xs)%nat -> slice a i xs <> [].
Proof.
  intros H1 H2 E. apply (f_equal (@length A)) in E. unfold slice in E.
  rewrite length_firstn, length_skipn in E. cbn in E. lia.
Qed.

Lemma slice_firstn {A} a i (xs : list A) :
  (a <= i)%nat -> slice a i xs = skipn a (firstn i xs).
Proof.
  intros H. unfold slice. rewrite skipn_firstn_comm. reflexivity.
Qed.

Lemma position_one_hot pos :
  (pos < 5)%nat ->
  indicator (pos =? 0)%nat + indicator (pos =? 1)%nat + indicator (pos =? 2)%nat
  + indicator (pos =? 3)%nat + indicator (pos =? 4)%nat == 1.
Proof.
  intros H. do 5 (destruct pos as [|pos]; [reflexivity|]). lia.
Qed.

(** *** Training: the shuffle, the shape of the model, the values drawn *)

Lemma length_list_set {A} (xs : list A) : forall i v, length (list_set xs i v) = length xs.
Proof.
  induction xs as [|x xs IH]; intros [|i] v; cbn; try reflexivity. now rewrite IH.
Qed.

Lemma nth_list_set {A} (xs : list A) d : forall i v k,
  (i < length xs)%nat ->
  nth k (list_set xs i v) d = if (k =? i)%nat then v else nth k xs d.
Proof.
  induction xs as [|x xs IH]; intros [|i] v [|k] H; cbn in *; try lia; try reflexivity.
  apply IH. lia.
Qed.

Lemma count_occ_list_set (xs : list nat) x : forall i v,
  (i < length xs)%nat ->
  (count_occ Nat.eq_dec (list_set xs i v) x
   + (if Nat.eq_dec (nth i xs 0) x then 1 else 0)
   = count_occ Nat.eq_dec xs x + (if Nat.eq_dec v x then 1 else 0))%nat.
Proof.
  induction xs as [|y xs IH]; intros [|i] v H; cbn [length] in H; try lia.
  - cbn [list_set nth count_occ].
    destruct (Nat.eq_dec v x), (Nat.eq_dec y x); lia.
  - cbn [list_set nth count_occ]. specialize (IH i v ltac:(lia)).
    destruct (Nat.eq_dec y x); lia.
Qed.

(** Exchanging two cells of an array permutes it. *)
Lemma swap_Permutation idx i j :
  (i < length idx)%nat -> (j < length idx)%nat -> Permutation (swap idx i j) idx.
Proof.
  intros Hi Hj. apply (Permutation_count_occ Nat.eq_dec). intros x. unfold swap.
  pose proof (count_occ_list_set idx x i (nth j idx 0%nat) Hi) as H1.
  pose proof (count_occ_list_set (list_set idx i (nth j idx 0%nat)) x j (nth i idx 0%nat)
                ltac:(now rewrite length_list_set)) as H2.
  rewrite (nth_list_set idx 0%nat i _ j Hi) in H2.
  destruct (j =? i)%nat eqn:E.
  - apply Nat.eqb_eq in E. subst j.
    destruct (Nat.eq_dec (nth i idx 0%nat) x); lia.
  - destruct (Nat.eq_dec (nth i idx 0%nat) x), (Nat.eq_dec (nth j idx 0%nat) x); lia.
Qed.

Lemma floor_index u n :
  0 <= u -> u < 1 -> (0 < n)%nat ->
  (Z.to_nat (Qfloor (u * inject_Z (Z.of_nat n))) < n)%nat.
Proof.
  intros H0 H1 Hn.
  pose proof (inject_nat_pos n Hn) as Hp.
  assert (Hlt : u * inject_Z (Z.of_nat n) < inject_Z (Z.of_nat n)) by nra.
  pose proof (Qfloor_le (u * inject_Z (Z.of_nat n))) as Hf.
  assert (Hz : (Qfloor (u * inject_Z (Z.of_nat n)) < Z.of_nat n)%Z).
  { rewrite Zlt_Qlt. lra. }
  lia.
Qed.

Lemma forEach_draws {A X} (P : A -> Prop) (d : nat) (body : A -> X -> Rand A) xs :
  (forall a x c, P a -> P (fst (body a x c)) /\ snd (body a x c) = (c + d)%nat) ->
  forall a c, P a ->
  P (fst (forEach xs body a c)) /\ snd (forEach xs body a c) = (c + length xs * d)%nat.
Proof.
  intros Hb. induction xs as [|x xs IH]; intros a c Ha.
  - cbn. split; [exact Ha | lia].
  - cbn [forEach]. unfold bind. destruct (Hb a x c Ha) as [H1 H2].
    destruct (IH (fst (body a x c)) (snd (body a x c)) H1) as [I1 I2].
    split; [exact I1|]. rewrite I2, H2. cbn [length]. lia.
Qed.

Section Training.
Variable rt : Runtime.

Lemma shuffleFrom_draws i : forall idx c,
  snd (shuffleFrom rt i idx c) = (c + i)%nat.
Proof.
  induction i as [|i IH]; intros idx c.
  - cbn. lia.
  - cbn [shuffleFrom]. unfold bind, random. cbn [fst snd]. rewrite IH. lia.
Qed.

Lemma shuffleFrom_Permutation i :
  (forall k, 0 <= Math_random rt k /\ Math_random rt k < 1) ->
  forall idx c,
  (i < length idx \/ i = 0)%nat -> Permutation (fst (shuffleFrom rt i idx c)) idx.
Proof.
  intros random_unit. induction i as [|i IH]; intros idx c Hi.
  - cbn. reflexivity.
  - cbn [shuffleFrom]. unfold bind, random. cbn [fst snd].
    destruct (random_unit c) as [U0 U1].
    assert (Hj : (Z.to_nat (Qfloor (Math_random rt c * inject_Z (Z.of_nat (S i + 1))))
                  < S i + 1)%nat) by (apply floor_index; [assumption .. | lia]).
    set (j := Z.to_nat (Qfloor (Math_random rt c * inject_Z (Z.of_nat (S i + 1))))) in *.
    assert (Hl : (S i < length idx)%nat) by lia.
    pose proof (swap_Permutation idx (S i) j Hl ltac:(lia)) as Hs.
    rewrite IH; [exact Hs|].
    left. rewrite (Permutation_length Hs). lia.
Qed.

Lemma initRow_spec D : forall c,
  length (fst (initRow rt D c)) = D /\ snd (initRow rt D c) = (c + D)%nat.
Proof.
  induction D as [|D IH]; intros c.
  - cbn. split; [reflexivity | lia].
  - cbn [initRow]. unfold bind, random, ret. cbn [fst snd].
    destruct (IH (S c)) as [I1 I2]. split; [cbn; now rewrite I1 | lia].
Qed.

Lemma initRows_spec K D : forall c,
  length (fst (initRows rt K D c)) = K /\
  Forall (fun row => length row = D) (fst (initRows rt K D c)) /\
  snd (initRows rt K D c) = (c + K * D)%nat.
Proof.
  induction K as [|K IH]; intros c.
  - cbn. repeat split; [constructor | lia].
  - cbn [initRows]. unfold bind, ret. cbn [fst snd].
    destruct (initRow_spec D c) as [R1 R2].
    destruct (IH (snd (initRow rt D c))) as (I1 & I2 & I3).
    split; [cbn; now rewrite I1|]. split; [now constructor|].
    rewrite I3, R2. lia.
Qed.

Lemma batchStep_shaped X Y N D lr l2 batchSize idx m bstart :
  shaped (length OUTCOMES) D (batchStep rt X Y N D lr l2 batchSize idx m bstart).
Proof.
  unfold batchStep, shaped. cbn [W b]. rewrite !length_map, !length_seq.
  split; [reflexivity|]. split; [|reflexivity].
  apply Forall_forall. intros row Hr. apply in_map_iff in Hr.
  destruct Hr as (k & <- & _). now rewrite length_map, length_seq.
Qed.

Lemma epochStep_spec X Y N D lr l2 batchSize m ep c :
  shaped (length OUTCOMES) D m ->
  shaped (length OUTCOMES) D (fst (epochStep rt X Y N D lr l2 batchSize m ep c)) /\
  snd (epochStep rt X Y N D lr l2 batchSize m ep c) = (c + (N - 1))%nat.
Proof.
  intros Hm. unfold epochStep, bind, ret. cbn [fst snd]. split.
  - apply fold_left_inv; [exact Hm|]. intros a x _ _. apply batchStep_shaped.
  - apply shuffleFrom_draws.
Qed.

(** *** The tallies of the backtest *)

Lemma walkStep_tallied now history st i c :
  tallied st -> tallied (fst (walkStep rt now history st i c)) /\
  (tested st <= tested (fst (walkStep rt now history st i c)) <= tested st + 1)%nat /\
  (correct (fst (walkStep rt now history st i c))
   <= correct st + (tested (fst (walkStep rt now history st i c)) - tested st))%nat /\
  (correct st <= correct (fst (walkStep rt now history st i c)))%nat /\
  ((N_WINDOW + 10 <= i < length history)%nat ->
   tested (fst (walkStep rt now history st i c)) = (tested st + 1)%nat).
Proof.
  intros (H1 & H2 & H3). unfold walkStep.
  destruct (nth_error history i) as [e|] eqn:E.
  2:{ cbn [fst ret]. repeat split; try assumption; try lia.
      intros Hi. apply nth_error_None in E. lia. }
  rewrite length_map, length_seq.
  destruct (length (slice 0 i history) - N_WINDOW <? 10)%nat eqn:El.
  { cbn [fst ret]. repeat split; try assumption; try lia.
    intros Hi. apply Nat.ltb_lt in El. rewrite slice_from_0, length_firstn in El.
    unfold N_WINDOW in *. lia. }
  unfold bind, ret, tallied. cbn [fst snd tested correct perOutcome].
  set (pick := fst (argmaxWithRandomTie rt _ _)).
  destruct (opt_eqb pick (outcome e)) eqn:Eh.
  - repeat split; try lia.
    + destruct (outcome e); cbn [Outcome_eqb fst snd]; lia.
    + destruct (outcome e); cbn [Outcome_eqb fst snd]; lia.
    + intros o. pose proof (H3 o). pose proof (H3 (outcome e)).
      destruct (Outcome_eqb o (outcome e)); cbn [fst snd]; lia.
  - repeat split; try lia.
    + destruct (outcome e); cbn [Outcome_eqb fst snd]; lia.
    + destruct (outcome e); cbn [Outcome_eqb fst snd]; lia.
    + intros o. pose proof (H3 o). pose proof (H3 (outcome e)).
      destruct (Outcome_eqb o (outcome e)); cbn [fst snd]; lia.
Qed.

Lemma forEach_walk_tallied now history idxs : forall st c,
  tallied st -> (correct st <= tested st)%nat ->
  tallied (fst (forEach idxs (walkStep rt now history) st c)) /\
  (correct (fst (forEach idxs (walkStep rt now history) st c))
   <= tested (fst (forEach idxs (walkStep rt now history) st c)))%nat /\
  (tested (fst (forEach idxs (walkStep rt now history) st c))
   <= tested st + length idxs)%nat /\
  ((forall i, In i idxs -> (N_WINDOW + 10 <= i < length history)%nat) ->
   tested (fst (forEach idxs (walkStep rt now history) st c))
   = (tested st + length idxs)%nat).
Proof.
  induction idxs as [|i idxs IH]; intros st c Ht Hc.
  - cbn. repeat split; try apply Ht; lia.
  - cbn [forEach]. unfold bind.
    destruct (walkStep_tallied now history st i c Ht) as (S1 & S2 & S3 & S4 & S5).
    destruct (IH (fst (walkStep rt now history st i c)) (snd (walkStep rt now history st i c))
                 S1 ltac:(lia)) as (I1 & I2 & I3 & I4).
    split; [exact I1|]. split; [exact I2|]. cbn [length]. split; [lia|].
    intros Hall. rewrite I4 by (intros j Hj; apply Hall; now right).
    rewrite S5 by (apply Hall; now left). lia.
Qed.

End Training.

(** *** Accuracy tracking *)

Lemma tally_from t p all rounds :
  lastPick t = Some p -> recentPredictions t = slice_last RECENT_WINDOW all ->
  totalPred (fold_left tallyRound rounds t) = (totalPred t + length rounds)%nat /\
  correctPred (fold_left tallyRound rounds t)
  = (correctPred t + length (filter (fun ok => ok) (scored p rounds)))%nat /\
  recentPredictions (fold_left tallyRound rounds t)
  = slice_last RECENT_WINDOW (all ++ scored p rounds).
Proof.
  revert t p all. induction rounds as [|[o pk] rounds IH]; intros t p all Hp Hr.
  - cbn. rewrite app_nil_r. repeat split; try lia. exact Hr.
  - cbn [fold_left scored].
    assert (E : tallyRound t (o, pk) =
                mkTally (Some pk) (totalPred t + 1)
                        (if opt_eqb p o then correctPred t + 1 else correctPred t)%nat
                        (push_capped RECENT_WINDOW (recentPredictions t) (opt_eqb p o))).
    { unfold tallyRound, evaluateLastPick. rewrite Hp. reflexivity. }
    set (t1 := tallyRound t (o, pk)) in *.
    destruct (IH t1 pk (all ++ [opt_eqb p o])) as (I1 & I2 & I3).
    + now rewrite E.
    + rewrite E. cbn [recentPredictions]. rewrite Hr. apply push_capped_slice_last.
    + rewrite I1, I2, I3, E. cbn [totalPred correctPred filter length].
      rewrite <- app_assoc. cbn [app].
      destruct (opt_eqb p o); cbn [length]; repeat split; lia.
Qed.

Lemma scored_length rounds : forall p, length (scored p rounds) = length rounds.
Proof.
  induction rounds as [|[o pk] r IH]; intros p; cbn; [reflexivity|]. now rewrite IH.
Qed.

(** *** Recorded entries stay apart *)

Lemma append_keeps_spacing now1 now2 history o :
  (now1 <= now2)%Z -> spaced history ->
  (forall e, nth_error history (length history - 1) = Some e ->
             outcome e = o -> (2000 <= now1 - ts e)%Z) ->
  spaced (history ++ [mkEntry now2 o]).
Proof.
  intros Hnow Hsp Hlast i e1 e2 H1 H2 Ho.
  destruct (Nat.lt_ge_cases (S i) (length history)) as [Hlt|Hge].
  - rewrite nth_error_app1 in H1, H2 by lia. now apply (Hsp i).
  - assert (Hi : (i < length history)%nat).
    { destruct (Nat.lt_ge_cases i (length history)) as [Hl|Hg]; [assumption|].
      assert (Hn : nth_error (history ++ [mkEntry now2 o]) (S i) = None).
      { apply nth_error_None. rewrite length_app. cbn. lia. }
      congruence. }
    assert (Hs : S i = length history) by lia.
    rewrite nth_error_app1 in H1 by lia.
    rewrite nth_error_app2 in H2 by lia.
    replace (S i - length history)%nat with 0%nat in H2 by lia.
    cbn in H2. apply some_eq in H2. subst e2. cbn [ts outcome] in *.
    replace (length history - 1)%nat with i in Hlast by lia.
    specialize (Hlast e1 H1 Ho). lia.
Qed.

(** *** Statistical tests *)

Lemma counts_fold_dsum history : forall c,
  dsum (fold_left (fun counts r => add_to counts (outcome r) 1) history c)
  == dsum c + inject_Z (Z.of_nat (length history)).
Proof.
  induction history as [|r history IH]; intros c.
  - cbn [fold_left length]. change (inject_Z (Z.of_nat 0)) with 0. lra.
  - cbn [fold_left length]. rewrite IH, add_to_dsum, inject_nat_S. lra.
Qed.

Lemma binarySeq_In history o :
  In o (binarySeq history) <-> In o (map outcome history) /\ o <> GREEN.
Proof.
  unfold binarySeq. rewrite filter_In. split; intros [H1 H2]; split; try assumption.
  - intros ->. discriminate.
  - destruct o; try reflexivity. congruence.
Qed.

(** Outcomes that are not GREEN and do not show both colours all map to
    the same number. *)
Lemma one_colour (s : list Outcome) :
  (forall o, In o s -> o <> GREEN) -> ~ (In RED s /\ In BLACK s) ->
  exists v, Forall (fun x => x == v) (map redBit s).
Proof.
  intros Hg Hno.
  destruct (in_dec (fun a b : Outcome => ltac:(decide equality) : {a = b} + {a <> b}) RED s)
    as [Hr|Hr].
  - exists 1. apply Forall_forall. intros x Hx. apply in_map_iff in Hx.
    destruct Hx as (o & <- & Ho). destruct o; try reflexivity.
    + exfalso. apply Hno. now split.
    + exfalso. now apply (Hg GREEN).
  - exists 0. apply Forall_forall. intros x Hx. apply in_map_iff in Hx.
    destruct Hx as (o & <- & Ho). destruct o; try reflexivity. contradiction.
Qed.

(** *** Decayed counts, one entry more *)

Lemma marginalCounts_snoc h e o :
  marginalCounts (h ++ [e]) o ==
  DECAY * marginalCounts h o + (if Outcome_eqb o (outcome e) then 1 else 0).
Proof.
  unfold marginalCounts. rewrite length_app. cbn [length].
  rewrite Nat.add_1_r, seq_S, fold_left_app. cbn [fold_left Nat.add].
  remember (length h) as n eqn:En.
  assert (R : forall k,
             fold_left (marginalStep (h ++ [e]) (S n)) (seq 0 n) zero k ==
             DECAY * fold_left (marginalStep h n) (seq 0 n) zero k).
  { apply (fold_left_rel (fun c' c : Dist => forall k, c' k == DECAY * c k)).
    - intros k. unfold zero. ring.
    - intros c' c i Hi Hc k. apply in_seq in Hi. unfold marginalStep.
      rewrite nth_error_app1 by lia.
      destruct (nth_error h i) as [x|] eqn:Ex; [|apply Hc].
      replace (S n - 1 - i)%nat with (S (n - 1 - i)) by lia.
      unfold add_to, set. destruct (Outcome_eqb k (outcome x)).
      + rewrite pow_S by discriminate. rewrite Hc. ring.
      + apply Hc. }
  unfold marginalStep at 1. rewrite nth_error_app2 by lia.
  replace (n - length h)%nat with 0%nat by lia. cbn [nth_error].
  replace (S n - 1 - n)%nat with 0%nat by lia.
  unfold add_to, set. destruct (Outcome_eqb o (outcome e)) eqn:Eo.
  - apply adv_eqb_eq in Eo. subst o. rewrite R. change (pow DECAY 0) with 1. ring.
  - rewrite R. ring.
Qed.

Lemma markovCounts_snoc h e a o :
  markovCounts (h ++ [e]) a o ==
  DECAY * markovCounts h a o
  + (match nth_error h (length h - 1) with
     | Some l => if Outcome_eqb a (outcome l) && Outcome_eqb o (outcome e) then 1 else 0
     | None => 0
     end).
Proof.
  unfold markovCounts. rewrite length_app. cbn [length].
  replace (length h + 1 - 1)%nat with (length h) by lia.
  destruct (length h) as [|m] eqn:En.
  - cbn [seq fold_left Nat.sub].
    destruct h; [|discriminate]. cbn [nth_error]. unfold zero. ring.
  - replace (S m - 1)%nat with m by lia.
    replace (S m + 1)%nat with (S (S m)) by lia.
    rewrite seq_S, fold_left_app. cbn [fold_left].
    replace (1 + m)%nat with (S m) by lia.
    assert (R : forall x y,
               fold_left (markovStep (h ++ [e]) (S (S m))) (seq 1 m) (fun _ => zero) x y ==
               DECAY * fold_left (markovStep h (S m)) (seq 1 m) (fun _ => zero) x y).
    { apply (fold_left_rel (fun c' c : Outcome -> Dist => forall x y, c' x y == DECAY * c x y)).
      - intros x y. unfold zero. ring.
      - intros c' c i Hi Hc x y. apply in_seq in Hi. unfold markovStep.
        rewrite !nth_error_app1 by lia.
        destruct (nth_error h (i - 1)) as [pr|]; [|apply Hc].
        destruct (nth_error h i) as [cu|]; [|apply Hc].
        replace (S (S m) - 1 - i)%nat with (S (S m - 1 - i)) by lia.
        destruct (Outcome_eqb x (outcome pr)) eqn:Ex; [|apply Hc].
        apply adv_eqb_eq in Ex. subst x.
        unfold add_to, set. destruct (Outcome_eqb y (outcome cu)).
        + rewrite pow_S by discriminate. rewrite Hc. ring.
        + apply Hc. }
    unfold markovStep at 1.
    replace (S m - 1)%nat with m by lia.
    rewrite nth_error_app1 by lia.
    rewrite nth_error_app2 by lia.
    replace (S m - length h)%nat with 0%nat by lia. cbn [nth_error].
    destruct (nth_error h m) as [l|] eqn:El.
    2:{ apply nth_error_None in El. lia. }
    replace (S (S m) - 1 - S m)%nat with 0%nat by lia.
    destruct (Outcome_eqb a (outcome l)) eqn:Ea; cbn [andb].
    + apply adv_eqb_eq in Ea. subst a.
      unfold add_to, set. destruct (Outcome_eqb o (outcome e)) eqn:Eo.
      * apply adv_eqb_eq in Eo. subst o. rewrite R. change (pow DECAY 0) with 1. ring.
      * rewrite R. ring.
    + rewrite R. ring.
Qed.


(** *** Every outcome keeps a positive probability *)

Lemma adv_shiftFrom_pos probs v :
  (forall o, 0 < probs o) -> forall k, 0 < shiftFrom probs v k.
Proof.
  intros Hp k. rewrite shiftFrom_values by (specialize (Hp v); lra).
  destruct (shift_bounds (probs v)) as (H1 & H2 & H3); [specialize (Hp v); lra|].
  assert (Hh0 : 0 <= Qmin STREAK_BONUS (probs v * 0.5) / 2) by (apply Qle_shift_div_l; lra).
  pose proof (Hp v). pose proof (Hp k).
  destruct (Outcome_eqb k v); lra.
Qed.

Lemma adv_applyStreakBias_pos probs historyList :
  (forall o, 0 < probs o) -> forall o, 0 < applyStreakBias probs historyList o.
Proof.
  intros Hp. destruct (applyStreakBias_cases probs historyList) as [E|[v E]]; rewrite E;
    [exact Hp | now apply adv_shiftFrom_pos].
Qed.

Section Positivity.
Variable rt : Runtime.
Hypothesis exp_pos : forall x, 0 < Math_exp rt x.

Lemma softmax3_pos a b c :
  exists p q r, softmax rt [a; b; c] = [p; q; r] /\ 0 < p /\ 0 < q /\ 0 < r.
Proof.
  unfold softmax. cbn [map fold_left].
  set (mx := Qmax (Qmax a b) c).
  pose proof (exp_pos (a - mx)). pose proof (exp_pos (b - mx)). pose proof (exp_pos (c - mx)).
  set (ea := Math_exp rt (a - mx)) in *.
  set (eb := Math_exp rt (b - mx)) in *.
  set (ec := Math_exp rt (c - mx)) in *.
  assert (Es : reduce_sum [ea; eb; ec] == ea + eb + ec).
  { unfold reduce_sum. simpl. lra. }
  assert (Hs : ~ reduce_sum [ea; eb; ec] == 0) by (rewrite Es; lra).
  rewrite (truthy_or_nonzero _ _ Hs).
  eexists _, _, _. split; [reflexivity|].
  assert (Hp : 0 < reduce_sum [ea; eb; ec]) by (rewrite Es; lra).
  repeat split; apply Qlt_shift_div_l; lra.
Qed.

Lemma ensemblePredict_pos now history model k :
  0 < ensemblePredict rt now history model k.
Proof.
  revert k. unfold ensemblePredict.
  set (feat := buildFeatureFromHistory rt now history (length history)).
  set (logreg := match predictSoftmaxModel rt model feat with
                 | Some probs => probs
                 | None => uniform
                 end).
  assert (Hl : forall k, 0 < logreg k).
  { unfold logreg. destruct model as [m|].
    - unfold predictSoftmaxModel, logitsOf. cbn [map seq length OUTCOMES].
      destruct (softmax3_pos (dotRowVec (nth 0 (W m) []) feat + nth 0 (b m) 0)
                             (dotRowVec (nth 1 (W m) []) feat + nth 1 (b m) 0)
                             (dotRowVec (nth 2 (W m) []) feat + nth 2 (b m) 0))
        as (p & q & r & E & Hp & Hq & Hr).
      rewrite E. intros []; cbn [indexOf nth]; assumption.
    - intros k. cbn [predictSoftmaxModel]. rewrite adv_uniform_value. lra. }
  set (mk := match nth_error history (length history - 1) with
             | Some e => buildMarkov history (outcome e)
             | None => buildMarginal history
             end).
  assert (Hm : forall k, 0 <= mk k).
  { intros k. unfold mk.
    destruct (nth_error _ _); [apply buildMarkov_row | apply buildMarginal_nonneg]. }
  set (combined := fun o => MIX_LOGREG * truthy_or (logreg o) 0
                            + MIX_MARKOV * truthy_or (mk o) 0
                            + MIX_MARG * truthy_or (buildMarginal history o) 0).
  assert (Hc : forall k, 0 < combined k).
  { intros k. unfold combined. rewrite !truthy_or_0.
    pose proof (Hm k). pose proof (buildMarginal_nonneg history k). pose proof (Hl k).
    unfold MIX_MARKOV, MIX_MARG, MIX_LOGREG. lra. }
  pose proof (adv_applyStreakBias_pos combined (map outcome history) Hc) as Hb.
  assert (Hs : 0 < dsum (applyStreakBias combined (map outcome history))).
  { rewrite adv_dsum3. pose proof (Hb RED). pose proof (Hb BLACK). pose proof (Hb GREEN). lra. }
  intros k. rewrite truthy_or_nonzero by lra.
  apply Qlt_shift_div_l; [exact Hs|]. specialize (Hb k). lra.
Qed.

End Positivity.
End AdvancedFacts.

(** ** redblack_predictor_fixed.cjs (index.cjs) *)
Module FixedFacts.
Import Fixed.

Lemma fx_eqb_refl a : Outcome_eqb a a = true.
Proof. now destruct a. Qed.

Lemma fx_dsum3 (d : Dist) : dsum d == d RED + d BLACK + d GREEN.
Proof. unfold dsum, table_sum, table_values, reduce_sum. simpl. lra. Qed.

Lemma normalizeDict_value d o : ~ dsum d == 0 -> normalizeDict d o == d o / dsum d.
Proof.
  intros H. unfold normalizeDict, table_normalize. fold (dsum d).
  rewrite truthy_or_nonzero by exact H. reflexivity.
Qed.

Lemma normalizeDict_sum d : ~ dsum d == 0 -> dsum (normalizeDict d) == 1.
Proof. apply table_normalize_sum. Qed.

Lemma normalizeDict_pos d :
  (forall o, 0 < d o) -> dsum (normalizeDict d) == 1 /\ forall o, 0 < normalizeDict d o.
Proof.
  intros H.
  assert (Hs : 0 < dsum d).
  { rewrite fx_dsum3. pose proof (H RED). pose proof (H BLACK). pose proof (H GREEN). lra. }
  split.
  - apply normalizeDict_sum. lra.
  - intros o. rewrite normalizeDict_value by lra.
    apply Qlt_shift_div_l; [exact Hs|]. specialize (H o). lra.
Qed.

(** *** Streak bias *)

Lemma fx_shift_bounds p :
  0 <= p ->
  0 <= Qmin STREAK_BONUS (p * 0.5) /\
  Qmin STREAK_BONUS (p * 0.5) <= STREAK_BONUS /\
  Qmin STREAK_BONUS (p * 0.5) <= p * 0.5.
Proof.
  intros Hp. split; [|split].
  - apply Q.min_glb; [unfold STREAK_BONUS; lra | lra].
  - apply Q.le_min_l.
  - apply Q.le_min_r.
Qed.

(** The table handed to [normalizeDict], in closed form. *)
Lemma fx_shifted probs v :
  0 <= probs v ->
  exists adj : Dist,
    shiftFrom probs v = normalizeDict adj /\
    forall k, adj k == if Outcome_eqb k v
                       then probs v - Qmin STREAK_BONUS (probs v * 0.5)
                       else probs k + Qmin STREAK_BONUS (probs v * 0.5) / 2.
Proof.
  intros Hp. eexists. split; [reflexivity|].
  destruct (fx_shift_bounds _ Hp) as (H1 & H2 & H3).
  intros k.
  destruct v, k;
    cbv [OUTCOMES filter Outcome_eqb negb length fold_left set
         Z.of_nat Pos.of_succ_nat Pos.succ inject_Z];
    rewrite ?truthy_or_0; try reflexivity; apply Q.max_r; lra.
Qed.

Lemma fx_shiftFrom_values probs v :
  is_dist probs ->
  forall k, shiftFrom probs v k ==
            if Outcome_eqb k v
            then probs v - Qmin STREAK_BONUS (probs v * 0.5)
            else probs k + Qmin STREAK_BONUS (probs v * 0.5) / 2.
Proof.
  intros [Hnn Hsum] k.
  destruct (fx_shifted probs v (Hnn v)) as (adj & E & Hadj). rewrite E.
  rewrite fx_dsum3 in Hsum.
  pose proof (half_twice (Qmin STREAK_BONUS (probs v * 0.5))) as Hh.
  assert (Hs : dsum adj == 1).
  { rewrite fx_dsum3, !Hadj. destruct v; cbn [Outcome_eqb]; lra. }
  rewrite normalizeDict_value by (rewrite Hs; lra).
  rewrite Hs, Hadj. field.
Qed.

Lemma fx_shiftFrom_bound probs v :
  is_dist probs ->
  shiftFrom probs v v <= probs v /\ probs v - shiftFrom probs v v <= STREAK_BONUS.
Proof.
  intros Hd. rewrite fx_shiftFrom_values by exact Hd. rewrite fx_eqb_refl.
  destruct Hd as [Hnn _].
  destruct (fx_shift_bounds _ (Hnn v)) as (H1 & H2 & H3). split; lra.
Qed.

Lemma fx_shiftFrom_dist probs v : is_dist probs -> is_dist (shiftFrom probs v).
Proof.
  intros Hd. pose proof (fx_shiftFrom_values probs v Hd) as Hv.
  destruct Hd as [Hnn Hsum]. rewrite fx_dsum3 in Hsum.
  destruct (fx_shift_bounds _ (Hnn v)) as (H1 & H2 & H3).
  pose proof (Hnn RED). pose proof (Hnn BLACK). pose proof (Hnn GREEN).
  pose proof (half_twice (Qmin STREAK_BONUS (probs v * 0.5))) as Hh.
  assert (Hh0 : 0 <= Qmin STREAK_BONUS (probs v * 0.5) / 2) by (apply Qle_shift_div_l; lra).
  split.
  - intros k. rewrite Hv. destruct v, k; cbn [Outcome_eqb]; lra.
  - rewrite fx_dsum3, !Hv. destruct v; cbn [Outcome_eqb]; lra.
Qed.

Lemma fx_streakOf_applies probs history v :
  streakOf history v -> applyStreakBias probs history = shiftFrom probs v.
Proof.
  intros [Hlen Hall]. unfold applyStreakBias.
  replace (length history <? STREAK_WINDOW)%nat with false
    by (symmetry; apply Nat.ltb_ge; exact Hlen).
  pose proof (length_slice_last _ _ Hlen) as Hl.
  destruct (slice_last STREAK_WINDOW history) as [|x rest] eqn:E; [discriminate|].
  assert (Hx : x = v) by now inversion Hall.
  subst x.
  replace (forallb (fun y => Outcome_eqb y v) (v :: rest)) with true; [reflexivity|].
  symmetry. apply forallb_forall. intros y Hy.
  rewrite Forall_forall in Hall. rewrite (Hall y Hy). apply fx_eqb_refl.
Qed.

Lemma fx_applyStreakBias_dist probs history :
  is_dist probs -> is_dist (applyStreakBias probs history).
Proof.
  intros Hd. unfold applyStreakBias.
  destruct (length history <? STREAK_WINDOW)%nat; [exact Hd|].
  destruct (slice_last STREAK_WINDOW history) as [|v rest]; [exact Hd|].
  destruct (forallb _ _); [now apply fx_shiftFrom_dist | exact Hd].
Qed.

(** *** The running counts stay positive *)

Lemma set_pos (d : Dist) k v : (forall o, 0 < d o) -> 0 < v -> forall o, 0 < set d k v o.
Proof. intros Hd Hv o. unfold set. destruct (Outcome_eqb o k); [exact Hv | apply Hd]. Qed.

Lemma updateModel_positive st observed : positive st -> positive (updateModel st observed).
Proof.
  intros [Ht Hm].
  assert (Ht' : forall a b, 0 < trans st a b * DECAY).
  { intros a b. specialize (Ht a b). unfold DECAY.
    apply Qmult_lt_0_compat; lra. }
  assert (Hm' : forall a, 0 < marg st a * DECAY).
  { intros a. specialize (Hm a). unfold DECAY. apply Qmult_lt_0_compat; lra. }
  unfold positive, updateModel, decayCounts. cbn [lastOutcome trans marg]. split.
  - intros a b. destruct (lastOutcome st) as [l|]; [|apply Ht'].
    destruct (Outcome_eqb a l); [|apply Ht'].
    apply (set_pos (fun b => trans st l b * DECAY)); [apply Ht'|].
    specialize (Ht' l observed). lra.
  - apply (set_pos (fun a => marg st a * DECAY)); [apply Hm'|].
    specialize (Hm' observed). lra.
Qed.

Lemma replay_positive observed : positive (replay observed).
Proof.
  unfold replay. apply (fold_left_inv positive).
  - split; intros; unfold initState, ALPHA; cbn; lra.
  - intros st o _ H. now apply updateModel_positive.
Qed.

Lemma predictDistribution_sum st historySnapshot :
  positive st -> dsum (predictDistribution st historySnapshot) == 1.
Proof.
  intros [Ht Hm]. unfold predictDistribution.
  set (baseCond := match lastOutcome st with
                   | Some l => normalizeDict (trans st l)
                   | None => normalizeDict (marg st)
                   end).
  assert (Hb : dsum baseCond == 1 /\ forall o, 0 < baseCond o).
  { unfold baseCond. destruct (lastOutcome st); apply normalizeDict_pos; auto. }
  destruct (normalizeDict_pos (marg st) Hm) as [Hg1 Hg2].
  destruct Hb as [Hb1 Hb2].
  set (blended := fun o => (1 - MIX_GLOBAL) * truthy_or (baseCond o) 0
                           + MIX_GLOBAL * truthy_or (normalizeDict (marg st) o) 0).
  assert (Hbl : is_dist blended).
  { rewrite fx_dsum3 in Hb1, Hg1.
    pose proof (Hb2 RED). pose proof (Hb2 BLACK). pose proof (Hb2 GREEN).
    pose proof (Hg2 RED). pose proof (Hg2 BLACK). pose proof (Hg2 GREEN).
    split.
    - intros o. unfold blended. rewrite !truthy_or_0. unfold MIX_GLOBAL.
      destruct o; lra.
    - rewrite fx_dsum3. unfold blended. rewrite !truthy_or_0. unfold MIX_GLOBAL. lra. }
  destruct (fx_applyStreakBias_dist blended historySnapshot Hbl) as [_ Hs].
  apply normalizeDict_sum. rewrite Hs. lra.
Qed.

(** *** argmax *)

(** [argmax] returns the first key, in the order RED, BLACK, GREEN, that
    holds the largest value. *)
Lemma fx_argmax_first_max dict :
  (argmax dict = Some RED <-> dict BLACK <= dict RED /\ dict GREEN <= dict RED) /\
  (argmax dict = Some BLACK <-> dict RED < dict BLACK /\ dict GREEN <= dict BLACK) /\
  (argmax dict = Some GREEN <-> dict RED < dict GREEN /\ dict BLACK < dict GREEN).
Proof.
  unfold argmax. cbn [fold_left OUTCOMES].
  destruct (Qgtb (dict BLACK) (dict RED)) eqn:E1;
    destruct (Qgtb (dict GREEN) _) eqn:E2; cbn [option_map fst];
    try apply Qgtb_true in E1; try apply Qgtb_false in E1;
    try apply Qgtb_true in E2; try apply Qgtb_false in E2;
    repeat split; try discriminate; try lra;
    try (intros [? ?]; exfalso; lra).
Qed.


(** *** The counts after one more outcome *)

Lemma fx_eqb_eq a b : Outcome_eqb a b = true <-> a = b.
Proof. destruct a, b; cbn; split; congruence. Qed.

Lemma updateModel_marg st observed o :
  marg (updateModel st observed) o ==
  marg st o * DECAY + (if Outcome_eqb o observed then 1 else 0).
Proof.
  unfold updateModel, decayCounts, set. cbn [marg].
  destruct (Outcome_eqb o observed) eqn:E; [|lra].
  apply fx_eqb_eq in E. subst. lra.
Qed.

Lemma updateModel_trans st observed a o :
  trans (updateModel st observed) a o ==
  trans st a o * DECAY
  + (match lastOutcome st with
     | Some l => if Outcome_eqb a l && Outcome_eqb o observed then 1 else 0
     | None => 0
     end).
Proof.
  unfold updateModel, decayCounts, set. cbn [trans lastOutcome].
  destruct (lastOutcome st) as [l|]; [|lra].
  destruct (Outcome_eqb a l) eqn:Ea; cbn [andb]; [|lra].
  apply fx_eqb_eq in Ea. subst a.
  destruct (Outcome_eqb o observed) eqn:Eo; [|lra].
  apply fx_eqb_eq in Eo. subst. lra.
Qed.

Lemma updateModel_bounded st observed : bounded st -> bounded (updateModel st observed).
Proof.
  intros [[M1 M2] HT]. split.
  - rewrite fx_dsum3 in *. rewrite !updateModel_marg. unfold DECAY.
    destruct observed; cbn [Outcome_eqb]; split; lra.
  - intros a. destruct (HT a) as [T1 T2]. rewrite fx_dsum3 in *.
    rewrite !updateModel_trans. unfold DECAY.
    destruct (lastOutcome st) as [l|]; [|split; lra].
    destruct (Outcome_eqb a l); cbn [andb]; [|split; lra].
    destruct observed; cbn [Outcome_eqb]; split; lra.
Qed.

Lemma replay_snoc observed o : replay (observed ++ [o]) = updateModel (replay observed) o.
Proof. unfold replay. now rewrite fold_left_app. Qed.

Lemma replay_lastOutcome observed :
  lastOutcome (replay observed) = nth_error observed (length observed - 1).
Proof.
  destruct observed as [|x xs] using rev_ind; [reflexivity|].
  rewrite replay_snoc. cbn [updateModel lastOutcome].
  rewrite length_app. cbn [length]. rewrite nth_error_app2 by lia.
  replace (length xs + 1 - 1 - length xs)%nat with 0%nat by lia. reflexivity.
Qed.

Lemma toAdvanced_eqb a b :
  Advanced.Outcome_eqb (toAdvanced a) (toAdvanced b) = Outcome_eqb a b.
Proof. destruct a, b; reflexivity. Qed.

(** The last entry of a History that shows the observed outcomes shows
    the last of them. *)
Lemma last_entry_outcome (h : Advanced.History) observed :
  map Advanced.outcome h = map toAdvanced observed ->
  option_map Advanced.outcome (nth_error h (length h - 1))
  = option_map toAdvanced (nth_error observed (length observed - 1)).
Proof.
  intros Hh.
  assert (Hlen : length h = length observed).
  { apply (f_equal (@length _)) in Hh. now rewrite !length_map in Hh. }
  rewrite Hlen, <- !nth_error_map, Hh. reflexivity.
Qed.

(** *** The monitor *)

Lemma argmax_some dict : exists o, argmax dict = Some o.
Proof.
  unfold argmax. cbn [fold_left OUTCOMES].
  destruct (Qgtb (dict BLACK) (dict RED)); destruct (Qgtb (dict GREEN) _);
    eexists; reflexivity.
Qed.

Lemma observe_fields m observed :
  model (observe m observed) = updateModel (model m) observed /\
  outcomesList (observe m observed) = push_capped 1000 (outcomesList m) observed /\
  prevPrediction (observe m observed) =
    argmax (predictDistribution (updateModel (model m) observed)
                                (push_capped 1000 (outcomesList m) observed)).
Proof.
  unfold observe, persistOutcome, comparePrediction.
  destruct (prevPrediction m); cbn [model outcomesList prevPrediction]; repeat split.
Qed.

Lemma observe_all os : forall m all,
  outcomesList m = slice_last 1000 all ->
  model (fold_left observe os m) = fold_left updateModel os (model m) /\
  outcomesList (fold_left observe os m) = slice_last 1000 (all ++ os).
Proof.
  induction os as [|o os IH]; intros m all Hm.
  - cbn. rewrite app_nil_r. split; [reflexivity | exact Hm].
  - cbn [fold_left]. destruct (observe_fields m o) as (F1 & F2 & _).
    destruct (IH (observe m o) (all ++ [o])) as [I1 I2].
    { rewrite F2, Hm. apply push_capped_slice_last. }
    rewrite I1, I2, F1, <- app_assoc. split; reflexivity.
Qed.

Lemma loadPersistedOutcomes_init file :
  (length (outcomesList (loadPersistedOutcomes initMonitor file)) <= 500)%nat /\
  model (loadPersistedOutcomes initMonitor file)
  = replay (outcomesList (loadPersistedOutcomes initMonitor file)) /\
  tally_ok (loadPersistedOutcomes initMonitor file) /\
  totalPred (loadPersistedOutcomes initMonitor file) = 0%nat /\
  prevPrediction (loadPersistedOutcomes initMonitor file) = None.
Proof.
  unfold loadPersistedOutcomes, tally_ok. destruct file as [arr|].
  - cbn [outcomesList model initMonitor trans marg totalPred correctPred recent
         prevPrediction initState].
    split; [unfold slice_last; rewrite length_skipn; lia|].
    split; [reflexivity|]. cbn. repeat split; lia.
  - cbn. repeat split; lia.
Qed.

Lemma observe_tally m observed :
  tally_ok m ->
  tally_ok (observe m observed) /\
  totalPred (observe m observed) =
    (totalPred m + match prevPrediction m with Some _ => 1 | None => 0 end)%nat /\
  (exists pred, prevPrediction (observe m observed) = Some pred).
Proof.
  intros (H1 & H2 & H3). unfold observe, persistOutcome, comparePrediction, tally_ok.
  destruct (prevPrediction m) as [pred|];
    cbn [model outcomesList prevPrediction totalPred correctPred recent].
  - pose proof (filter_push_capped RECENT_WINDOW (recent m) (Outcome_eqb pred observed)) as Hf.
    rewrite length_push_capped by (rewrite H2; lia).
    repeat split; try apply argmax_some; destruct (Outcome_eqb pred observed); lia.
  - repeat split; try apply argmax_some; lia.
Qed.

Lemma observe_all_tally os : forall m,
  tally_ok m -> (exists pred, prevPrediction m = Some pred) ->
  tally_ok (fold_left observe os m) /\
  totalPred (fold_left observe os m) = (totalPred m + length os)%nat.
Proof.
  induction os as [|o os IH]; intros m Tm [pred Pm].
  - cbn. split; [exact Tm | lia].
  - cbn [fold_left length]. destruct (observe_tally m o Tm) as (Ta & Na & Pa).
    rewrite Pm in Na. destruct (IH (observe m o) Ta Pa) as [Ib Nb].
    split; [exact Ib | lia].
Qed.

(** *** The scraped text *)

Lemma test_words w up :
  w <> ""%string ->
  Forall (fun c => is_word c = true) (list_ascii_of_string w) ->
  test w up = existsb (list_ascii_eqb (list_ascii_of_string w)) (words up).
Proof.
  intros Hne Hw. unfold test.
  rewrite (search_first_listed [(list_ascii_of_string w, tt)]).
  - rewrite first_listed_single. now destruct (existsb _ _).
  - intros a [<-|[]]. cbn [fst]. split; [|exact Hw].
    destruct w; [now elim Hne | discriminate].
Qed.


(** *** Every outcome keeps a positive probability *)


End FixedFacts.

(** * The claims *)

(** ** C1: normalization *)

(** C1, counterexample.  The decayed-frequency marginal of the advanced
    predictor has no prior: built from the empty History every bucket is 0,
    the total is replaced by 1 and the values returned sum to 0, which is
    not within 1e-6 of 1.  (In sportypredictor the blend that comes out of
    the streak adjustment on the empty History sums to 0.97 with the
    default weights; only the final [normalize] brings it to 1.) *)
Lemma empty_marginal_sum_not_one :
  Advanced.dsum (Advanced.buildMarginal []) == 0 /\
  ~ Qabs (Advanced.dsum (Advanced.buildMarginal []) - 1) <= 1e-6 /\
  Sporty.dsum
    (Sporty.applyStreakAdjustment
       (Sporty.combinedSlot Sporty.defaultWeights [] (Sporty.buildModels []) None 0) [] 0)
  == 0.97.
Proof.
  split; [reflexivity|]. split; [|reflexivity].
  intros H. vm_compute in H. apply H. reflexivity.
Qed.

(** C1, amended.  With the arithmetic read exactly, for every History:
    - sportypredictor: every slot posterior, the global posterior, every
      Markov row and every pattern row sums to 1; the streak adjustment of a
      distribution sums to 1; the weighted blend of a slot sums to the
      normalized share of the slot, Markov and pattern weights; every slot
      of the ensemble output sums to 1 when the weights in force are usable
      (none negative, and slot + markov + pattern > 0);
    - advanced predictor: every Markov row sums to 1; the marginal sums to 1
      on a non-empty History and to 0 on the empty one; the streak bias
      keeps a distribution a distribution; with a positive [Math.exp] the
      classifier output and the ensemble output sum to 1;
    - index.cjs: [normalizeDict] of a table with a non-zero total sums to 1,
      and [predictDistribution] sums to 1 after any sequence of updates. *)
Theorem normalization_invariant :
  (forall history : Sporty.History,
      (forall s, Sporty.dsum (Sporty.slotPosteriors (Sporty.buildModels history) s) == 1) /\
      Sporty.dsum (Sporty.globalPosterior (Sporty.buildModels history)) == 1 /\
      (forall s prev,
          Sporty.dsum (Sporty.markovProbs (Sporty.buildModels history) s prev) == 1) /\
      (forall key arr s,
          Sporty.patternProbs (Sporty.buildModels history) key = Some arr ->
          Sporty.dsum (arr s) == 1) /\
      (forall probs s,
          Sporty.is_dist probs ->
          Sporty.dsum (Sporty.applyStreakAdjustment probs history s) == 1) /\
      (forall W weights s,
          Sporty.dsum (Sporty.combinedSlot W history (Sporty.buildModels history)
                                           weights s)
          == Sporty.slot (Sporty.normalizedWeights W weights)
             + Sporty.markov (Sporty.normalizedWeights W weights)
             + Sporty.pattern (Sporty.normalizedWeights W weights)) /\
      (forall W weights s,
          Sporty.usable (Sporty.chosenWeights W weights) ->
          Sporty.dsum (Sporty.blendedSlot W history (Sporty.buildModels history)
                                          weights s) == 1)) /\
  (forall history : Advanced.History,
      (forall a, Advanced.dsum (Advanced.buildMarkov history a) == 1) /\
      (history <> [] -> Advanced.dsum (Advanced.buildMarginal history) == 1) /\
      (history = [] -> Advanced.dsum (Advanced.buildMarginal history) == 0) /\
      (forall probs,
          Advanced.is_dist probs ->
          Advanced.is_dist (Advanced.applyStreakBias probs (map Advanced.outcome history))) /\
      (forall rt now model,
          (forall x, 0 < Advanced.Math_exp rt x) ->
          (forall m x d,
              Advanced.predictSoftmaxModel rt (Some m) x = Some d ->
              Advanced.dsum d == 1) /\
          Advanced.dsum (Advanced.ensemblePredict rt now history model) == 1)) /\
  (forall d : Fixed.Dist, ~ Fixed.dsum d == 0 -> Fixed.dsum (Fixed.normalizeDict d) == 1) /\
  (forall observed historySnapshot,
      Fixed.dsum (Fixed.predictDistribution (Fixed.replay observed) historySnapshot) == 1).
Proof.
  split; [|split; [|split]].
  - intros history. repeat split.
    + intros s. apply SportyFacts.slotPosteriors_ok.
    + apply SportyFacts.globalPosterior_ok.
    + intros s prev. apply SportyFacts.markovProbs_ok.
    + intros key arr s H. now apply (SportyFacts.patternProbs_ok history key arr s).
    + intros probs s H. now apply SportyFacts.applyStreakAdjustment_dist_sum.
    + intros W weights s. apply SportyFacts.combinedSlot_sum.
    + intros W weights s H. now apply SportyFacts.blendedSlot_sum.
  - intros history. split; [|split; [|split; [|split]]].
    + intros a. apply AdvancedFacts.buildMarkov_row.
    + apply AdvancedFacts.buildMarginal_sum.
    + intros ->. reflexivity.
    + intros probs [Hnn Hsum].
      destruct (AdvancedFacts.applyStreakBias_conserves probs
                  (map Advanced.outcome history) Hnn) as (H1 & _ & _).
      split.
      * apply AdvancedFacts.applyStreakBias_nonneg, Hnn.
      * now rewrite H1.
    + intros rt now model Hexp. split.
      * intros m x d H. now apply (AdvancedFacts.predictSoftmaxModel_dist rt Hexp m x d).
      * now apply AdvancedFacts.ensemblePredict_sum.
  - apply FixedFacts.normalizeDict_sum.
  - intros observed historySnapshot.
    apply FixedFacts.predictDistribution_sum, FixedFacts.replay_positive.
Qed.

Lemma normalization_invariant_witness :
  Sporty.dsum (Sporty.blendedSlot Sporty.defaultWeights [] (Sporty.buildModels []) None 0) == 1 /\
  Sporty.dsum (Sporty.applyStreakAdjustment Sporty.uniform [] 0) == 1 /\
  (forall arr,
      Sporty.patternProbs
        (Sporty.buildModels
           [Sporty.mkEntry 0 ["R"; "B"; "G"; "R"; "B"]; Sporty.mkEntry 1 ["B"; "B"; "G"; "R"; "B"]]%string)
        "R,B,G,R,B" = Some arr ->
      Sporty.dsum (arr 0%nat) == 1) /\
  Advanced.dsum (Advanced.buildMarginal [Advanced.mkEntry 0 Advanced.RED]) == 1 /\
  Advanced.dsum (Advanced.buildMarginal []) == 0 /\
  Advanced.is_dist
    (Advanced.applyStreakBias Advanced.uniform
       (map Advanced.outcome [Advanced.mkEntry 0 Advanced.RED])) /\
  (forall m x d,
      Advanced.predictSoftmaxModel
        (Advanced.mkRuntime (fun _ => 1) (fun _ => 0) (fun _ => 1) 3 (fun _ => 12) (fun _ => 0))
        (Some m) x = Some d ->
      Advanced.dsum d == 1) /\
  Advanced.dsum
    (Advanced.ensemblePredict
       (Advanced.mkRuntime (fun _ => 1) (fun _ => 0) (fun _ => 1) 3 (fun _ => 12) (fun _ => 0))
       0 [Advanced.mkEntry 0 Advanced.RED] None) == 1 /\
  Fixed.dsum (Fixed.normalizeDict (fun _ => 1)) == 1.
Proof.
  destruct normalization_invariant as (HS & HA & HF & _).
  assert (Hexp : forall x : Q,
             0 < Advanced.Math_exp
                   (Advanced.mkRuntime (fun _ => 1) (fun _ => 0) (fun _ => 1) 3
                                       (fun _ => 12) (fun _ => 0)) x)
    by (intros x; simpl; lra).
  split; [|split; [|split; [|split; [|split; [|split; [|split; [|split]]]]]]].
  - destruct (HS []) as (_ & _ & _ & _ & _ & _ & H). apply H.
    unfold Sporty.usable; simpl; repeat split; lra.
  - destruct (HS []) as (_ & _ & _ & _ & H & _). apply H.
    split; [intros o; vm_compute; discriminate | reflexivity].
  - intros arr Harr.
    destruct (HS [Sporty.mkEntry 0 ["R"; "B"; "G"; "R"; "B"];
                  Sporty.mkEntry 1 ["B"; "B"; "G"; "R"; "B"]]%string)
      as (_ & _ & _ & H & _).
    exact (H _ arr 0%nat Harr).
  - destruct (HA [Advanced.mkEntry 0 Advanced.RED]) as (_ & H & _). apply H. discriminate.
  - destruct (HA []) as (_ & _ & H & _). apply H. reflexivity.
  - destruct (HA [Advanced.mkEntry 0 Advanced.RED]) as (_ & _ & _ & H & _). apply H.
    split; [intros o; vm_compute; discriminate | reflexivity].
  - destruct (HA []) as (_ & _ & _ & _ & H).
    destruct (H _ 0%Z None Hexp) as [Hc _]. exact Hc.
  - destruct (HA [Advanced.mkEntry 0 Advanced.RED]) as (_ & _ & _ & _ & H).
    destruct (H _ 0%Z None Hexp) as [_ He]. exact He.
  - apply HF. vm_compute. discriminate.
Defined.

(** ** C2: empty History *)

(** C2.  On the empty History, with the default weights, [predictEnsemble]
    returns one distribution per slot, each summing to 1 and equal to the
    uniform distribution; [ensemblePredict] of the advanced predictor
    (no trained model) and [predictDistribution] of index.cjs (initial
    counts) return the uniform distribution too. *)
Theorem empty_history_uniform :
  (length (Sporty.blendedSlots
             (Sporty.predictEnsemble Sporty.defaultWeights [] (Sporty.buildModels []) None))
   = Sporty.GAMES_PER_ROUND /\
   Forall (fun d => Sporty.dsum d == 1 /\ forall o, d o == Sporty.uniform o)
          (Sporty.blendedSlots
             (Sporty.predictEnsemble Sporty.defaultWeights [] (Sporty.buildModels []) None))) /\
  (forall rt now,
      Advanced.dsum (Advanced.ensemblePredict rt now [] None) == 1 /\
      forall o, Advanced.ensemblePredict rt now [] None o == Advanced.uniform o) /\
  (Fixed.dsum (Fixed.predictDistribution Fixed.initState []) == 1 /\
   forall o, Fixed.predictDistribution Fixed.initState [] o == 1 # 3).
Proof.
  split; [|split].
  - split; [reflexivity|].
    unfold Sporty.predictEnsemble. cbn [Sporty.blendedSlots].
    apply Forall_forall. intros d Hd. apply in_map_iff in Hd.
    destruct Hd as (s & <- & _). split.
    + apply SportyFacts.blendedSlot_sum.
      unfold Sporty.usable; simpl; repeat split; lra.
    + intros o. rewrite SportyFacts.empty_blended_default. reflexivity.
  - intros rt now. split; [reflexivity|]. intros o.
    rewrite AdvancedFacts.ensemblePredict_empty. reflexivity.
  - split; [reflexivity|]. intros []; reflexivity.
Qed.

(** ** C3: leakage-free backtest *)

(** C3.  The prediction [walkForwardEvaluate] makes for a round is fixed by
    the entries before that round.  sportypredictor: two Histories that
    agree on their first [r] rounds get the same picks for round [r], and
    these are the picks of [predictEnsemble] on [History[0..r)] with models
    built from it.  Advanced predictor: with the same random source, two
    Histories that agree on their first [i] entries get the same
    distribution and pick for round [i], for every [i] from the minimum
    training size on (and a prediction is made as soon as [i >= 20]). *)
Theorem walk_forward_leak_free :
  (forall W weights (h1 h2 : Sporty.History) r,
      (1 <= r < length h1)%nat -> (r < length h2)%nat ->
      firstn r h1 = firstn r h2 ->
      Sporty.predictionFor W h1 weights r = Sporty.predictionFor W h2 weights r /\
      Sporty.predictionFor W h1 weights r =
        Some (Sporty.picks (Sporty.predictEnsemble W (firstn r h1)
                              (Sporty.buildModels (firstn r h1)) weights))) /\
  (forall rt now minTrain drawn (h1 h2 : Advanced.History) i,
      (Advanced.minTrainOf minTrain <= i)%nat ->
      (i < length h1)%nat -> (i < length h2)%nat ->
      firstn i h1 = firstn i h2 ->
      Advanced.predictionFor rt now h1 minTrain drawn i =
        Advanced.predictionFor rt now h2 minTrain drawn i /\
      ((20 <= i)%nat ->
       exists p, Advanced.predictionFor rt now h1 minTrain drawn i = Some p)).
Proof.
  split.
  - intros W weights h1 h2 r Hr1 Hr2 H.
    rewrite (SportyFacts.predictionFor_prefix W h1 weights r Hr1).
    rewrite (SportyFacts.predictionFor_prefix W h2 weights r) by lia.
    rewrite H. split; reflexivity.
  - intros rt now minTrain drawn h1 h2 i Hm H1 H2 H. split.
    + now apply AdvancedFacts.predictions_leak_free.
    + intros H20. apply AdvancedFacts.prediction_made; lia.
Qed.

Lemma walk_forward_leak_free_witness :
  Sporty.predictionFor Sporty.defaultWeights
    [Sporty.mkEntry 0 ["R"; "B"; "G"; "R"; "B"]; Sporty.mkEntry 1 ["B"; "B"; "B"; "B"; "B"]]%string
    None 1 =
  Sporty.predictionFor Sporty.defaultWeights
    [Sporty.mkEntry 0 ["R"; "B"; "G"; "R"; "B"]; Sporty.mkEntry 1 ["G"; "G"; "G"; "G"; "G"];
     Sporty.mkEntry 2 ["R"; "R"; "R"; "R"; "R"]]%string
    None 1 /\
  Advanced.predictionFor
    (Advanced.mkRuntime (fun _ => 1) (fun _ => 0) (fun _ => 1) 3 (fun _ => 12) (fun _ => 0)) 0
    (map (Advanced.mkEntry 0) (repeat Advanced.RED 20 ++ [Advanced.BLACK])) 0 0 20 =
  Advanced.predictionFor
    (Advanced.mkRuntime (fun _ => 1) (fun _ => 0) (fun _ => 1) 3 (fun _ => 12) (fun _ => 0)) 0
    (map (Advanced.mkEntry 0) (repeat Advanced.RED 20 ++ [Advanced.GREEN; Advanced.RED])) 0 0 20 /\
  exists p,
    Advanced.predictionFor
      (Advanced.mkRuntime (fun _ => 1) (fun _ => 0) (fun _ => 1) 3 (fun _ => 12) (fun _ => 0)) 0
      (map (Advanced.mkEntry 0) (repeat Advanced.RED 20 ++ [Advanced.BLACK])) 0 0 20 = Some p.
Proof.
  destruct walk_forward_leak_free as [HS HA]. split; [|split].
  - apply HS; [simpl; lia | simpl; lia | reflexivity].
  - apply HA; [vm_compute; lia | vm_compute; lia | vm_compute; lia | reflexivity].
  - apply (HA _ 0%Z 0%nat 0%nat _
              (map (Advanced.mkEntry 0) (repeat Advanced.RED 20 ++ [Advanced.BLACK])) 20%nat);
      [vm_compute; lia | vm_compute; lia | vm_compute; lia | reflexivity | lia].
Defined.

(** ** C4: streak bound *)

(** C4.  When the last [STREAK_WINDOW] outcomes (of the slot) all equal an
    alphabet member [v], the streak adjustment of a distribution gives [v]
    a probability no larger than before, and what [v] loses is at most
    [STREAK_BONUS]; this holds for [applyStreakAdjustment] of
    sportypredictor and for [applyStreakBias] of the advanced predictor and
    of index.cjs. *)
Theorem streak_bound :
  (forall probs history s v,
      Sporty.is_dist probs -> Sporty.streakOn history s v ->
      Sporty.applyStreakAdjustment probs history s v <= probs v /\
      probs v - Sporty.applyStreakAdjustment probs history s v <= Sporty.STREAK_BONUS) /\
  (forall probs historyList v,
      Advanced.is_dist probs -> Advanced.streakOf historyList v ->
      Advanced.applyStreakBias probs historyList v <= probs v /\
      probs v - Advanced.applyStreakBias probs historyList v <= Advanced.STREAK_BONUS) /\
  (forall probs history v,
      Fixed.is_dist probs -> Fixed.streakOf history v ->
      Fixed.applyStreakBias probs history v <= probs v /\
      probs v - Fixed.applyStreakBias probs history v <= Fixed.STREAK_BONUS).
Proof.
  split; [|split].
  - intros probs history s v Hd Hs.
    rewrite (SportyFacts.streakOn_applies probs history s v Hs).
    now apply SportyFacts.transferFrom_bound.
  - intros probs historyList v [Hnn _] Hs.
    rewrite (AdvancedFacts.streakOf_applies probs historyList v Hs).
    apply AdvancedFacts.shiftFrom_bound, Hnn.
  - intros probs history v Hd Hs.
    rewrite (FixedFacts.fx_streakOf_applies probs history v Hs).
    now apply FixedFacts.fx_shiftFrom_bound.
Qed.

Lemma streak_bound_witness :
  (Sporty.applyStreakAdjustment Sporty.uniform
     [Sporty.mkEntry 0 ["R"; "B"; "G"; "R"; "B"]; Sporty.mkEntry 1 ["R"; "G"; "G"; "B"; "B"];
      Sporty.mkEntry 2 ["R"; "R"; "G"; "R"; "G"]]%string 0 Sporty.R <= Sporty.uniform Sporty.R /\
   Sporty.uniform Sporty.R
   - Sporty.applyStreakAdjustment Sporty.uniform
       [Sporty.mkEntry 0 ["R"; "B"; "G"; "R"; "B"]; Sporty.mkEntry 1 ["R"; "G"; "G"; "B"; "B"];
        Sporty.mkEntry 2 ["R"; "R"; "G"; "R"; "G"]]%string 0 Sporty.R <= Sporty.STREAK_BONUS) /\
  (Advanced.applyStreakBias Advanced.uniform [Advanced.RED; Advanced.RED; Advanced.RED] Advanced.RED
   <= Advanced.uniform Advanced.RED /\
   Advanced.uniform Advanced.RED
   - Advanced.applyStreakBias Advanced.uniform [Advanced.RED; Advanced.RED; Advanced.RED] Advanced.RED
   <= Advanced.STREAK_BONUS) /\
  (Fixed.applyStreakBias (fun _ => 1 # 3) [Fixed.RED; Fixed.RED; Fixed.RED] Fixed.RED <= 1 # 3 /\
   (1 # 3) - Fixed.applyStreakBias (fun _ => 1 # 3) [Fixed.RED; Fixed.RED; Fixed.RED] Fixed.RED
   <= Fixed.STREAK_BONUS).
Proof.
  destruct streak_bound as (HS & HA & HF). split; [|split].
  - apply HS.
    + split; [intros o; vm_compute; discriminate | reflexivity].
    + split; [vm_compute; lia | repeat constructor].
  - apply HA.
    + split; [intros o; vm_compute; discriminate | reflexivity].
    + split; [vm_compute; lia | repeat constructor].
  - apply (HF (fun _ => 1 # 3)).
    + split; [intros o; vm_compute; discriminate | reflexivity].
    + split; [vm_compute; lia | repeat constructor].
Defined.

(** ** C5: tie-break *)

(** C5, counterexample.  On the table [{R: 0.5, B: 0.5, G: 0}] the pick of
    sportypredictor is R: B shares the maximum but is not picked, and no
    random draw enters the choice.  [argmax] of index.cjs picks its first
    key in the same way. *)
Lemma sporty_tie_goes_to_first :
  Sporty.argmax_pick (fun o => match o with Sporty.G => 0 | _ => 0.5 end) = Sporty.R /\
  Sporty.argmax_pick (fun o => match o with Sporty.G => 0 | _ => 0.5 end) <> Sporty.B /\
  Fixed.argmax (fun o => match o with Fixed.GREEN => 0 | _ => 0.5 end) = Some Fixed.RED.
Proof. split; [reflexivity | split; [discriminate | reflexivity]]. Qed.

(** C5, amended.  In the advanced predictor the candidates of
    [argmaxWithRandomTie] are the outcomes within [tol] of the largest
    value, and when there are [m >= 2] of them the candidate number [k] is
    returned exactly when the random draw [u] lies in [[k/m, (k+1)/m)]: each
    tied outcome on an interval of the same length, one value being drawn
    (a single candidate is returned without a draw).  sportypredictor's pick and [argmax] of
    index.cjs involve no draw: each is the first outcome in alphabet order
    that holds the largest value. *)
Theorem tie_break_policy :
  (forall rt dist drawn k,
      0 <= Advanced.Math_random rt drawn -> Advanced.Math_random rt drawn < 1 ->
      (2 <= length (Advanced.candidates dist))%nat ->
      (k < length (Advanced.candidates dist))%nat ->
      snd (Advanced.argmaxWithRandomTie rt dist drawn) = S drawn /\
      (fst (Advanced.argmaxWithRandomTie rt dist drawn)
       = nth_error (Advanced.candidates dist) k
       <->
       inject_Z (Z.of_nat k) / inject_Z (Z.of_nat (length (Advanced.candidates dist)))
       <= Advanced.Math_random rt drawn /\
       Advanced.Math_random rt drawn
       < (inject_Z (Z.of_nat k) + 1)
         / inject_Z (Z.of_nat (length (Advanced.candidates dist))))) /\
  (forall dist,
      exists b, Advanced.bestOf dist = Some b /\
                (forall o, dist o <= b) /\
                (forall o, In o (Advanced.candidates dist)
                           <-> Qabs (dist o - b) <= Advanced.tol)) /\
  (forall rt dist drawn,
      length (Advanced.candidates dist) = 1%nat ->
      Advanced.argmaxWithRandomTie rt dist drawn
      = (nth_error (Advanced.candidates dist) 0, drawn)) /\
  (forall dist,
      (Sporty.argmax_pick dist = Sporty.R <->
       dist Sporty.B <= dist Sporty.R /\ dist Sporty.G <= dist Sporty.R) /\
      (Sporty.argmax_pick dist = Sporty.B <->
       dist Sporty.R < dist Sporty.B /\ dist Sporty.G <= dist Sporty.B) /\
      (Sporty.argmax_pick dist = Sporty.G <->
       dist Sporty.R < dist Sporty.G /\ dist Sporty.B < dist Sporty.G)) /\
  (forall dict,
      (Fixed.argmax dict = Some Fixed.RED <->
       dict Fixed.BLACK <= dict Fixed.RED /\ dict Fixed.GREEN <= dict Fixed.RED) /\
      (Fixed.argmax dict = Some Fixed.BLACK <->
       dict Fixed.RED < dict Fixed.BLACK /\ dict Fixed.GREEN <= dict Fixed.BLACK) /\
      (Fixed.argmax dict = Some Fixed.GREEN <->
       dict Fixed.RED < dict Fixed.GREEN /\ dict Fixed.BLACK < dict Fixed.GREEN)).
Proof.
  split; [|split; [|split; [|split]]].
  - intros rt dist drawn k Hu0 Hu1 Hm Hk.
    now apply AdvancedFacts.tie_break_interval.
  - intros dist. destruct (AdvancedFacts.bestOf_max dist) as (b & Hb & Hmax & _).
    exists b. split; [exact Hb|]. split; [exact Hmax|].
    intros o. now apply AdvancedFacts.candidates_spec.
  - intros rt dist drawn H. now apply AdvancedFacts.single_candidate.
  - apply SportyFacts.argmax_pick_first_max.
  - apply FixedFacts.fx_argmax_first_max.
Qed.

Lemma tie_break_policy_witness :
  fst (Advanced.argmaxWithRandomTie
         (Advanced.mkRuntime (fun _ => 1) (fun _ => 0) (fun _ => 1) 3 (fun _ => 12)
                             (fun _ => 0.7))
         (fun o => match o with Advanced.GREEN => 0 | _ => 0.5 end) 0%nat)
  = Some Advanced.BLACK /\
  fst (Advanced.argmaxWithRandomTie
         (Advanced.mkRuntime (fun _ => 1) (fun _ => 0) (fun _ => 1) 3 (fun _ => 12)
                             (fun _ => 0.2))
         (fun o => match o with Advanced.GREEN => 0 | _ => 0.5 end) 0%nat)
  = Some Advanced.RED /\
  Advanced.argmaxWithRandomTie
    (Advanced.mkRuntime (fun _ => 1) (fun _ => 0) (fun _ => 1) 3 (fun _ => 12)
                        (fun _ => 0.9))
    (fun o => match o with Advanced.GREEN => 0.6 | _ => 0.2 end) 0%nat
  = (Some Advanced.GREEN, 0%nat).
Proof.
  destruct tie_break_policy as (HA & _ & H1 & _). split; [|split].
  - refine (proj2 (proj2 (HA (Advanced.mkRuntime (fun _ => 1) (fun _ => 0) (fun _ => 1) 3
                                                 (fun _ => 12) (fun _ => 0.7))
                             (fun o => match o with Advanced.GREEN => 0 | _ => 0.5 end)
                             0%nat 1%nat _ _ _ _)) _);
      [simpl; lra | simpl; lra | vm_compute; lia | vm_compute; lia |].
    split; [vm_compute; discriminate | reflexivity].
  - refine (proj2 (proj2 (HA (Advanced.mkRuntime (fun _ => 1) (fun _ => 0) (fun _ => 1) 3
                                                 (fun _ => 12) (fun _ => 0.2))
                             (fun o => match o with Advanced.GREEN => 0 | _ => 0.5 end)
                             0%nat 0%nat _ _ _ _)) _);
      [simpl; lra | simpl; lra | vm_compute; lia | vm_compute; lia |].
    split; [vm_compute; discriminate | reflexivity].
  - apply (H1 (Advanced.mkRuntime (fun _ => 1) (fun _ => 0) (fun _ => 1) 3 (fun _ => 12)
                                  (fun _ => 0.9))
              (fun o => match o with Advanced.GREEN => 0.6 | _ => 0.2 end) 0%nat).
    reflexivity.
Defined.

(** ** C6: Markov rows without observations *)

(** C6.  A transition row that received no observation is answered by the
    uniform distribution.  sportypredictor: if no round shows an alphabet
    member in slot [s] right after a round showing [prev] there, the row
    [markovProbs[s][prev]] is uniform.  Advanced predictor: if [prev] is
    the outcome of no entry that has a successor (equivalently here, the
    row's total mass is zero), [buildMarkov(history)[prev]] is uniform. *)
Theorem unobserved_markov_row_uniform :
  (forall history s prev,
      Sporty.followed history s prev = false ->
      forall o, Sporty.markovProbs (Sporty.buildModels history) s prev o == Sporty.uniform o) /\
  (forall history prev,
      Advanced.followed history prev = false ->
      Advanced.dsum (Advanced.markovCounts history prev) == 0 /\
      forall o, Advanced.buildMarkov history prev o == Advanced.uniform o) /\
  (forall history prev,
      Advanced.dsum (Advanced.markovCounts history prev) == 0 ->
      forall o, Advanced.buildMarkov history prev o == Advanced.uniform o).
Proof.
  split; [|split].
  - intros history s prev H o. now apply SportyFacts.unobserved_row_uniform.
  - intros history prev H. split.
    + rewrite AdvancedFacts.adv_dsum3,
        !(AdvancedFacts.unfollowed_row_zero history prev H). reflexivity.
    + intros o. now apply AdvancedFacts.unfollowed_row_uniform.
  - intros history prev H o. unfold Advanced.buildMarkov.
    rewrite (Qeq_eq_bool _ _ H). reflexivity.
Qed.

Lemma unobserved_markov_row_uniform_witness :
  (forall o,
      Sporty.markovProbs
        (Sporty.buildModels
           [Sporty.mkEntry 0 ["R"; "B"; "G"; "R"; "B"]; Sporty.mkEntry 1 ["B"; "B"; "G"; "R"; "B"]]%string)
        0 Sporty.G o == Sporty.uniform o) /\
  (forall o,
      Advanced.buildMarkov
        [Advanced.mkEntry 0 Advanced.RED; Advanced.mkEntry 1 Advanced.BLACK; Advanced.mkEntry 2 Advanced.RED]
        Advanced.GREEN o == Advanced.uniform o) /\
  (forall o,
      Advanced.buildMarkov [Advanced.mkEntry 0 Advanced.RED] Advanced.RED o == Advanced.uniform o).
Proof.
  destruct unobserved_markov_row_uniform as (HS & HA & HZ). split; [|split].
  - apply HS. reflexivity.
  - apply HA. reflexivity.
  - apply HZ. reflexivity.
Defined.

(** ** C7: the decayed counter on the empty History *)

(** C7, counterexample.  In the advanced predictor the buckets of the
    marginal start at 0, not at a prior: on the empty History the bucket of
    RED is 0, the value returned for RED is 0 and not 1/3, and the values
    returned do not form a distribution. *)
Lemma empty_marginal_not_uniform :
  Advanced.marginalCounts [] Advanced.RED == 0 /\
  ~ Advanced.buildMarginal [] Advanced.RED == Advanced.uniform Advanced.RED /\
  ~ Advanced.is_dist (Advanced.buildMarginal []).
Proof.
  split; [reflexivity|]. split.
  - intros H. vm_compute in H. discriminate.
  - intros [_ H]. vm_compute in H. discriminate.
Qed.

(** C7, amended.  On the empty History the decayed counters of
    sportypredictor, whose buckets all start at [ALPHA], give every outcome
    the same probability 1/3, per slot and globally, and so do the initial
    counts of index.cjs; the marginal of the advanced predictor, whose
    buckets start at 0, gives every outcome the value 0. *)
Theorem empty_history_counters :
  (forall s o, Sporty.slotCounts (Sporty.buildCounts []) s o == Sporty.ALPHA /\
               Sporty.slotPosteriors (Sporty.buildModels []) s o == 1 # 3) /\
  (forall o, Sporty.globalCounts (Sporty.buildCounts []) o == Sporty.ALPHA /\
             Sporty.globalPosterior (Sporty.buildModels []) o == 1 # 3) /\
  (forall o, Fixed.marg Fixed.initState o == Fixed.ALPHA /\
             Fixed.normalizeDict (Fixed.marg Fixed.initState) o == 1 # 3) /\
  (forall o, Advanced.marginalCounts [] o == 0 /\ Advanced.buildMarginal [] o == 0).
Proof.
  repeat split; reflexivity.
Qed.

(** ** C8: the input boundary *)

(** C8.  Every raw line either parses to exactly [GAMES_PER_ROUND] tokens,
    each one a member of the alphabet (they are the line's own tokens in
    upper case, and the [add] command appends them as one round), or
    [parseRoundInput] throws; in that case the [add] command reports the
    error and leaves the History, in memory and on disk, as it was. *)
Theorem parseRoundInput_valid_or_rejected (raw : string) :
  (exists tokens : list string,
      Sporty.parseRoundInput raw = inr tokens /\
      tokens = Sporty.tokensOf raw /\
      List.length tokens = Sporty.GAMES_PER_ROUND /\
      Forall (fun t => exists o, t = Sporty.token o) tokens /\
      forall now st,
        Sporty.cmdAdd now st raw =
        (Sporty.mkSession (Sporty.memory st ++ [Sporty.mkEntry now tokens])
                          (Sporty.memory st ++ [Sporty.mkEntry now tokens]),
         Sporty.RoundAdded tokens))
  \/
  (exists message,
      Sporty.parseRoundInput raw = inl message /\
      forall now st, Sporty.cmdAdd now st raw = (st, Sporty.InputError message)).
Proof.
  destruct (Sporty.parseRoundInput raw) as [message|tokens] eqn:E.
  - right. exists message. split; [reflexivity|].
    intros now st. unfold Sporty.cmdAdd. now rewrite E.
  - left. exists tokens.
    destruct (SportyFacts.parseRoundInput_accepts _ _ E) as (H1 & H2 & H3).
    repeat split; try assumption.
    intros now st. unfold Sporty.cmdAdd. now rewrite E.
Qed.

(** ** C9: recording an observation *)

(** C9.  For an observed outcome [o], [recordOutcome] leaves the stored
    History as it is when the most recent entry shows [o] and is less than
    2000 ms old, and in every other case stores the History with the entry
    [{ts, outcome: o}] appended (in particular for a repeat that comes 2000
    ms or more after the last entry). *)
Theorem recordOutcome_drops_or_appends now1 now2 file o :
  (Advanced.recentDuplicate now1 (Advanced.loadHistory file) o ->
   Advanced.recordOutcome now1 now2 file (Some o) = file) /\
  (~ Advanced.recentDuplicate now1 (Advanced.loadHistory file) o ->
   Advanced.recordOutcome now1 now2 file (Some o) =
   Some (Advanced.loadHistory file ++ [Advanced.mkEntry now2 o])).
Proof.
  unfold Advanced.recordOutcome, Advanced.recentDuplicate.
  set (history := Advanced.loadHistory file).
  destruct (nth_error history (length history - 1)) as [e|] eqn:E.
  - destruct (Advanced.Outcome_eqb (Advanced.outcome e) o) eqn:Eo;
      destruct (now1 - Advanced.ts e <? 2000)%Z eqn:Et; cbn [andb].
    + split; [reflexivity|]. intros N. exfalso. apply N. exists e.
      apply AdvancedFacts.adv_eqb_eq in Eo. apply Z.ltb_lt in Et. now repeat split.
    + split; [|reflexivity]. intros (e' & He & _ & Ht).
      apply some_eq in He. subst e'. apply Z.ltb_ge in Et. lia.
    + split; [|reflexivity]. intros (e' & He & Ho & _).
      apply some_eq in He. subst e'. apply AdvancedFacts.adv_eqb_eq in Ho. congruence.
    + split; [|reflexivity]. intros (e' & He & Ho & _).
      apply some_eq in He. subst e'. apply AdvancedFacts.adv_eqb_eq in Ho. congruence.
  - split; [|reflexivity]. intros (e' & He & _). discriminate.
Qed.

Lemma recordOutcome_drops_or_appends_witness :
  Advanced.recordOutcome 2500 2501 (Some [Advanced.mkEntry 1000 Advanced.RED]) (Some Advanced.RED)
  = Some [Advanced.mkEntry 1000 Advanced.RED] /\
  Advanced.recordOutcome 3000 3001 (Some [Advanced.mkEntry 1000 Advanced.RED]) (Some Advanced.RED)
  = Some [Advanced.mkEntry 1000 Advanced.RED; Advanced.mkEntry 3001 Advanced.RED].
Proof.
  split.
  - apply (proj1 (recordOutcome_drops_or_appends 2500 2501
                    (Some [Advanced.mkEntry 1000 Advanced.RED]) Advanced.RED)).
    exists (Advanced.mkEntry 1000 Advanced.RED). repeat split.
  - apply (proj2 (recordOutcome_drops_or_appends 3000 3001
                    (Some [Advanced.mkEntry 1000 Advanced.RED]) Advanced.RED)).
    intros (e & He & _ & Ht). apply some_eq in He. subst e. simpl in Ht. lia.
Defined.

(** ** C10: the streak bias conserves mass *)

(** C10.  [applyStreakBias] of the advanced predictor returns a map with
    the same total as its input, for every history and every input map of
    probabilities (no negative value): when the last [STREAK_WINDOW]
    outcomes equal [v] it takes [min(STREAK_BONUS, p[v] / 2)] from [v] and
    gives half of it to each of the two other outcomes, and otherwise it
    returns the input; nothing is renormalized, so an input summing to 1
    yields an output summing to 1. *)
Theorem streak_bias_conserves_mass probs historyList :
  (forall o, 0 <= probs o) ->
  Advanced.dsum (Advanced.applyStreakBias probs historyList) == Advanced.dsum probs /\
  (Advanced.dsum probs == 1 ->
   Advanced.dsum (Advanced.applyStreakBias probs historyList) == 1) /\
  (forall v, Advanced.streakOf historyList v ->
     forall k, Advanced.applyStreakBias probs historyList k ==
               if Advanced.Outcome_eqb k v
               then probs v - Qmin Advanced.STREAK_BONUS (probs v * 0.5)
               else probs k + Qmin Advanced.STREAK_BONUS (probs v * 0.5) / 2) /\
  ((forall v, ~ Advanced.streakOf historyList v) ->
   Advanced.applyStreakBias probs historyList = probs).
Proof.
  intros Hnn.
  destruct (AdvancedFacts.applyStreakBias_conserves probs historyList Hnn) as (H1 & H2 & H3).
  repeat split; try assumption.
  intros Hno. now apply AdvancedFacts.no_streak_identity.
Qed.

Lemma streak_bias_conserves_mass_witness :
  Advanced.dsum
    (Advanced.applyStreakBias (fun o => match o with Advanced.RED => 0.5 | _ => 0.25 end)
                              [Advanced.RED; Advanced.RED; Advanced.RED])
  == Advanced.dsum (fun o => match o with Advanced.RED => 0.5 | _ => 0.25 end) /\
  Advanced.dsum
    (Advanced.applyStreakBias (fun o => match o with Advanced.RED => 0.5 | _ => 0.25 end)
                              [Advanced.RED; Advanced.RED; Advanced.RED]) == 1 /\
  Advanced.applyStreakBias (fun o => match o with Advanced.RED => 0.5 | _ => 0.25 end)
                           [Advanced.RED; Advanced.RED; Advanced.RED] Advanced.RED
  == 0.5 - Qmin Advanced.STREAK_BONUS (0.5 * 0.5) /\
  Advanced.applyStreakBias (fun o => match o with Advanced.RED => 0.5 | _ => 0.25 end)
                           [Advanced.RED; Advanced.BLACK; Advanced.RED]
  = (fun o => match o with Advanced.RED => 0.5 | _ => 0.25 end).
Proof.
  assert (Hnn : forall o, 0 <= match o with Advanced.RED => 0.5 | _ => 0.25 end)
    by (intros []; vm_compute; discriminate).
  split; [|split; [|split]].
  - apply (streak_bias_conserves_mass _ [Advanced.RED; Advanced.RED; Advanced.RED] Hnn).
  - apply (streak_bias_conserves_mass _ [Advanced.RED; Advanced.RED; Advanced.RED] Hnn).
    reflexivity.
  - destruct (streak_bias_conserves_mass _ [Advanced.RED; Advanced.RED; Advanced.RED] Hnn)
      as (_ & _ & H & _).
    apply (H Advanced.RED); split; [vm_compute; lia | repeat constructor].
  - apply (streak_bias_conserves_mass _ [Advanced.RED; Advanced.BLACK; Advanced.RED] Hnn).
    intros v [_ H]. cbv [slice_last Advanced.STREAK_WINDOW length Nat.sub skipn] in H.
    inversion H as [|? ? E1 T1]. inversion T1 as [|? ? E2 T2]. congruence.
Defined.

(** * Further properties of the scripts *)

(** ** sportypredictor.cjs *)
Module SportyExtra.
Import Sporty SportyFacts.



(** X2.  Whatever the History, every probability [buildModels] returns,
    in a slot posterior, the global posterior, a Markov row or a pattern
    row, lies strictly between 0 and 1: the prior keeps every outcome
    possible and none certain. *)
Theorem posteriors_strictly_inside history s prev o :
  (0 < slotPosteriors (buildModels history) s o < 1) /\
  (0 < globalPosterior (buildModels history) o < 1) /\
  (0 < markovProbs (buildModels history) s prev o < 1) /\
  (forall key arr, patternProbs (buildModels history) key = Some arr ->
                   0 < arr s o < 1).
Proof.
  destruct (slotPosteriors_ok history s) as [S1 S2].
  destruct (globalPosterior_ok history) as [G1 G2].
  destruct (markovProbs_ok history s prev) as [M1 M2].
  repeat split; try (now apply dist_lt_1); auto.
  - destruct (patternProbs_ok history key arr s H) as [_ P2]. apply P2.
  - destruct (patternProbs_ok history key arr s H) as [P1 P2]. now apply dist_lt_1.
Qed.

(** X3.  The global counts pool the slots: for every outcome, what the
    global count holds beyond the prior is the sum over the five slots of
    what the slot counts hold beyond theirs. *)
Theorem global_counts_pool_slots history o :
  globalCounts (buildCounts history) o - ALPHA ==
  reduce_sum (map (fun s => slotCounts (buildCounts history) s o - ALPHA) slots).
Proof. apply buildCounts_pooled. Qed.

(** X4.  On a History of rounds of alphabet tokens, the pattern table
    holds a row under the comma-joined key of a round of alphabet tokens
    exactly when that round is a stored round that has a successor; the
    lookup for any other such round misses. *)
Theorem pattern_table_keys history r :
  Forall (fun e => valid_round (games e)) history -> valid_round r ->
  ((exists arr, patternProbs (buildModels history) (join "," r) = Some arr) <->
   (exists i, (i + 1 < length history)%nat /\ games_at history i = r)).
Proof.
  intros Hh Hr. rewrite pattern_keys_history. split.
  - intros (i & Hi & Hk). exists i. split; [exact Hi|].
    destruct (valid_round_tokens _ (valid_round_games_at history i Hh)) as [os1 E1].
    destruct (valid_round_tokens r Hr) as [os2 ->].
    rewrite E1 in Hk |- *. now rewrite (join_tokens_inj os1 os2 Hk).
  - intros (i & Hi & <-). exists i. split; [exact Hi | reflexivity].
Qed.

Lemma pattern_table_keys_witness :
  (exists arr, patternProbs (buildModels [mkEntry 1 ["R"; "B"; "G"; "G"; "R"]%string;
                                          mkEntry 2 ["B"; "B"; "R"; "G"; "R"]%string])
                            (join "," ["R"; "B"; "G"; "G"; "R"]%string) = Some arr) <->
  (exists i, (i + 1 < 2)%nat /\
             games_at [mkEntry 1 ["R"; "B"; "G"; "G"; "R"]%string;
                       mkEntry 2 ["B"; "B"; "R"; "G"; "R"]%string] i
             = ["R"; "B"; "G"; "G"; "R"]%string).
Proof.
  apply (pattern_table_keys [mkEntry 1 ["R"; "B"; "G"; "G"; "R"]%string;
                             mkEntry 2 ["B"; "B"; "R"; "G"; "R"]%string]
                            ["R"; "B"; "G"; "G"; "R"]%string).
  - repeat constructor; cbn [games];
      repeat constructor; first [now exists R | now exists B | now exists G].
  - repeat constructor; first [now exists R | now exists B | now exists G].
Defined.

(** X5.  Two rounds of alphabet tokens that differ get different pattern
    keys: the comma-joined key determines the round. *)
Theorem pattern_keys_distinguish_rounds r1 r2 :
  valid_round r1 -> valid_round r2 -> join "," r1 = join "," r2 -> r1 = r2.
Proof.
  intros H1 H2 H. destruct (valid_round_tokens r1 H1) as [os1 ->].
  destruct (valid_round_tokens r2 H2) as [os2 ->].
  f_equal. now apply join_tokens_inj.
Qed.

Lemma pattern_keys_distinguish_rounds_witness :
  ["R"; "B"; "G"; "G"; "R"]%string = map token [R; B; G; G; R].
Proof.
  apply (pattern_keys_distinguish_rounds ["R"; "B"; "G"; "G"; "R"]%string
                                         (map token [R; B; G; G; R])).
  - repeat constructor; [now exists R | now exists B | now exists G | now exists G
                         | now exists R].
  - repeat constructor; [now exists R | now exists B | now exists G | now exists G
                         | now exists R].
  - reflexivity.
Defined.

(** X6.  A round printed the way the CLI prints it, its five tokens joined
    by commas, parses back to the same round, and so does the round with
    its tokens separated by single spaces. *)
Theorem printed_round_parses_back os :
  length os = GAMES_PER_ROUND ->
  parseRoundInput (join "," (map token os)) = inr (map token os) /\
  parseRoundInput (join " " (map token os)) = inr (map token os).
Proof. apply parse_join_tokens. Qed.

Lemma printed_round_parses_back_witness :
  parseRoundInput (join "," (map token [R; B; G; G; R])) = inr (map token [R; B; G; G; R]).
Proof. apply (printed_round_parses_back [R; B; G; G; R]). reflexivity. Defined.

(** X7.  When the History in memory and the stored one agree, they still
    agree after any sequence of lines typed at the CLI. *)
Theorem session_stays_in_sync st lines :
  memory st = stored st -> memory (runLines st lines) = stored (runLines st lines).
Proof.
  unfold runLines. revert st. induction lines as [|l lines IH]; intros st H; [exact H|].
  cbn [fold_left]. apply IH. now apply handleLine_sync.
Qed.

Lemma session_stays_in_sync_witness :
  memory (runLines (mkSession [] []) [(1%Z, "add R,B,G,R,B"%string); (2%Z, "undo"%string)])
  = stored (runLines (mkSession [] []) [(1%Z, "add R,B,G,R,B"%string); (2%Z, "undo"%string)]).
Proof. apply session_stays_in_sync. reflexivity. Defined.

(** X8.  The line [add] followed by a valid round appends that round, with
    the time of the call, to the History; [undo] right after it gives back
    the session there was before. *)
Theorem add_then_undo now1 now2 st os :
  length os = GAMES_PER_ROUND -> memory st = stored st ->
  memory (handleLine now1 st ("add " ++ join "," (map token os))) =
    memory st ++ [mkEntry now1 (map token os)] /\
  handleLine now2 (handleLine now1 st ("add " ++ join "," (map token os))) "undo" = st.
Proof.
  intros H Hs. rewrite handleLine_add by assumption.
  unfold cmdAdd. destruct (parse_join_tokens os H) as [-> _]. cbn [fst].
  split; [reflexivity|].
  change (handleLine now2 ?s "undo") with (cmdUndo s).
  unfold cmdUndo. cbn [memory].
  destruct (memory st ++ [mkEntry now1 (map token os)]) eqn:E.
  - destruct (memory st); discriminate.
  - rewrite <- E, removelast_last. destruct st as [m s]. cbn in *. now subst.
Qed.

Lemma add_then_undo_witness :
  memory (handleLine 7 (mkSession [] []) ("add " ++ join "," (map token [R; B; G; G; R])))
  = [] ++ [mkEntry 7 (map token [R; B; G; G; R])] /\
  handleLine 9 (handleLine 7 (mkSession [] [])
                  ("add " ++ join "," (map token [R; B; G; G; R]))) "undo"
  = mkSession [] [].
Proof.
  apply (add_then_undo 7 9 (mkSession [] []) [R; B; G; G; R]); reflexivity.
Defined.

(** X9.  When no streak applies to a slot, the distribution
    [predictEnsemble] returns for it is the blend of the slot, Markov and
    pattern sources with their weights rescaled to sum to 1: the streak
    weight has no influence on it. *)
Theorem streak_weight_inert_without_streak W history w s o :
  usable w -> (forall v, ~ streakOn history s v) ->
  blendedSlot W history (buildModels history) (Some w) s o ==
  combinedSlot W history (buildModels history)
    (Some (mkWeights (slot w) (markov w) (pattern w) 0)) s o.
Proof.
  intros Hu Hno. unfold blendedSlot. rewrite no_streak_no_adjustment by assumption.
  assert (Hpos : forall k, 0 < combinedSlot W history (buildModels history) (Some w) s k).
  { intros k. now apply combinedSlot_pos. }
  assert (Hd : 0 < dsum (combinedSlot W history (buildModels history) (Some w) s)).
  { rewrite dsum3. pose proof (Hpos R). pose proof (Hpos B). pose proof (Hpos G). lra. }
  rewrite normalize_value by exact Hd.
  rewrite combinedSlot_sum.
  destruct Hu as (H1 & H2 & H3 & H4 & H5).
  unfold combinedSlot, normalizedWeights, chosenWeights. cbn [slot markov pattern streak].
  apply blend_rescale; assumption.
Qed.

Lemma streak_weight_inert_without_streak_witness :
  blendedSlot defaultWeights [] (buildModels []) (Some defaultWeights) 0 R ==
  combinedSlot defaultWeights [] (buildModels [])
    (Some (mkWeights (slot defaultWeights) (markov defaultWeights)
                     (pattern defaultWeights) 0)) 0 R.
Proof.
  apply (streak_weight_inert_without_streak defaultWeights [] defaultWeights 0 R).
  - repeat split; vm_compute; discriminate.
  - intros v [H _]. vm_compute in H. lia.
Defined.

(** X10.  On a History of two rounds or more, [walkForwardEvaluate] tests
    every round but the first; the number of fully correct rounds does not
    exceed the number tested, and the round accuracy lies between 0 and
    the slot accuracy, which is at most 1. *)
Theorem walk_forward_tallies W history w :
  (2 <= length history)%nat ->
  rounds (walkForwardEvaluate W history w) = (length history - 1)%nat /\
  (evalCorrectRounds (walkForwardEvaluate W history w)
   <= rounds (walkForwardEvaluate W history w))%nat /\
  0 <= roundAccuracy (walkForwardEvaluate W history w) /\
  roundAccuracy (walkForwardEvaluate W history w)
  <= slotAccuracy (walkForwardEvaluate W history w) /\
  slotAccuracy (walkForwardEvaluate W history w) <= 1.
Proof.
  intros Hn. unfold walkForwardEvaluate.
  replace (length history <? 2)%nat with false by (symmetry; apply Nat.ltb_ge; lia).
  cbn [rounds evalCorrectRounds roundAccuracy slotAccuracy].
  destruct (walkLoop_tallies W history w (length history - 1)) as [(H1 & H2 & H3 & H4) H5];
    [lia|].
  set (st := walkLoop W history w (length history - 1)) in *.
  split; [exact H5|]. split; [exact H4|]. split; [apply ratio_nonneg|]. split.
  - unfold GAMES_PER_ROUND in *. apply ratio_le; [lia | lia | rewrite H1; nia].
  - now apply ratio_le_1.
Qed.

Lemma walk_forward_tallies_witness :
  rounds (walkForwardEvaluate defaultWeights
            [mkEntry 0 ["R"; "B"; "G"; "R"; "B"]; mkEntry 1 ["R"; "G"; "G"; "B"; "B"]]%string
            None) = 1%nat.
Proof.
  apply (walk_forward_tallies defaultWeights
           [mkEntry 0 ["R"; "B"; "G"; "R"; "B"]; mkEntry 1 ["R"; "G"; "G"; "B"; "B"]]%string
           None).
  simpl. lia.
Defined.

End SportyExtra.

(** ** iv-redblack-advanced.cjs *)
Module AdvancedExtra.
Import Advanced AdvancedFacts.


(** X12.  In the result of [chiSquareTest] the three counts add up to the
    number of entries and the statistic is never negative; on the empty
    History the statistic is 1, and on any other History it is 0 exactly
    when the three outcomes occur equally often. *)
Theorem chi_square_statistic dist history :
  counts (chiSquareTest dist history) RED + counts (chiSquareTest dist history) BLACK
  + counts (chiSquareTest dist history) GREEN == inject_Z (Z.of_nat (length history)) /\
  0 <= chi2 (chiSquareTest dist history) /\
  (history = [] -> chi2 (chiSquareTest dist history) == 1) /\
  (history <> [] ->
   (chi2 (chiSquareTest dist history) == 0 <->
    counts (chiSquareTest dist history) RED == counts (chiSquareTest dist history) BLACK /\
    counts (chiSquareTest dist history) BLACK == counts (chiSquareTest dist history) GREEN)).
Proof.
  unfold chiSquareTest. cbn [chi2 counts].
  set (c := fold_left (fun counts r => add_to counts (outcome r) 1) history zero).
  assert (Hc : c RED + c BLACK + c GREEN == inject_Z (Z.of_nat (length history))).
  { rewrite <- adv_dsum3. unfold c. rewrite counts_fold_dsum.
    change (dsum zero) with 0. lra. }
  split; [exact Hc|].
  cbn [OUTCOMES length fold_left].
  change (inject_Z (Z.of_nat 3)) with 3.
  destruct history as [|r0 rest].
  - split; [|split; [intros _|congruence]]; vm_compute; congruence.
  - assert (Hn : 0 < inject_Z (Z.of_nat (length (r0 :: rest)))).
    { apply inject_nat_pos. cbn. lia. }
    set (n := inject_Z (Z.of_nat (length (r0 :: rest)))) in *.
    rewrite (truthy_or_nonzero n) by lra.
    rewrite (truthy_or_nonzero (n / 3)).
    2:{ intros E. assert (n == 0) by (rewrite <- (Qmult_div_r n 3), E by discriminate; ring). lra. }
    set (e := n / 3).
    assert (He : 0 < e) by (unfold e; apply Qlt_shift_div_l; lra).
    assert (Hn3 : n == 3 * e) by (unfold e; field).
    assert (T : forall x, 0 <= x * x / e).
    { intros x. apply Qle_shift_div_l; [exact He|]. pose proof (square_nonneg x). lra. }
    assert (Z0 : forall x, x * x / e == 0 -> x == 0).
    { intros x Hx. apply square_zero.
      setoid_replace (x * x) with (x * x / e * e) by (field; lra). rewrite Hx. ring. }
    pose proof (T (c RED - e)) as TR. pose proof (T (c BLACK - e)) as TB.
    pose proof (T (c GREEN - e)) as TG.
    split; [lra|]. split; [congruence|]. intros _. split.
    + intros Hz.
      assert (R0 : c RED - e == 0) by (apply Z0; lra).
      assert (B0 : c BLACK - e == 0) by (apply Z0; lra).
      assert (G0 : c GREEN - e == 0) by (apply Z0; lra).
      split; lra.
    + intros [E1 E2].
      assert (R0 : c RED - e == 0) by lra.
      assert (B0 : c BLACK - e == 0) by lra.
      assert (G0 : c GREEN - e == 0) by lra.
      rewrite R0, B0, G0. field. lra.
Qed.

(** X13.  [lag1Autocorr] returns a number exactly when the History shows
    both RED and BLACK; when one of the two colours is missing it returns
    [null]. *)
Theorem lag1_defined_iff_both_colours history :
  (exists r, lag1Autocorr history = Some r) <->
  In RED (map outcome history) /\ In BLACK (map outcome history).
Proof.
  unfold lag1Autocorr.
  set (s := binarySeq history).
  set (nums := map redBit s).
  set (mean := reduce_sum nums / inject_Z (Z.of_nat (length nums))).
  assert (Hd : fold_left (fun denom i => denom + (nth i nums 0 - mean) ^ 2)
                         (seq 0 (length nums)) 0
               == reduce_sum (map (fun x => (x - mean) ^ 2) nums)).
  { rewrite (index_fold_sum (fun x => (x - mean) ^ 2) nums [] 0). lra. }
  assert (HR : In RED s <-> In RED (map outcome history)).
  { unfold s. rewrite binarySeq_In. split; [tauto | intros H; split; [exact H | discriminate]]. }
  assert (HB : In BLACK s <-> In BLACK (map outcome history)).
  { unfold s. rewrite binarySeq_In. split; [tauto | intros H; split; [exact H | discriminate]]. }
  rewrite <- HR, <- HB. split.
  - intros [r Hr].
    destruct (length s <? 2)%nat eqn:El; [discriminate|]. apply Nat.ltb_ge in El.
    destruct (Qeq_bool _ 0) eqn:Ez; [discriminate|].
    apply Qeq_bool_neq in Ez. rewrite Hd in Ez.
    destruct (in_dec (fun a b : Outcome => ltac:(decide equality) : {a = b} + {a <> b}) RED s)
      as [Hred|Hred];
    destruct (in_dec (fun a b : Outcome => ltac:(decide equality) : {a = b} + {a <> b}) BLACK s)
      as [Hbl|Hbl]; [now split | exfalso .. ];
    apply Ez; apply sum_squares_zero;
    (destruct (one_colour s) as [v Hv];
      [intros o Ho; apply binarySeq_In in Ho; tauto | tauto |]);
    (assert (Hm : mean == v);
      [unfold mean; rewrite (constant_sum v nums Hv); field;
       assert (0 < inject_Z (Z.of_nat (length nums)))
         by (apply inject_nat_pos; unfold nums; rewrite length_map; lia); lra|]);
    (eapply Forall_impl; [|exact Hv]; cbn beta; intros a Ha; rewrite Ha, Hm; reflexivity).
  - intros [Hred Hbl].
    assert (El : (2 <= length s)%nat).
    { apply (two_members RED BLACK); [assumption .. | discriminate]. }
    replace (length s <? 2)%nat with false by (symmetry; apply Nat.ltb_ge; exact El).
    destruct (Qeq_bool _ 0) eqn:Ez; [|eexists; reflexivity].
    exfalso. apply Qeq_bool_eq in Ez. rewrite Hd in Ez.
    apply sum_squares_zero in Ez. rewrite Forall_forall in Ez.
    assert (E1 : redBit RED == mean) by (apply Ez, in_map, Hred).
    assert (E0 : redBit BLACK == mean) by (apply Ez, in_map, Hbl).
    rewrite <- E0 in E1. vm_compute in E1. discriminate.
Qed.

(** X14.  For an index [i] between 1 and the length of the History, the
    feature vector has 17 components; the three rates over the short
    window sum to 1 and so do the three over the long window, the last
    outcome and the position are each encoded by exactly one 1, and the
    streak feature lies between 1/9 and 1. *)
Theorem feature_vector_shape rt now history i :
  (0 < i <= length history)%nat ->
  let x := buildFeatureFromHistory rt now history i in
  length x = 17%nat /\
  nth 0 x 0 + nth 1 x 0 + nth 2 x 0 == 1 /\
  nth 3 x 0 + nth 4 x 0 + nth 5 x 0 == 1 /\
  (1 # 9 <= nth 6 x 0 /\ nth 6 x 0 <= 1) /\
  nth 7 x 0 + nth 8 x 0 + nth 9 x 0 + nth 10 x 0 + nth 11 x 0 == 1 /\
  nth 14 x 0 + nth 15 x 0 + nth 16 x 0 == 1.
Proof.
  intros Hi x. subst x. unfold buildFeatureFromHistory.
  cbn [app seq map length nth].
  set (window := slice (Nat.max 0 (i - N_WINDOW)) i history).
  set (longWindow := slice (Nat.max 0 (i - 200)) i history).
  assert (Hw : window <> []).
  { apply slice_nonempty; unfold N_WINDOW; lia. }
  assert (Hlw : longWindow <> []).
  { apply slice_nonempty; lia. }
  split; [reflexivity|]. split; [now apply rates_sum_one|].
  split; [|split; [|split; [|now apply rates_sum_one]]].
  - destruct (rev window) as [|w r] eqn:Er.
    + exfalso. apply Hw. rewrite <- (rev_involutive window), Er. reflexivity.
    + destruct (outcome w); reflexivity.
  - destruct (rev window) as [|w r] eqn:Er.
    + exfalso. apply Hw. rewrite <- (rev_involutive window), Er. reflexivity.
    + cbn [runLength]. rewrite adv_eqb_refl.
      set (k := Nat.min (S (runLength (outcome w) r)) 9).
      assert (Hk : (1 <= k <= 9)%nat) by (unfold k; lia).
      split.
      * apply Qle_shift_div_l; [reflexivity|].
        setoid_replace ((1 # 9) * 9) with (inject_Z (Z.of_nat 1)) by reflexivity.
        apply inject_nat_le. lia.
      * apply Qle_shift_div_r; [reflexivity|].
        change (1 * 9) with (inject_Z (Z.of_nat 9)). apply inject_nat_le. lia.
  - apply position_one_hot.
    destruct (0 <? length history)%nat; [apply Nat.mod_upper_bound|]; lia.
Qed.

Lemma feature_vector_shape_witness :
  length (buildFeatureFromHistory
            (mkRuntime (fun x => x) (fun x => x) (fun x => x) 3 (fun _ => 0) (fun _ => 1 # 2))
            0 [mkEntry 0 RED] 1) = 17%nat.
Proof.
  assert (H : (0 < 1 <= length [mkEntry 0 RED])%nat) by (simpl; lia).
  exact (proj1 (feature_vector_shape
                  (mkRuntime (fun x => x) (fun x => x) (fun x => x) 3 (fun _ => 0)
                             (fun _ => 1 # 2))
                  0%Z [mkEntry 0 RED] 1 H)).
Defined.

(** X15.  The feature vector for index [i] reads the History through its
    first [i] entries and its length modulo 5 only: the outcome at [i],
    which is the label it is trained against, and everything after it do
    not enter it. *)
Theorem features_ignore_later_rounds rt now h1 h2 i :
  firstn i h1 = firstn i h2 -> (length h1 mod 5 = length h2 mod 5)%nat ->
  buildFeatureFromHistory rt now h1 i = buildFeatureFromHistory rt now h2 i.
Proof.
  intros Hf Hm. unfold buildFeatureFromHistory.
  rewrite !(slice_firstn _ i h1), !(slice_firstn _ i h2) by lia.
  rewrite Hf.
  assert (Hp : (if (0 <? length h1)%nat then (length h1 mod 5)%nat else 0%nat) =
               (if (0 <? length h2)%nat then (length h2 mod 5)%nat else 0%nat)).
  { destruct h1, h2; cbn [length Nat.ltb Nat.leb] in *; try reflexivity; exact Hm. }
  rewrite Hp. reflexivity.
Qed.

Lemma features_ignore_later_rounds_witness :
  buildFeatureFromHistory
    (mkRuntime (fun x => x) (fun x => x) (fun x => x) 3 (fun _ => 0) (fun _ => 1 # 2))
    0 [mkEntry 0 RED; mkEntry 1 BLACK] 1
  = buildFeatureFromHistory
      (mkRuntime (fun x => x) (fun x => x) (fun x => x) 3 (fun _ => 0) (fun _ => 1 # 2))
      0 [mkEntry 0 RED; mkEntry 9 GREEN] 1.
Proof. apply features_ignore_later_rounds; reflexivity. Defined.

(** X16.  When [Math.random()] returns values in [0, 1), the Fisher-Yates
    loop of [trainSoftmax] turns the indices 0 .. N-1 into a permutation
    of them, so an epoch visits every sample exactly once, and it draws
    N - 1 values. *)
Theorem shuffle_is_permutation rt N c :
  (forall k, 0 <= Math_random rt k /\ Math_random rt k < 1) ->
  Permutation (fst (shuffleFrom rt (N - 1) (seq 0 N) c)) (seq 0 N) /\
  snd (shuffleFrom rt (N - 1) (seq 0 N) c) = (c + (N - 1))%nat.
Proof.
  intros Hr. split; [|apply shuffleFrom_draws].
  apply shuffleFrom_Permutation; [exact Hr|]. rewrite length_seq. lia.
Qed.

Lemma shuffle_is_permutation_witness :
  Permutation
    (fst (shuffleFrom
            (mkRuntime (fun x => x) (fun x => x) (fun x => x) 3 (fun _ => 0) (fun _ => 1 # 2))
            (4 - 1) (seq 0 4) 0%nat))
    (seq 0 4) /\
  snd (shuffleFrom
         (mkRuntime (fun x => x) (fun x => x) (fun x => x) 3 (fun _ => 0) (fun _ => 1 # 2))
         (4 - 1) (seq 0 4) 0%nat) = (0 + (4 - 1))%nat.
Proof.
  apply shuffle_is_permutation.
  intros k. split; vm_compute; [discriminate | reflexivity].
Defined.

(** X17.  [trainSoftmax] returns [null], drawing nothing, on an empty
    sample list; on any other it returns a model with one row of weights
    and one bias per outcome, each row as long as the first sample, and it
    draws one value per weight and, in every epoch, one less than there are
    samples. *)
Theorem trainSoftmax_shape rt X Y opts c :
  (X = [] -> trainSoftmax rt X Y opts c = (None, c)) /\
  (X <> [] ->
   exists m, fst (trainSoftmax rt X Y opts c) = Some m /\
     shaped (length OUTCOMES) (length (nth 0 X [])) m /\
     snd (trainSoftmax rt X Y opts c) =
       (c + length OUTCOMES * length (nth 0 X [])
        + (if (epochs opts =? 0)%nat then EPOCHS else epochs opts) * (length X - 1))%nat).
Proof.
  split.
  - intros ->. reflexivity.
  - intros Hne. unfold trainSoftmax.
    destruct (length X =? 0)%nat eqn:E.
    { apply Nat.eqb_eq in E. destruct X; [congruence | discriminate]. }
    unfold bind, ret. cbn [fst snd].
    set (D := length (nth 0 X [])).
    destruct (initRows_spec rt (length OUTCOMES) D c) as (I1 & I2 & I3).
    set (ep := if (epochs opts =? 0)%nat then EPOCHS else epochs opts).
    destruct (forEach_draws (shaped (length OUTCOMES) D) (length X - 1)
               (epochStep rt X Y (length X) D (truthy_or (lr opts) LR)
                  (truthy_or (l2 opts) L2) (Nat.min 64 (Nat.max 8 (length X / 8))))
               (seq 0 ep)
               (fun a x c0 Ha => epochStep_spec rt X Y (length X) D _ _ _ a x c0 Ha)
               (mkModel (fst (initRows rt (length OUTCOMES) D c)) (repeat 0 (length OUTCOMES)))
               (snd (initRows rt (length OUTCOMES) D c))) as [F1 F2].
    { unfold shaped. cbn [W b]. rewrite repeat_length. repeat split; assumption. }
    eexists. split; [reflexivity|]. split; [exact F1|].
    rewrite F2, I3, length_seq. reflexivity.
Qed.

(** X18.  [walkForwardEvaluate] tests at most one round per entry past
    the minimum training size, and exactly that many when the minimum is
    20 or more; the per-outcome totals add up to the number tested, no
    outcome has more hits than tests, and the accuracy lies between 0
    and 1. *)
Theorem backtest_counts rt now history minTrain c :
  let ev := fst (walkForwardEvaluate rt now history minTrain c) in
  (evalTested ev <= length history - minTrainOf minTrain)%nat /\
  ((N_WINDOW + 10 <= minTrainOf minTrain)%nat ->
   evalTested ev = (length history - minTrainOf minTrain)%nat) /\
  (fst (evalPerOutcome ev RED) + fst (evalPerOutcome ev BLACK)
   + fst (evalPerOutcome ev GREEN) = evalTested ev)%nat /\
  (forall o, (snd (evalPerOutcome ev o) <= fst (evalPerOutcome ev o))%nat) /\
  0 <= accuracy ev /\ accuracy ev <= 1.
Proof.
  cbn zeta. unfold walkForwardEvaluate.
  destruct (length history <=? minTrainOf minTrain)%nat eqn:En.
  - apply Nat.leb_le in En. cbn [fst ret evalTested evalPerOutcome accuracy].
    repeat split; try (intros; cbn; lia); try lra.
  - apply Nat.leb_gt in En. unfold bind, ret, walkLoop.
    cbn [fst snd evalTested evalPerOutcome accuracy].
    destruct (forEach_walk_tallied rt now history
                (seq (minTrainOf minTrain) (length history - minTrainOf minTrain))
                (mkWalk 0 0 (fun _ => (0, 0)%nat) []) c) as ((T1 & T2 & T3) & I2 & I3 & I4).
    { repeat split; cbn; lia. }
    { cbn. lia. }
    rewrite length_seq in I3, I4. cbn [tested] in I3, I4.
    set (st := fst (forEach _ _ _ _)) in *.
    split; [lia|]. split.
    { intros Hm. rewrite I4; [lia|]. intros i Hi. apply in_seq in Hi. lia. }
    split; [exact T1|]. split; [exact T3|].
    destruct (tested st =? 0)%nat eqn:E0; [split; lra|].
    apply Nat.eqb_neq in E0. split.
    + apply Qle_shift_div_l; [apply inject_nat_pos; lia|].
      rewrite Qmult_0_l. apply inject_nat_nonneg.
    + apply Qle_shift_div_r; [apply inject_nat_pos; lia|].
      rewrite Qmult_1_l. now apply inject_nat_le.
Qed.

(** X19.  [recordOutcome] only ever appends: the entries stored before are
    kept, in order; and when the clock does not run backwards between its
    two reads, a stored History in which neighbouring entries with the same
    outcome are 2000 ms or more apart stays so. *)
Theorem recordOutcome_keeps_spacing now1 now2 file observed :
  (now1 <= now2)%Z -> spaced (loadHistory file) ->
  spaced (loadHistory (recordOutcome now1 now2 file observed)) /\
  firstn (length (loadHistory file)) (loadHistory (recordOutcome now1 now2 file observed))
  = loadHistory file.
Proof.
  intros Hnow Hsp. unfold recordOutcome.
  destruct observed as [o|]; [|split; [exact Hsp | apply firstn_all]].
  set (history := loadHistory file) in *.
  assert (Hfirst : firstn (length history) (history ++ [mkEntry now2 o]) = history).
  { rewrite firstn_app, firstn_all, Nat.sub_diag. cbn. apply app_nil_r. }
  destruct (nth_error history (length history - 1)) as [e|] eqn:El.
  - destruct (Outcome_eqb (outcome e) o && (now1 - ts e <? 2000)%Z) eqn:Ed.
    + split; [exact Hsp | apply firstn_all].
    + cbn [loadHistory]. split; [|exact Hfirst].
      apply (append_keeps_spacing now1); [exact Hnow | exact Hsp |].
      intros e' He' Ho. rewrite El in He'. apply some_eq in He'. subst e'.
      apply andb_false_iff in Ed. destruct Ed as [Ed|Ed].
      * rewrite Ho, adv_eqb_refl in Ed. discriminate.
      * apply Z.ltb_ge in Ed. exact Ed.
  - cbn [loadHistory]. split; [|exact Hfirst].
    apply (append_keeps_spacing now1); [exact Hnow | exact Hsp |].
    intros e' He'. rewrite El in He'. discriminate.
Qed.

Lemma recordOutcome_keeps_spacing_witness :
  spaced (loadHistory (recordOutcome 3000 3001 (Some [mkEntry 1000 RED]) (Some RED))) /\
  firstn (length (loadHistory (Some [mkEntry 1000 RED])))
         (loadHistory (recordOutcome 3000 3001 (Some [mkEntry 1000 RED]) (Some RED)))
  = loadHistory (Some [mkEntry 1000 RED]).
Proof.
  apply recordOutcome_keeps_spacing.
  - lia.
  - intros i e1 e2 H1 H2. destruct i; discriminate.
Defined.

(** X20.  After any number of iterations of the scrape loop that read an
    outcome and run through to storing their pick, starting from the
    initial globals, every observed outcome but the first was compared
    with the pick made before it: [totalPred] counts these
    comparisons, [correctPred] the matches, and [recentPredictions] holds
    the results of the last [RECENT_WINDOW] of them, oldest first. *)
Theorem accuracy_window rounds o1 p1 :
  totalPred (fold_left tallyRound ((o1, p1) :: rounds) initTally) = length rounds /\
  correctPred (fold_left tallyRound ((o1, p1) :: rounds) initTally)
  = length (filter (fun ok => ok) (scored p1 rounds)) /\
  recentPredictions (fold_left tallyRound ((o1, p1) :: rounds) initTally)
  = slice_last RECENT_WINDOW (scored p1 rounds) /\
  (length (recentPredictions (fold_left tallyRound ((o1, p1) :: rounds) initTally))
   <= RECENT_WINDOW)%nat /\
  (correctPred (fold_left tallyRound ((o1, p1) :: rounds) initTally)
   <= totalPred (fold_left tallyRound ((o1, p1) :: rounds) initTally))%nat.
Proof.
  cbn [fold_left].
  destruct (tally_from (tallyRound initTally (o1, p1)) p1 [] rounds) as (H1 & H2 & H3);
    [reflexivity | reflexivity |].
  cbn [app] in H3.
  change (totalPred (tallyRound initTally (o1, p1))) with 0%nat in H1.
  change (correctPred (tallyRound initTally (o1, p1))) with 0%nat in H2.
  split; [exact H1|]. split; [exact H2|]. split; [exact H3|]. split.
  - rewrite H3. unfold slice_last. rewrite length_skipn. lia.
  - rewrite H1, H2, <- (scored_length rounds p1). apply filter_length_le.
Qed.

(** X26.  When [Math.exp] returns positive values, [ensemblePredict]
    gives every outcome a probability strictly between 0 and 1, whatever
    the History and whether or not a trained model is at hand. *)
Theorem ensemble_probabilities_inside rt now history model o :
  (forall x, 0 < Math_exp rt x) ->
  0 < ensemblePredict rt now history model o /\ ensemblePredict rt now history model o < 1.
Proof.
  intros exp_pos.
  pose proof (ensemblePredict_pos rt exp_pos now history model) as Hpos.
  split; [apply Hpos|].
  pose proof (ensemblePredict_sum rt exp_pos now history model) as Hs.
  rewrite adv_dsum3 in Hs.
  pose proof (Hpos RED). pose proof (Hpos BLACK). pose proof (Hpos GREEN).
  destruct o; lra.
Qed.

Lemma ensemble_probabilities_inside_witness :
  0 < ensemblePredict (mkRuntime (fun _ => 1) (fun _ => 0) (fun _ => 1) 3 (fun _ => 12)
                                 (fun _ => 0)) 0 [mkEntry 1000 RED] None BLACK /\
  ensemblePredict (mkRuntime (fun _ => 1) (fun _ => 0) (fun _ => 1) 3 (fun _ => 12)
                             (fun _ => 0)) 0 [mkEntry 1000 RED] None BLACK < 1.
Proof.
  apply (ensemble_probabilities_inside
           (mkRuntime (fun _ => 1) (fun _ => 0) (fun _ => 1) 3 (fun _ => 12) (fun _ => 0))
           0 [mkEntry 1000 RED] None BLACK).
  intros x. reflexivity.
Defined.

End AdvancedExtra.

(** ** redblack_predictor_fixed.cjs (index.cjs) *)
Module FixedExtra.
Import Fixed FixedFacts.

(** X21.  On ASCII text, [normalizeOutcomeText] of index.cjs goes by
    priority, not by position: it returns GREEN when some whole word of the
    upper-cased text is GREEN, else RED when some word is RED, else BLACK
    when some word is BLACK, and [null] otherwise. *)
Theorem fixed_normalizeOutcomeText_priority txt :
  normalizeOutcomeText txt =
  if existsb (list_ascii_eqb (list_ascii_of_string "GREEN"))
             (words (map Sporty.upper_char (list_ascii_of_string txt)))
  then Some GREEN
  else if existsb (list_ascii_eqb (list_ascii_of_string "RED"))
                  (words (map Sporty.upper_char (list_ascii_of_string txt)))
  then Some RED
  else if existsb (list_ascii_eqb (list_ascii_of_string "BLACK"))
                  (words (map Sporty.upper_char (list_ascii_of_string txt)))
  then Some BLACK
  else None.
Proof.
  unfold normalizeOutcomeText.
  destruct (String.eqb txt "") eqn:E.
  { apply String.eqb_eq in E. subst txt. reflexivity. }
  rewrite !test_words by (try discriminate; repeat constructor). reflexivity.
Qed.

(** X22.  However many outcomes are fed to [updateModel], the total of
    the marginal counts stays between 1.5 and 200/3, and the total of every
    transition row stays positive and at most 200/3: the decay bounds the
    weight the model gives to the past. *)
Theorem counts_stay_bounded observed :
  (3 # 2 <= dsum (marg (replay observed)) /\ dsum (marg (replay observed)) <= 200 # 3) /\
  (forall a, 0 < dsum (trans (replay observed) a) /\
             dsum (trans (replay observed) a) <= 200 # 3).
Proof.
  change (bounded (replay observed)). unfold replay.
  apply fold_left_inv.
  - split; [|intros a]; rewrite fx_dsum3; unfold initState, ALPHA; cbn [marg trans];
      split; lra.
  - intros st o _. apply updateModel_bounded.
Qed.

(** X23.  The counts [updateModel] maintains one outcome at a time are
    those the advanced script computes in one pass over the same sequence,
    plus the decayed prior: each marginal count is
    [ALPHA * DECAY^n + marginalCounts], each transition count
    [ALPHA * DECAY^n + markovCounts], for [n] outcomes observed. *)
Theorem incremental_is_batch observed (h : Advanced.History) a o :
  map Advanced.outcome h = map toAdvanced observed ->
  marg (replay observed) o ==
    ALPHA * pow DECAY (length observed) + Advanced.marginalCounts h (toAdvanced o) /\
  trans (replay observed) a o ==
    ALPHA * pow DECAY (length observed)
    + Advanced.markovCounts h (toAdvanced a) (toAdvanced o).
Proof.
  revert h a o. induction observed as [|x xs IH] using rev_ind; intros h a o Hh.
  - destruct h; [|discriminate]. split; vm_compute; reflexivity.
  - rewrite map_app in Hh. cbn [map] in Hh.
    destruct h as [|e h' _] using rev_ind.
    { destruct (map toAdvanced xs); discriminate. }
    rewrite map_app in Hh. cbn [map] in Hh.
    apply app_inj_tail in Hh. destruct Hh as [Hh He].
    destruct (IH h' a o Hh) as [IM IT].
    rewrite replay_snoc, length_app. cbn [length]. rewrite Nat.add_1_r.
    rewrite pow_S by discriminate. split.
    + rewrite updateModel_marg, AdvancedFacts.marginalCounts_snoc, IM, He, toAdvanced_eqb.
      change Advanced.DECAY with DECAY. ring.
    + rewrite updateModel_trans, AdvancedFacts.markovCounts_snoc, IT, He.
      rewrite replay_lastOutcome.
      pose proof (last_entry_outcome h' xs Hh) as Hl.
      destruct (nth_error h' (length h' - 1)) as [l'|],
               (nth_error xs (length xs - 1)) as [l|]; cbn [option_map] in Hl;
        try discriminate.
      * apply some_eq in Hl. rewrite Hl, !toAdvanced_eqb.
        change Advanced.DECAY with DECAY. ring.
      * change Advanced.DECAY with DECAY. ring.
Qed.

Lemma incremental_is_batch_witness :
  marg (replay [RED; BLACK]) BLACK ==
    ALPHA * pow DECAY (length [RED; BLACK])
    + Advanced.marginalCounts
        [Advanced.mkEntry 0 Advanced.RED; Advanced.mkEntry 5 Advanced.BLACK]
        (toAdvanced BLACK) /\
  trans (replay [RED; BLACK]) RED BLACK ==
    ALPHA * pow DECAY (length [RED; BLACK])
    + Advanced.markovCounts
        [Advanced.mkEntry 0 Advanced.RED; Advanced.mkEntry 5 Advanced.BLACK]
        (toAdvanced RED) (toAdvanced BLACK).
Proof.
  apply (incremental_is_batch [RED; BLACK]
           [Advanced.mkEntry 0 Advanced.RED; Advanced.mkEntry 5 Advanced.BLACK]).
  reflexivity.
Defined.

(** X24.  After the outcome file is loaded into the initial globals and
    any outcomes are observed, the model is the one [updateModel] builds
    from the loaded outcomes (at most 500) followed by the observed ones,
    [outcomesList] holds the last 1000 of that sequence, and the prediction
    in force is the [argmax] of [predictDistribution] on these two. *)
Theorem monitor_replays file os o :
  (length (outcomesList (loadPersistedOutcomes initMonitor file)) <= 500)%nat /\
  model (fold_left observe (os ++ [o]) (loadPersistedOutcomes initMonitor file))
  = replay (outcomesList (loadPersistedOutcomes initMonitor file) ++ os ++ [o]) /\
  outcomesList (fold_left observe (os ++ [o]) (loadPersistedOutcomes initMonitor file))
  = slice_last 1000 (outcomesList (loadPersistedOutcomes initMonitor file) ++ os ++ [o]) /\
  prevPrediction (fold_left observe (os ++ [o]) (loadPersistedOutcomes initMonitor file))
  = argmax (predictDistribution
              (replay (outcomesList (loadPersistedOutcomes initMonitor file) ++ os ++ [o]))
              (slice_last 1000
                 (outcomesList (loadPersistedOutcomes initMonitor file) ++ os ++ [o]))).
Proof.
  set (m0 := loadPersistedOutcomes initMonitor file).
  destruct (loadPersistedOutcomes_init file) as (Hl & Hm & _). fold m0 in Hl, Hm.
  split; [exact Hl|].
  destruct (observe_all (os ++ [o]) m0 (outcomesList m0)) as [A1 A2].
  { symmetry. apply slice_last_short. lia. }
  assert (Hr : model (fold_left observe (os ++ [o]) m0) = replay (outcomesList m0 ++ os ++ [o])).
  { rewrite A1, Hm. unfold replay.
    now rewrite (fold_left_app updateModel (outcomesList m0) (os ++ [o])). }
  split; [exact Hr|]. split; [exact A2|].
  rewrite <- Hr, <- A2. rewrite fold_left_app. cbn [fold_left].
  destruct (observe_fields (fold_left observe os m0) o) as (F1 & F2 & F3).
  rewrite F3, F1, F2. reflexivity.
Qed.

(** X25.  After the monitor has observed one outcome and then more, every
    one after the first was compared with the prediction made before it:
    [totalPred] is their number, [correctPred] does not exceed it,
    [recent] holds as many results as were made, up to [RECENT_WINDOW], and
    no more hits than [correctPred] counts. *)
Theorem monitor_tally file o1 rest :
  totalPred (fold_left observe (o1 :: rest) (loadPersistedOutcomes initMonitor file))
  = length rest /\
  (correctPred (fold_left observe (o1 :: rest) (loadPersistedOutcomes initMonitor file))
   <= totalPred (fold_left observe (o1 :: rest) (loadPersistedOutcomes initMonitor file)))%nat /\
  length (recent (fold_left observe (o1 :: rest) (loadPersistedOutcomes initMonitor file)))
  = Nat.min (length rest) RECENT_WINDOW /\
  (length (filter (fun ok => ok)
             (recent (fold_left observe (o1 :: rest)
                        (loadPersistedOutcomes initMonitor file))))
   <= correctPred (fold_left observe (o1 :: rest)
                     (loadPersistedOutcomes initMonitor file)))%nat.
Proof.
  cbn [fold_left].
  set (m0 := loadPersistedOutcomes initMonitor file).
  destruct (loadPersistedOutcomes_init file) as (_ & _ & T0 & N0 & P0).
  fold m0 in T0, N0, P0.
  destruct (observe_tally m0 o1 T0) as (T1 & N1 & P1). rewrite P0, N0 in N1.
  destruct (observe_all_tally rest (observe m0 o1) T1 P1) as [(A1 & A2 & A3) An].
  rewrite N1 in An. cbn [Nat.add] in An. rewrite An in *. repeat split; assumption.
Qed.


End FixedExtra.
